(** * VPR post-pack netlist loader and atom-netlist utilities

    A shallow embedding of [vpr/SRC/base/atom_netlist_utils.c] and of the
    packed-netlist reader ([read_netlist.c]: [add_net_to_hash],
    [load_external_nets_and_cb], [mark_constant_generators_rec],
    [load_interal_to_block_net_nums], [load_atom_index_for_pb_pin]).

    Conventions.
    - Strongly typed ids ([AtomBlockId], [AtomPinId], [AtomNetId], ...) are
      natural numbers; an id that may be [INVALID()] is an [option].
    - C [int]s are integers in [Z]; the sentinel [OPEN] is [-1].
    - A function that can stop in [VTR_ASSERT], [vpr_throw]/[VPR_THROW], in
      undefined behaviour (an index outside an array) or in a [std::vector]
      that cannot grow returns a [result]. *)

From stdpp Require Import gmap strings list fin_maps.
From Stdlib Require Import ZArith Lia.

Local Open Scope Z_scope.

(** ** Failure *)

Inductive vpr_error :=
| AssertionFailed (what : string)   (* VTR_ASSERT / VTR_ASSERT_MSG *)
| VprThrow (msg : string)           (* vpr_throw / VPR_THROW *)
| OutOfBounds                       (* an array or vector indexed outside its range *)
| ShiftOverflow                     (* a shift of an [int] beyond its width *)
| AllocFailed                       (* a [std::vector] that cannot grow *)
| OutOfFuel.                        (* the model's recursion bound was reached *)

Inductive result (A : Type) :=
| Ok (a : A)
| Err (e : vpr_error).
Arguments Ok {A} a.
Arguments Err {A} e.

#[global] Instance result_ret : MRet result := fun A a => Ok a.
#[global] Instance result_bind : MBind result :=
  fun A B f m => match m with Ok a => f a | Err e => Err e end.

Definition VTR_ASSERT (what : string) (b : bool) : result unit :=
  if b then Ok tt else Err (AssertionFailed what).

Definition is_Ok {A} (r : result A) : bool :=
  match r with Ok _ => true | Err _ => false end.

(** A loop over a range: [for (x : l) body], the loop-carried variables in
    [s].  A counting loop [for (i = 0; i < n; i++)] runs over [seq 0 n]. *)
Fixpoint for_each {A S : Type} (l : list A) (body : S → A → result S) (s : S)
    : result S :=
  match l with
  | [] => Ok s
  | x :: rest => s' ← body s x; for_each rest body s'
  end.

Lemma for_each_app {A S} (l1 l2 : list A) (body : S → A → result S) s :
  for_each (l1 ++ l2) body s = (s' ← for_each l1 body s; for_each l2 body s').
Proof.
  revert s. induction l1 as [|x l1 IH]; intros s; simpl; [done|].
  destruct (body s x); simpl; [apply IH|done].
Qed.

(** A loop whose only variable is [()] returns when each of its rounds does. *)
Lemma for_each_unit {A} (l : list A) (body : unit → A → result unit) :
  for_each l body tt = Ok tt ↔ ∀ x, x ∈ l → body tt x = Ok tt.
Proof.
  induction l as [|x l IH]; simpl.
  - split; [|done]. intros _ x Hx. by apply not_elem_of_nil in Hx.
  - destruct (body tt x) as [[]|e] eqn:E; simpl.
    + rewrite IH. split.
      * intros H y [->|Hy]%elem_of_cons; [done|by apply H].
      * intros H y Hy. apply H. by right.
    + split; [done|]. intros H. specialize (H x). rewrite E in H.
      assert (Err e = Ok tt) as ? by (apply H; left). done.
Qed.

(** A run that ends: with a result in [P], or in an assertion, and then [Q]
    holds; never by exhausting the recursion bound or leaving the table. *)
Definition outcome {A} (r : result A) (P : A → Prop) (Q : Prop) : Prop :=
  match r with
  | Ok a => P a
  | Err (AssertionFailed _) => Q
  | Err _ => False
  end.

Lemma outcome_bind {A B} (m : result A) (f : A → result B) P1 P Q :
  outcome m P1 Q → (∀ a, P1 a → outcome (f a) P Q) → outcome (m ≫= f) P Q.
Proof. destruct m as [a|[]]; simpl; auto. Qed.

Lemma outcome_weaken {A} (r : result A) (P P' : A → Prop) (Q Q' : Prop) :
  outcome r P Q → (∀ a, P a → P' a) → (Q → Q') → outcome r P' Q'.
Proof. destruct r as [a|[]]; simpl; auto. Qed.

Lemma outcome_ends {A} (r : result A) P Q :
  outcome r P Q → r ≠ Err OutOfFuel ∧ r ≠ Err OutOfBounds.
Proof. destruct r as [a|[]]; simpl; try done. Qed.

(** [OPEN] of [vpr_types.h]: the "no net / no pin" sentinel of the [int]
    tables. *)
Definition OPEN : Z := -1.

(** ** The hash table of external nets *)

Module NetHash.

(** [struct s_hash]: the entry of one name. *)
Record s_hash := { h_index : Z; h_count : Z }.

(** Modelled from the spec: the string hash table of [hash.c] is outside the
    files at hand ("the hash-table/string utilities" are external
    collaborators); section 4.4 has it intern a net name, hand back a compact
    index and keep the occurrence count of the name.  [insert_in_hash_table]
    returns the table and the entry created or updated: a name already present
    has its count incremented, a new name enters with the index proposed by
    the caller and a count of one. *)
Definition insert_in_hash_table (nhash : gmap string s_hash) (name : string)
    (next_free_index : Z) : gmap string s_hash * s_hash :=
  match nhash !! name with
  | Some h =>
      let h' := {| h_index := h_index h; h_count := h_count h + 1 |} in
      (<[name := h']> nhash, h')
  | None =>
      let h' := {| h_index := next_free_index; h_count := 1 |} in
      (<[name := h']> nhash, h')
  end.

(** [add_net_to_hash]: the table and the counter are passed and returned. *)
Definition add_net_to_hash (nhash : gmap string s_hash) (net_name : string)
    (ncount : Z) : result (Z * gmap string s_hash * Z) :=
  if String.eqb net_name "open" then Ok (OPEN, nhash, ncount)
  else
    let '(nhash', hash_value) := insert_in_hash_table nhash net_name ncount in
    if h_count hash_value =? 1 then
      _ ← VTR_ASSERT "*ncount == hash_value->index" (ncount =? h_index hash_value);
      Ok (h_index hash_value, nhash', ncount + 1)
    else Ok (h_index hash_value, nhash', ncount).

(** A run of calls, as the extractor makes them pin after pin: the indices
    handed back, in call order, and the final table and counter. *)
Fixpoint add_nets_to_hash (nhash : gmap string s_hash) (ncount : Z)
    (names : list string) : result (list Z * gmap string s_hash * Z) :=
  match names with
  | [] => Ok ([], nhash, ncount)
  | name :: rest =>
      '(i, nhash', ncount') ← add_net_to_hash nhash name ncount;
      '(idxs, nhash'', ncount'') ← add_nets_to_hash nhash' ncount' rest;
      Ok (i :: idxs, nhash'', ncount'')
  end.

Lemma add_net_to_hash_keeps_open_free nhash name ncount i nhash' ncount' :
  nhash !! "open" = None →
  add_net_to_hash nhash name ncount = Ok (i, nhash', ncount') →
  nhash' !! "open" = None.
Proof.
  intros Hfree. unfold add_net_to_hash.
  destruct (String.eqb_spec name "open") as [->|Hne].
  - intros [= <- <- <-]. exact Hfree.
  - unfold insert_in_hash_table.
    assert (∀ h : s_hash, <[name := h]> nhash !! "open" = None) as Hins
      by (intros h; by rewrite lookup_insert_ne).
    destruct (nhash !! name) as [h|] eqn:Hl; simpl.
    + destruct (h_count h + 1 =? 1).
      * destruct (ncount =? h_index h); simpl; [|discriminate].
        intros [= <- <- <-]. apply Hins.
      * intros [= <- <- <-]. apply Hins.
    + rewrite Z.eqb_refl. simpl. intros [= <- <- <-]. apply Hins.
Qed.

(** Every entry of a table built by [insert_in_hash_table] has been seen at
    least once. *)
Definition counts_positive (nhash : gmap string s_hash) : Prop :=
  ∀ name h, nhash !! name = Some h → 1 ≤ h_count h.

Lemma add_net_to_hash_runs nhash name ncount :
  counts_positive nhash →
  ∃ i nhash' ncount',
    add_net_to_hash nhash name ncount = Ok (i, nhash', ncount')
    ∧ counts_positive nhash'.
Proof.
  intros Hpos. unfold add_net_to_hash.
  destruct (String.eqb name "open"); [by eauto|].
  unfold insert_in_hash_table.
  destruct (nhash !! name) as [h|] eqn:Hl; simpl.
  - pose proof (Hpos _ _ Hl) as Hc.
    destruct (Z.eqb_spec (h_count h + 1) 1) as [E|E]; [lia|].
    do 3 eexists; split; [reflexivity|].
    intros k e. destruct (decide (name = k)) as [->|Hk].
    + rewrite lookup_insert_eq. intros [= <-]. simpl. lia.
    + rewrite lookup_insert_ne by done. apply Hpos.
  - rewrite Z.eqb_refl. simpl.
    do 3 eexists; split; [reflexivity|].
    intros k e. destruct (decide (name = k)) as [->|Hk].
    + rewrite lookup_insert_eq. intros [= <-]. simpl. lia.
    + rewrite lookup_insert_ne by done. apply Hpos.
Qed.

Lemma add_nets_to_hash_runs names : ∀ nhash ncount,
  counts_positive nhash →
  nhash !! "open" = None →
  ∃ idxs nhash' ncount',
    add_nets_to_hash nhash ncount names = Ok (idxs, nhash', ncount')
    ∧ counts_positive nhash' ∧ nhash' !! "open" = None.
Proof.
  induction names as [|name rest IH]; intros nhash ncount Hpos Hfree; simpl.
  - by eauto 6.
  - destruct (add_net_to_hash_runs nhash name ncount Hpos)
      as (i & h1 & n1 & E1 & Hpos1).
    rewrite E1. simpl.
    pose proof (add_net_to_hash_keeps_open_free _ _ _ _ _ _ Hfree E1) as Hfree1.
    destruct (IH h1 n1 Hpos1 Hfree1) as (idxs & h2 & n2 & E2 & Hpos2 & Hfree2).
    rewrite E2. simpl. by eauto 8.
Qed.

(** C10.  A call of [add_net_to_hash] with the keyword "open" hands back
    [OPEN] and leaves the table and the net count as they were; hence, whatever
    names the extractor interns starting from the empty table, the run
    completes and the table never holds an entry named "open". *)
Theorem add_net_to_hash_open_is_not_interned :
  (∀ nhash ncount,
      add_net_to_hash nhash "open" ncount = Ok (OPEN, nhash, ncount))
  ∧ (∀ names, ∃ idxs nhash ncount,
      add_nets_to_hash ∅ 0 names = Ok (idxs, nhash, ncount)
      ∧ nhash !! "open" = None).
Proof.
  split.
  - reflexivity.
  - intros names.
    destruct (add_nets_to_hash_runs names ∅ 0) as (idxs & h & n & E & _ & Hf).
    + intros k e. by rewrite lookup_empty.
    + apply lookup_empty.
    + by eauto.
Qed.

End NetHash.

(** ** Truth tables and LUT masks ([atom_netlist_utils.c]) *)

Module TruthTable.

(** [vtr::LogicValue]; the source spells the last one [UNKOWN]. *)
Inductive LogicValue := FALSE | TRUE | DONT_CARE | UNKOWN.

#[global] Instance LogicValue_eq_dec : EqDecision LogicValue.
Proof. solve_decision. Defined.

(** [AtomNetlist::TruthTable]: rows of input values followed by the output
    value. *)
Definition TruthTable : Type := list (list LogicValue).

Definition truth_table_encodes_on_set (truth_table : TruthTable) : result bool :=
  match truth_table with
  | [] => Ok true
  | row0 :: _ =>
      _ ← VTR_ASSERT "Can not have an empty truth-table row"
                     (0 <? length row0)%nat;
      match row0 !! (length row0 - 1)%nat with
      | Some TRUE => Ok true
      | Some FALSE => Ok false
      | Some _ => Err (VprThrow "Unrecognized truth-table output value")
      | None => Err OutOfBounds
      end
  end.

(** [1 << i] on a 32-bit [int]. *)
Definition shl_one (i : nat) : result Z :=
  if (i <? 31)%nat then Ok (Z.shiftl 1 (Z.of_nat i)) else Err ShiftOverflow.

Definition is_true_or_false (v : LogicValue) : bool :=
  match v with TRUE | FALSE => true | _ => false end.

(** The second half of [cube_to_minterms_recurr]: the number whose binary
    digits are the cube's values. *)
Definition cube_minterm (cube : list LogicValue) : result Z :=
  for_each (seq 0 (length cube))
    (λ minterm i,
       match cube !! i with
       | Some TRUE => p ← shl_one i; Ok (minterm + p)
       | Some _ => Ok minterm
       | None => Err OutOfBounds
       end) 0.

(** The body of the first loop of [cube_to_minterms_recurr] at index [i];
    [recurr] stands for the recursive calls, [cube_has_dc] and [minterms] are
    the variables the loop updates. *)
Definition expand_dont_care
    (recurr : list LogicValue → list Z → result (list Z))
    (cube : list LogicValue) (st : bool * list Z) (i : nat)
    : result (bool * list Z) :=
  let '(cube_has_dc, minterms) := st in
  match cube !! i with
  | Some v =>
      if decide (v = DONT_CARE) then
        minterms ← recurr (<[i := TRUE]> cube) minterms;
        minterms ← recurr (<[i := FALSE]> cube) minterms;
        Ok (true, minterms)
      else
        _ ← VTR_ASSERT "cube[i] == TRUE || cube[i] == FALSE" (is_true_or_false v);
        Ok (cube_has_dc, minterms)
  | None => Err OutOfBounds
  end.

(** [minterms.push_back(minterm)] on the [std::vector<size_t>] of minterms.
    A vector grows only as far as the platform lets it: [max_size] is the
    size at which [push_back] throws instead ([std::length_error] at
    [max_size()], which libstdc++ sets to [2 ^ 60 - 1] for a vector of 64-bit
    [size_t], or [std::bad_alloc] where memory ends before that).  Nothing in
    [atom_netlist_utils.c] catches the exception.  The vector of minterms is
    the one container of the file that outgrows its input, see [expansion]
    below; a mask or a row has at most [2 ^ num_inputs] entries. *)
Definition push_back (max_size : nat) (v : list Z) (x : Z) : result (list Z) :=
  if (length v <? max_size)%nat then Ok (v ++ [x]) else Err AllocFailed.

(** [cube_to_minterms_recurr]; [minterms] is the vector passed by reference.
    Each recursive call has one don't-care fewer, which bounds the depth. *)
Fixpoint cube_to_minterms_recurr (max_size fuel : nat) (cube : list LogicValue)
    (minterms : list Z) {struct fuel} : result (list Z) :=
  match fuel with
  | O => Err OutOfFuel
  | S fuel' =>
      '(cube_has_dc, minterms) ←
        for_each (seq 0 (length cube))
          (expand_dont_care (cube_to_minterms_recurr max_size fuel') cube)
          (false, minterms);
      if cube_has_dc : bool then Ok minterms
      else minterm ← cube_minterm cube; push_back max_size minterms minterm
  end.

Definition count_dc (cube : list LogicValue) : nat :=
  length (filter (λ v, v = DONT_CARE) cube).

Definition cube_to_minterms (max_size : nat) (cube : list LogicValue)
    : result (list Z) :=
  cube_to_minterms_recurr max_size (S (count_dc cube)) cube [].

Definition truth_table_to_lut_mask (max_size : nat) (truth_table : TruthTable)
    (num_inputs : nat) : result (list LogicValue) :=
  on_set ← truth_table_encodes_on_set truth_table;
  let mask_bits := (2 ^ num_inputs)%nat in
  let mask := replicate mask_bits (if on_set : bool then FALSE else TRUE) in
  for_each truth_table
    (λ mask row,
       (* cube(row.begin(), --row.end()) *)
       cube ← match row with
              | [] => Err OutOfBounds
              | _ => Ok (take (length row - 1) row)
              end;
       _ ← VTR_ASSERT "cube.size() == num_inputs" (length cube =? num_inputs)%nat;
       minterms ← cube_to_minterms max_size cube;
       for_each minterms
         (λ mask minterm,
            _ ← VTR_ASSERT "minterm < mask.size()" (minterm <? Z.of_nat (length mask));
            Ok (<[Z.to_nat minterm := if on_set : bool then TRUE else FALSE]> mask))
         mask)
    mask.

(** *** What a mask has to hold *)

(** A logic value of a cube against one input bit. *)
Definition value_admits (v : LogicValue) (b : bool) : bool :=
  match v with
  | TRUE => b
  | FALSE => negb b
  | DONT_CARE => true
  | UNKOWN => false
  end.

(** Minterm [m] lies in the cube: input [i] of the cube admits bit [i] of
    [m] (input 0 is the least significant bit, as in [1 << i]). *)
Definition cube_covers (cube : list LogicValue) (m : Z) : bool :=
  forallb (λ i, match cube !! i with
                | Some v => value_admits v (Z.testbit m (Z.of_nat i))
                | None => true
                end) (seq 0 (length cube)).

Definition row_cube (row : list LogicValue) : list LogicValue :=
  take (length row - 1) row.

(** Minterm [m] lies in the input cube of some row of the table. *)
Definition table_covers (truth_table : TruthTable) (m : Z) : bool :=
  existsb (λ row, cube_covers (row_cube row) m) truth_table.

(** The tables [truth_table_to_lut_mask] accepts for [num_inputs] inputs:
    every row has [num_inputs] input values, none of them [UNKOWN], and an
    output value; the output value of the first row is [TRUE] or [FALSE]. *)
Definition well_formed_row (num_inputs : nat) (row : list LogicValue) : bool :=
  (length row =? S num_inputs)%nat
  && forallb (λ v, bool_decide (v ≠ UNKOWN)) (row_cube row).

Definition first_output_is_true (truth_table : TruthTable) : bool :=
  match truth_table with
  | [] => true
  | row0 :: _ => bool_decide (last row0 = Some TRUE)
  end.

Definition well_formed_table (num_inputs : nat) (truth_table : TruthTable) : bool :=
  forallb (well_formed_row num_inputs) truth_table
  && match truth_table with
     | [] => true
     | row0 :: _ => bool_decide (last row0 = Some TRUE ∨ last row0 = Some FALSE)
     end.

Example lut_mask_and2 :
  truth_table_to_lut_mask 8 [[TRUE; TRUE; TRUE]] 2 = Ok [FALSE; FALSE; FALSE; TRUE].
Proof. reflexivity. Qed.

Example lut_mask_dc :
  truth_table_to_lut_mask 8 [[DONT_CARE; TRUE; FALSE]] 2
  = Ok [TRUE; TRUE; FALSE; FALSE].
Proof. reflexivity. Qed.

Example minterms_two_dc :
  cube_to_minterms 8 [DONT_CARE; DONT_CARE] = Ok [3; 1; 2; 0; 3; 2; 1; 0].
Proof. reflexivity. Qed.

Example minterms_two_dc_full :
  cube_to_minterms 7 [DONT_CARE; DONT_CARE] = Err AllocFailed.
Proof. reflexivity. Qed.

(** *** The minterm of a cube without don't-cares *)

Fixpoint cube_value (cube : list LogicValue) : Z :=
  match cube with
  | [] => 0
  | v :: rest => (if decide (v = TRUE) then 1 else 0) + 2 * cube_value rest
  end.

Lemma cube_value_range cube : 0 ≤ cube_value cube < 2 ^ Z.of_nat (length cube).
Proof.
  induction cube as [|v rest IH]; [simpl; lia|].
  cbn [cube_value length]. rewrite Nat2Z.inj_succ, Z.pow_succ_r by lia.
  destruct (decide (v = TRUE)); lia.
Qed.

Lemma cube_minterm_loop cube : ∀ n a acc,
  (a + n = length cube)%nat → (length cube ≤ 31)%nat →
  for_each (seq a n)
    (λ minterm i,
       match cube !! i with
       | Some TRUE => p ← shl_one i; Ok (minterm + p)
       | Some _ => Ok minterm
       | None => Err OutOfBounds
       end) acc
  = Ok (acc + 2 ^ Z.of_nat a * cube_value (drop a cube)).
Proof.
  induction n as [|n IH]; intros a acc Hlen Hle.
  - rewrite drop_ge by lia. simpl. f_equal. lia.
  - simpl.
    destruct (lookup_lt_is_Some_2 cube a) as [v Hv]; [lia|].
    rewrite Hv. erewrite (drop_S cube v a) by done.
    cbn [cube_value].
    assert (2 ^ Z.of_nat (S a) = 2 * 2 ^ Z.of_nat a) as Hp
      by (rewrite Nat2Z.inj_succ, Z.pow_succ_r; lia).
    destruct v; simpl.
    + rewrite IH by lia. f_equal. rewrite Hp. lia.
    + unfold shl_one. destruct (Nat.ltb_spec a 31) as [_|?]; [|lia].
      simpl. rewrite IH by lia. f_equal.
      rewrite Z.shiftl_1_l, Hp. lia.
    + rewrite IH by lia. f_equal. rewrite Hp. lia.
    + rewrite IH by lia. f_equal. rewrite Hp. lia.
Qed.

Lemma cube_minterm_value cube :
  (length cube ≤ 31)%nat → cube_minterm cube = Ok (cube_value cube).
Proof.
  intros Hle. unfold cube_minterm.
  rewrite (cube_minterm_loop cube (length cube) 0 0) by lia.
  rewrite drop_0. f_equal. simpl. destruct (cube_value cube); lia.
Qed.

(** *** Covered minterms *)

Definition covers (cube : list LogicValue) (m : Z) : Prop :=
  ∀ i v, cube !! i = Some v → value_admits v (Z.testbit m (Z.of_nat i)) = true.

Lemma cube_covers_spec cube m : cube_covers cube m = true ↔ covers cube m.
Proof.
  unfold cube_covers, covers. rewrite forallb_forall. split.
  - intros H i v Hv. specialize (H i). rewrite Hv in H. apply H.
    apply in_seq. apply lookup_lt_Some in Hv. lia.
  - intros H i _. destruct (cube !! i) as [v|] eqn:Hv; [eauto|done].
Qed.

Lemma covers_nil m : covers [] m.
Proof. intros i v. by rewrite lookup_nil. Qed.

Lemma covers_cons v rest m :
  covers (v :: rest) m ↔ value_admits v (Z.odd m) = true ∧ covers rest (m / 2).
Proof.
  unfold covers. split.
  - intros H. split.
    + rewrite <- Z.bit0_odd. by apply (H 0%nat).
    + intros i w Hw. rewrite Z.div2_bits by lia.
      rewrite <- Nat2Z.inj_succ. by apply (H (S i)).
  - intros [H0 H] [|i] w Hw; simpl in Hw.
    + injection Hw as <-. by rewrite Z.bit0_odd.
    + rewrite Nat2Z.inj_succ, <- Z.div2_bits by lia. by apply H.
Qed.

(** A cube without don't-cares covers one minterm, its value. *)
Lemma covers_minterm cube : ∀ m,
  Forall (λ v, is_true_or_false v = true) cube →
  (0 ≤ m < 2 ^ Z.of_nat (length cube) ∧ covers cube m) ↔ m = cube_value cube.
Proof.
  induction cube as [|v rest IH]; intros m Hall.
  - simpl. split; [lia|]. intros ->. split; [lia|apply covers_nil].
  - apply Forall_cons in Hall as [Hv Hall].
    rewrite covers_cons. cbn [cube_value length].
    rewrite Nat2Z.inj_succ, Z.pow_succ_r by lia.
    pose proof (Z.div2_odd m) as Hm. rewrite Z.div2_div in Hm.
    split.
    + intros (Hr & Hadm & Hc).
      assert (m / 2 = cube_value rest) as <-.
      { apply IH; [done|]. split; [|done]. destruct (Z.odd m); simpl in Hm; lia. }
      destruct v; try discriminate; simpl in Hadm;
        destruct (Z.odd m); try discriminate; simpl in Hm;
        destruct (decide _); try congruence; lia.
    + intros ->.
      pose proof (cube_value_range rest) as Hr.
      set (b := (if decide (v = TRUE) then 1 else 0) : Z).
      assert (b = 0 ∨ b = 1) as Hb by (unfold b; destruct (decide _); lia).
      assert (Z.odd (b + 2 * cube_value rest) = bool_decide (v = TRUE)) as Hodd.
      { rewrite Z.odd_add_mul_2. unfold b.
        destruct (decide (v = TRUE)) as [->|Hne]; [done|].
        by rewrite bool_decide_eq_false_2. }
      assert ((b + 2 * cube_value rest) / 2 = cube_value rest) as Hdiv.
      { symmetry. apply (Z.div_unique_pos _ 2 _ b); lia. }
      split; [lia|]. rewrite Hodd, Hdiv. split.
      * destruct v; try discriminate; done.
      * apply IH; [done|]. done.
Qed.

(** A don't-care splits the cube in two. *)
Lemma covers_dont_care cube i m :
  cube !! i = Some DONT_CARE →
  covers cube m ↔ covers (<[i := TRUE]> cube) m ∨ covers (<[i := FALSE]> cube) m.
Proof.
  intros Hi. assert (i < length cube)%nat as Hlt by by eapply lookup_lt_Some.
  split.
  - intros H. destruct (Z.testbit m (Z.of_nat i)) eqn:Hb; [left|right];
      intros j w Hw; (destruct (decide (i = j)) as [<-|Hne];
        [rewrite list_lookup_insert_eq in Hw by done; injection Hw as <-;
           simpl; by rewrite Hb
        |rewrite list_lookup_insert_ne in Hw by done; by apply H]).
  - intros [H|H] j w Hw;
      (destruct (decide (i = j)) as [<-|Hne];
        [rewrite Hi in Hw; by injection Hw as <-
        |apply H; by rewrite list_lookup_insert_ne]).
Qed.

Lemma count_dc_insert cube : ∀ i v,
  cube !! i = Some DONT_CARE → v ≠ DONT_CARE →
  count_dc cube = S (count_dc (<[i := v]> cube)).
Proof.
  unfold count_dc.
  induction cube as [|w rest IH]; intros [|i] v Hi Hv; simpl in *; try done.
  - injection Hi as ->. rewrite filter_cons_True by done.
    by rewrite filter_cons_False.
  - destruct (decide (w = DONT_CARE)) as [->|Hw].
    + rewrite !filter_cons_True by done. simpl. f_equal. by apply IH.
    + rewrite !filter_cons_False by done. by apply IH.
Qed.

(** *** [cube_to_minterms_recurr] lists the covered minterms *)

Definition lists_cube (cube : list LogicValue) (l : list Z) : Prop :=
  ∀ m, m ∈ l ↔ (0 ≤ m < 2 ^ Z.of_nat (length cube) ∧ covers cube m).

(** The number of entries the expansion of a cube with [k] don't-cares
    pushes: the first loop expands the cube at each of its [k] don't-cares,
    twice, so the [2 ^ k] minterms are listed [k!] times over. *)
Definition expansion (k : nat) : nat := (2 ^ k * fact k)%nat.

Lemma expansion_S k : expansion (S k) = (S k * (2 * expansion k))%nat.
Proof. unfold expansion. cbn [Nat.pow fact]. lia. Qed.

Lemma count_dc_cons v cube :
  count_dc (v :: cube)
  = if decide (v = DONT_CARE) then S (count_dc cube) else count_dc cube.
Proof.
  unfold count_dc. destruct (decide (v = DONT_CARE)).
  - by rewrite filter_cons_True.
  - by rewrite filter_cons_False.
Qed.

Lemma count_dc_zero cube :
  count_dc cube = 0%nat → Forall (λ v, v ≠ DONT_CARE) cube.
Proof.
  induction cube as [|v cube IH]; [done|].
  rewrite count_dc_cons. destruct (decide (v = DONT_CARE)); [done|].
  intros H. apply Forall_cons. split; [done|by apply IH].
Qed.

Lemma count_dc_absent cube : DONT_CARE ∉ cube → count_dc cube = 0%nat.
Proof.
  induction cube as [|v cube IH]; [done|].
  intros [Hv Hcube]%not_elem_of_cons. rewrite count_dc_cons.
  rewrite decide_False by done. by apply IH.
Qed.

Lemma count_dc_lookup cube i :
  cube !! i = Some DONT_CARE → (0 < count_dc cube)%nat.
Proof.
  intros Hi. pose proof (count_dc_insert cube i TRUE Hi ltac:(discriminate)). lia.
Qed.

Section Expansion.

Variable max_size fuel' : nat.
Hypothesis recurr_spec : ∀ cube acc,
  (count_dc cube < fuel')%nat → (length cube ≤ 31)%nat →
  Forall (λ v, v ≠ UNKOWN) cube → (length acc ≤ max_size)%nat →
  if decide (length acc + expansion (count_dc cube) ≤ max_size)%nat
  then ∃ l, cube_to_minterms_recurr max_size fuel' cube acc = Ok (acc ++ l)
            ∧ lists_cube cube l ∧ length l = expansion (count_dc cube)
  else cube_to_minterms_recurr max_size fuel' cube acc = Err AllocFailed.

Variable cube : list LogicValue.
Hypothesis cube_fuel : (count_dc cube < S fuel')%nat.
Hypothesis cube_length : (length cube ≤ 31)%nat.
Hypothesis cube_known : Forall (λ v, v ≠ UNKOWN) cube.

Let has_dc_in (a n : nat) : Prop :=
  ∃ i, (a ≤ i < a + n)%nat ∧ cube !! i = Some DONT_CARE.

(** What one don't-care of the cube adds to the vector. *)
Let per : nat := (2 * expansion (count_dc cube - 1))%nat.

Lemma expand_loop acc : ∀ n a (hd : bool) l,
  (a + n = length cube)%nat → (length (acc ++ l) ≤ max_size)%nat →
  if decide (length (acc ++ l) + count_dc (drop a cube) * per ≤ max_size)%nat
  then
    ∃ (hd' : bool) l',
      for_each (seq a n)
        (expand_dont_care (cube_to_minterms_recurr max_size fuel') cube)
        (hd, acc ++ l)
      = Ok (hd', acc ++ l')
      ∧ (hd' = true ↔ hd = true ∨ has_dc_in a n)
      ∧ (∀ m, m ∈ l' ↔
           m ∈ l ∨ (0 ≤ m < 2 ^ Z.of_nat (length cube) ∧ covers cube m
                    ∧ has_dc_in a n))
      ∧ length l' = (length l + count_dc (drop a cube) * per)%nat
  else
    for_each (seq a n)
      (expand_dont_care (cube_to_minterms_recurr max_size fuel') cube)
      (hd, acc ++ l)
    = Err AllocFailed.
Proof.
  induction n as [|n IH]; intros a hd l Hlen Hacc.
  - rewrite drop_ge by lia. change (count_dc []) with 0%nat.
    rewrite decide_True by lia.
    exists hd, l. split; [done|]. unfold has_dc_in. split; [|split].
    + split; [auto|]. intros [?|(i & ? & _)]; [done|lia].
    + intros m. split; [auto|]. intros [?|(_ & _ & i & ? & _)]; [done|lia].
    + lia.
  - cbn [seq for_each]. unfold expand_dont_care at 2 4.
    destruct (lookup_lt_is_Some_2 cube a) as [v Hv]; [lia|].
    rewrite Hv. rewrite (drop_S cube v a) by done. rewrite count_dc_cons.
    assert (v ≠ UNKOWN) as Hknown.
    { eapply Forall_forall in cube_known; [exact cube_known|].
      eapply list_elem_of_lookup_2; eauto. }
    destruct (decide (v = DONT_CARE)) as [->|Hdc].
    + (* a don't-care: both halves are expanded *)
      pose proof (count_dc_insert cube a TRUE Hv ltac:(discriminate)) as Ht.
      pose proof (count_dc_insert cube a FALSE Hv ltac:(discriminate)) as Hf.
      assert (expansion (count_dc (<[a := TRUE]> cube))
              = expansion (count_dc cube - 1)) as Et by (f_equal; lia).
      assert (expansion (count_dc (<[a := FALSE]> cube))
              = expansion (count_dc cube - 1)) as Ef by (f_equal; lia).
      assert (per = (2 * expansion (count_dc cube - 1))%nat) as Hper by done.
      clearbody per.
      pose proof (recurr_spec (<[a := TRUE]> cube) (acc ++ l)
                    ltac:(lia) ltac:(by rewrite length_insert)
                    ltac:(apply Forall_insert; [done|discriminate]) Hacc) as H1.
      rewrite Et in H1.
      destruct (decide (length (acc ++ l) + expansion (count_dc cube - 1)
                        ≤ max_size)%nat) as [Hfit1|Hfull1].
      2:{ rewrite H1. cbn [mbind result_bind]. rewrite decide_False by lia. done. }
      destruct H1 as (l1 & E1 & H1 & Hl1).
      rewrite E1. cbn [mbind result_bind].
      pose proof (recurr_spec (<[a := FALSE]> cube) ((acc ++ l) ++ l1)
                    ltac:(lia) ltac:(by rewrite length_insert)
                    ltac:(apply Forall_insert; [done|discriminate])
                    ltac:(rewrite length_app; lia)) as H2.
      rewrite Ef in H2. rewrite (length_app (acc ++ l) l1), Hl1 in H2.
      destruct (decide (length (acc ++ l) + expansion (count_dc cube - 1)
                        + expansion (count_dc cube - 1) ≤ max_size)%nat)
        as [Hfit2|Hfull2].
      2:{ rewrite H2. cbn [mbind result_bind]. rewrite decide_False by lia. done. }
      destruct H2 as (l2 & E2 & H2 & Hl2).
      rewrite E2. cbn [mbind result_bind].
      rewrite <- !(assoc_L (++)).
      pose proof (IH (S a) true (l ++ l1 ++ l2) ltac:(lia)
                    ltac:(rewrite !length_app in *; lia)) as Hrest.
      assert (length (acc ++ l ++ l1 ++ l2)
              = (length (acc ++ l) + per)%nat) as Hgrown
        by (rewrite !length_app; lia).
      rewrite Hgrown in Hrest.
      destruct (decide (length (acc ++ l) + per
                        + count_dc (drop (S a) cube) * per ≤ max_size)%nat)
        as [Hfit|Hfull].
      2:{ rewrite Hrest. rewrite decide_False by lia. done. }
      rewrite decide_True by lia.
      destruct Hrest as (hd' & l' & E & Hhd & Hl & Hlen').
      exists hd', l'. split; [exact E|]. split; [|split].
      * rewrite Hhd. split; [intros _|by auto].
        right. exists a. split; [lia|done].
      * intros m. rewrite Hl, !elem_of_app, (H1 m), (H2 m), !length_insert.
        pose proof (covers_dont_care cube a m Hv) as Hsplit.
        unfold has_dc_in. split.
        -- intros [[?|[[? ?]|[? ?]]]|(? & ? & i & ? & ?)]; [by left|right..].
           ++ split; [done|]. split; [tauto|]. exists a. split; [lia|done].
           ++ split; [done|]. split; [tauto|]. exists a. split; [lia|done].
           ++ split; [done|]. split; [done|]. exists i. split; [lia|done].
        -- intros [?|(? & Hc & _)]; [by left; left|].
           left. right. apply Hsplit in Hc. tauto.
      * rewrite Hlen', !length_app. lia.
    + (* a fixed value *)
      assert (is_true_or_false v = true) as -> by by destruct v.
      cbn [VTR_ASSERT mbind result_bind].
      pose proof (IH (S a) hd l ltac:(lia) Hacc) as Hrest.
      destruct (decide (length (acc ++ l) + count_dc (drop (S a) cube) * per
                        ≤ max_size)%nat) as [Hfit|Hfull]; [|exact Hrest].
      destruct Hrest as (hd' & l' & E & Hhd & Hl & Hlen').
      exists hd', l'. split; [exact E|].
      assert (has_dc_in (S a) n ↔ has_dc_in a (S n)) as Hshift.
      { unfold has_dc_in. split; intros (i & Hi & Hd).
        - exists i. split; [lia|done].
        - exists i. split; [|done].
          destruct (decide (i = a)) as [->|]; [congruence|lia]. }
      split; [|split].
      * rewrite Hhd, Hshift. done.
      * intros m. rewrite Hl, Hshift. done.
      * done.
Qed.

End Expansion.

(** The vector [cube_to_minterms_recurr] leaves: the minterms of the cube
    appended, [expansion] of them, when the vector can take them, and no
    vector otherwise. *)
Lemma cube_to_minterms_recurr_spec max_size : ∀ fuel cube acc,
  (count_dc cube < fuel)%nat → (length cube ≤ 31)%nat →
  Forall (λ v, v ≠ UNKOWN) cube → (length acc ≤ max_size)%nat →
  if decide (length acc + expansion (count_dc cube) ≤ max_size)%nat
  then ∃ l, cube_to_minterms_recurr max_size fuel cube acc = Ok (acc ++ l)
            ∧ lists_cube cube l ∧ length l = expansion (count_dc cube)
  else cube_to_minterms_recurr max_size fuel cube acc = Err AllocFailed.
Proof.
  induction fuel as [|fuel IH]; intros cube acc Hfuel Hlen Hknown Hacc; [lia|].
  cbn [cube_to_minterms_recurr].
  pose proof (expand_loop max_size fuel IH cube Hfuel Hlen Hknown acc
                (length cube) 0%nat false [] ltac:(lia)
                ltac:(by rewrite app_nil_r)) as Hloop.
  cbn zeta in Hloop. rewrite drop_0, !app_nil_r in Hloop.
  destruct (count_dc cube) as [|k] eqn:Hcount.
  - (* no don't-care: the cube is a minterm *)
    rewrite decide_True in Hloop by lia.
    destruct Hloop as (hd' & l' & E & Hhd & Hl & Hlen').
    rewrite E. cbn [mbind result_bind].
    assert (Forall (λ v, is_true_or_false v = true) cube) as Hfixed.
    { pose proof (count_dc_zero cube Hcount) as Hnodc.
      apply Forall_lookup. intros i v Hv.
      eapply Forall_lookup_1 in Hknown; [|exact Hv].
      eapply Forall_lookup_1 in Hnodc; [|exact Hv]. by destruct v. }
    assert (hd' = false) as ->.
    { destruct hd'; [|done]. destruct Hhd as [[?|(i & _ & Hi)] _]; [done|done|].
      apply count_dc_lookup in Hi. lia. }
    assert (l' = []) as -> by (apply nil_length_inv; simpl in Hlen'; lia).
    rewrite app_nil_r, cube_minterm_value by done. cbn [mbind result_bind].
    unfold push_back. change (expansion 0) with 1%nat.
    destruct (decide (length acc + 1 ≤ max_size)%nat) as [Hfit|Hfull].
    + destruct (Nat.ltb_spec (length acc) max_size) as [_|?]; [|lia].
      exists [cube_value cube]. split; [done|]. split; [|done].
      intros m. rewrite list_elem_of_singleton.
      by rewrite <- (covers_minterm cube m Hfixed).
    + destruct (Nat.ltb_spec (length acc) max_size) as [?|_]; [lia|done].
  - (* don't-cares: the loop has pushed the minterms *)
    replace (S k - 1)%nat with k in Hloop by lia.
    rewrite expansion_S.
    destruct (decide (length acc + S k * (2 * expansion k) ≤ max_size)%nat)
      as [Hfit|Hfull]; [|by rewrite Hloop].
    destruct Hloop as (hd' & l' & E & Hhd & Hl & Hlen').
    rewrite E. cbn [mbind result_bind].
    assert (∃ i, (0 ≤ i < 0 + length cube)%nat ∧ cube !! i = Some DONT_CARE) as Hdc.
    { destruct (decide (DONT_CARE ∈ cube)) as [Hin|Hout].
      - apply list_elem_of_lookup_1 in Hin as [i Hi]. exists i. split; [|done].
        apply lookup_lt_Some in Hi. lia.
      - apply count_dc_absent in Hout. lia. }
    assert (hd' = true) as -> by (apply Hhd; by right).
    exists l'. split; [done|]. split; [|simpl in Hlen'; lia].
    intros m. rewrite Hl.
    split; [intros [H|H]; [by apply not_elem_of_nil in H|tauto]|tauto].
Qed.

Lemma cube_to_minterms_spec max_size cube :
  (length cube ≤ 31)%nat → Forall (λ v, v ≠ UNKOWN) cube →
  if decide (expansion (count_dc cube) ≤ max_size)%nat
  then ∃ l, cube_to_minterms max_size cube = Ok l
            ∧ lists_cube cube l ∧ length l = expansion (count_dc cube)
  else cube_to_minterms max_size cube = Err AllocFailed.
Proof.
  intros Hlen Hknown. unfold cube_to_minterms.
  exact (cube_to_minterms_recurr_spec max_size (S (count_dc cube)) cube []
           ltac:(lia) Hlen Hknown ltac:(simpl; lia)).
Qed.

Lemma expansion_le j k : (j ≤ k)%nat → (expansion j ≤ expansion k)%nat.
Proof.
  induction 1 as [|k _ IH]; [done|]. rewrite expansion_S. lia.
Qed.

Lemma expansion_16 : (2 ^ 60 ≤ expansion 16)%nat.
Proof.
  unfold expansion. cbn [fact].
  apply Nat2Z.inj_le. rewrite !Nat2Z.inj_mul, !Nat2Z.inj_pow.
  change (Z.of_nat 2) with 2. change (Z.of_nat 60) with 60.
  change (Z.of_nat 16) with 16.
  cbn [Z.of_nat Pos.of_succ_nat Pos.succ]. lia.
Qed.

(** With libstdc++ and a 64-bit [size_t] a vector of [size_t] has fewer than
    [2 ^ 60] entries, fewer than the expansion of sixteen don't-cares: a cube
    with 16 or more don't-cares is never expanded. *)
Lemma cube_to_minterms_sixteen_dont_cares max_size cube :
  (max_size < 2 ^ 60)%nat →
  (length cube ≤ 31)%nat → Forall (λ v, v ≠ UNKOWN) cube →
  (16 ≤ count_dc cube)%nat →
  cube_to_minterms max_size cube = Err AllocFailed.
Proof.
  intros Hmax Hlen Hknown Hdc.
  pose proof (cube_to_minterms_spec max_size cube Hlen Hknown) as Hspec.
  pose proof (expansion_le 16 (count_dc cube) Hdc) as Hle.
  pose proof expansion_16 as H16.
  rewrite decide_False in Hspec by lia. done.
Qed.

(** A cube with an [UNKOWN] value stops in the assertion of the first loop,
    at the value itself or below a don't-care in front of it, before anything
    is pushed. *)
Lemma expand_loop_unknown max_size fuel' cube
    (IH : ∀ cube' acc,
       (count_dc cube' < fuel')%nat → UNKOWN ∈ cube' →
       cube_to_minterms_recurr max_size fuel' cube' acc
       = Err (AssertionFailed "cube[i] == TRUE || cube[i] == FALSE")) :
  (count_dc cube < S fuel')%nat →
  ∀ n a st,
    (a + n = length cube)%nat →
    (∃ i, (a ≤ i)%nat ∧ cube !! i = Some UNKOWN) →
    for_each (seq a n)
      (expand_dont_care (cube_to_minterms_recurr max_size fuel') cube) st
    = Err (AssertionFailed "cube[i] == TRUE || cube[i] == FALSE").
Proof.
  intros Hfuel. induction n as [|n IHn]; intros a [hd acc] Hlen (i & Hai & Hi).
  - apply lookup_lt_Some in Hi. lia.
  - cbn [seq for_each]. unfold expand_dont_care at 2.
    destruct (lookup_lt_is_Some_2 cube a) as [v Hv]; [lia|].
    rewrite Hv.
    destruct (decide (v = DONT_CARE)) as [->|Hdc].
    + pose proof (count_dc_insert cube a TRUE Hv ltac:(discriminate)) as Ht.
      rewrite IH; [done|lia|].
      apply (list_elem_of_lookup_2 _ i). rewrite list_lookup_insert_ne; [done|].
      intros ->. congruence.
    + destruct (decide (i = a)) as [->|Hne].
      * assert (v = UNKOWN) as -> by congruence. done.
      * destruct v; try done; cbn [is_true_or_false VTR_ASSERT mbind result_bind];
          apply IHn; try lia; exists i; (split; [lia|done]).
Qed.

Lemma cube_to_minterms_recurr_unknown max_size : ∀ fuel cube acc,
  (count_dc cube < fuel)%nat → UNKOWN ∈ cube →
  cube_to_minterms_recurr max_size fuel cube acc
  = Err (AssertionFailed "cube[i] == TRUE || cube[i] == FALSE").
Proof.
  induction fuel as [|fuel IH]; intros cube acc Hfuel Hin; [lia|].
  cbn [cube_to_minterms_recurr].
  apply list_elem_of_lookup_1 in Hin as [i Hi].
  rewrite (expand_loop_unknown max_size fuel cube IH Hfuel); [done|lia|].
  exists i. split; [lia|done].
Qed.

(** *** Marking the mask *)

Lemma mark_minterms (val : LogicValue) : ∀ minterms mask,
  (∀ m, m ∈ minterms → 0 ≤ m < Z.of_nat (length mask)) →
  ∃ mask',
    for_each minterms
      (λ mask minterm,
         _ ← VTR_ASSERT "minterm < mask.size()" (minterm <? Z.of_nat (length mask));
         Ok (<[Z.to_nat minterm := val]> mask)) mask
    = Ok mask'
    ∧ length mask' = length mask
    ∧ ∀ j, mask' !! j
           = if decide (Z.of_nat j ∈ minterms ∧ (j < length mask)%nat)
             then Some val else mask !! j.
Proof.
  induction minterms as [|m rest IH]; intros mask Hrange.
  - exists mask. split; [done|]. split; [done|]. intros j.
    destruct (decide _) as [[H _]|_]; [by apply not_elem_of_nil in H|done].
  - cbn [for_each].
    assert (0 ≤ m < Z.of_nat (length mask)) as Hm by (apply Hrange; left).
    destruct (Z.ltb_spec m (Z.of_nat (length mask))) as [_|?]; [|lia].
    cbn [VTR_ASSERT mbind result_bind].
    destruct (IH (<[Z.to_nat m := val]> mask)) as (mask' & E & Hlen & Hget).
    { intros m' Hm'. rewrite length_insert. apply Hrange. by right. }
    exists mask'. split; [exact E|]. rewrite length_insert in Hlen.
    split; [exact Hlen|]. intros j. rewrite Hget, length_insert.
    destruct (decide (Z.of_nat j ∈ rest ∧ (j < length mask)%nat)) as [[Hin Hj]|Hnot].
    + rewrite decide_True; [done|]. split; [by right|done].
    + destruct (decide (j = Z.to_nat m)) as [->|Hne].
      * rewrite list_lookup_insert_eq by lia.
        rewrite decide_True; [done|]. split; [|lia].
        rewrite Z2Nat.id by lia. left.
      * rewrite list_lookup_insert_ne by done.
        destruct (decide (Z.of_nat j ∈ m :: rest ∧ (j < length mask)%nat))
          as [[Hin Hj]|_]; [|done].
        apply elem_of_cons in Hin as [Heq|Hin]; [lia|tauto].
Qed.

Lemma well_formed_row_cube k row :
  well_formed_row k row = true →
  row ≠ [] ∧ length (row_cube row) = k ∧ Forall (λ v, v ≠ UNKOWN) (row_cube row).
Proof.
  unfold well_formed_row. intros [Hlen Hall]%andb_prop.
  apply Nat.eqb_eq in Hlen. split; [by destruct row|]. split.
  - unfold row_cube. rewrite length_take. lia.
  - apply Forall_forall. intros v Hv.
    rewrite forallb_forall in Hall. specialize (Hall v).
    rewrite <- list_elem_of_In in Hall. apply Hall in Hv.
    by apply bool_decide_eq_true in Hv.
Qed.

(** The body of the loop of [truth_table_to_lut_mask] over the rows. *)
Definition mark_row (max_size : nat) (on_set : bool) (num_inputs : nat)
    (mask : list LogicValue) (row : list LogicValue) : result (list LogicValue) :=
  (* cube(row.begin(), --row.end()) *)
  cube ← match row with
         | [] => Err OutOfBounds
         | _ => Ok (take (length row - 1) row)
         end;
  _ ← VTR_ASSERT "cube.size() == num_inputs" (length cube =? num_inputs)%nat;
  minterms ← cube_to_minterms max_size cube;
  for_each minterms
    (λ mask minterm,
       _ ← VTR_ASSERT "minterm < mask.size()" (minterm <? Z.of_nat (length mask));
       Ok (<[Z.to_nat minterm := if on_set : bool then TRUE else FALSE]> mask))
    mask.

(** The ways [truth_table_to_lut_mask] ends without a mask: the throw and
    the assertion of [truth_table_encodes_on_set], its own assertion on the
    width of a row, the assertion of [cube_to_minterms_recurr], the read
    behind the end of an empty row, and the vector of minterms that cannot
    grow. *)
Definition rejections : list vpr_error :=
  [ VprThrow "Unrecognized truth-table output value";
    AssertionFailed "Can not have an empty truth-table row";
    AssertionFailed "cube.size() == num_inputs";
    AssertionFailed "cube[i] == TRUE || cube[i] == FALSE";
    OutOfBounds;
    AllocFailed ].

(** The minterm vector of the row can be built: the [expansion] of its cube
    is a size the vector can have. *)
Definition row_fits (max_size : nat) (row : list LogicValue) : bool :=
  (expansion (count_dc (row_cube row)) <=? max_size)%nat.

Lemma mark_row_accepted (max_size : nat) (on_set : bool) (k : nat) row mask :
  (k ≤ 31)%nat → length mask = (2 ^ k)%nat →
  well_formed_row k row = true → row_fits max_size row = true →
  ∃ mask',
    mark_row max_size on_set k mask row = Ok mask'
    ∧ length mask' = (2 ^ k)%nat
    ∧ ∀ j, (j < 2 ^ k)%nat →
        mask' !! j = if cube_covers (row_cube row) (Z.of_nat j)
                     then Some (if on_set then TRUE else FALSE) else mask !! j.
Proof.
  intros Hk Hmask Hrow Hfits.
  apply well_formed_row_cube in Hrow as (Hne & Hlen & Hknown).
  unfold mark_row.
  replace (match row with [] => Err OutOfBounds | _ => Ok (take (length row - 1) row) end)
    with (Ok (row_cube row)) by by destruct row.
  cbn [mbind result_bind]. rewrite Hlen, Nat.eqb_refl.
  cbn [VTR_ASSERT mbind result_bind].
  pose proof (cube_to_minterms_spec max_size (row_cube row) ltac:(lia) Hknown) as Hl.
  apply Nat.leb_le in Hfits. rewrite decide_True in Hl by done.
  destruct Hl as (l & El & Hl & _).
  rewrite El. cbn [mbind result_bind].
  destruct (mark_minterms (if on_set then TRUE else FALSE) l mask)
    as (mask1 & E1 & Hlen1 & Hget1).
  { intros m Hm. apply Hl in Hm. rewrite Hlen in Hm.
    rewrite Hmask, Nat2Z.inj_pow. lia. }
  exists mask1. split; [exact E1|]. split; [congruence|].
  intros j Hj. rewrite Hget1.
  assert (Z.of_nat j ∈ l ↔ cube_covers (row_cube row) (Z.of_nat j) = true) as Hin.
  { rewrite (Hl (Z.of_nat j)), cube_covers_spec, Hlen.
    split; [tauto|]. intros Hc. split; [|done].
    assert (Z.of_nat j < Z.of_nat (2 ^ k)) as Hlt by lia.
    rewrite Nat2Z.inj_pow in Hlt. lia. }
  destruct (cube_covers (row_cube row) (Z.of_nat j)).
  - rewrite decide_True; [done|]. split; [by apply Hin|lia].
  - rewrite decide_False; [done|]. intros [Hc _]. apply Hin in Hc. done.
Qed.

(** A row that is not well formed, or whose minterms do not fit, ends the
    loop: in the assertion on its width, in the assertion of
    [cube_to_minterms_recurr], or in the vector that cannot grow. *)
Lemma mark_row_rejected (max_size : nat) (on_set : bool) (k : nat) row mask :
  (k ≤ 31)%nat →
  well_formed_row k row && row_fits max_size row = false →
  ∃ e, mark_row max_size on_set k mask row = Err e ∧ e ∈ rejections.
Proof.
  assert (∀ e r, r = Err e → e ∈ rejections →
            ∃ e', r = @Err (list LogicValue) e' ∧ e' ∈ rejections) as Hends
    by (intros e r -> ?; by exists e).
  intros Hk Hrej. unfold mark_row.
  destruct (decide (row = [])) as [->|Hne].
  { eapply Hends; [done|]. unfold rejections. repeat constructor. }
  replace (match row with [] => Err OutOfBounds | _ => Ok (take (length row - 1) row) end)
    with (Ok (row_cube row)) by by destruct row.
  cbn [mbind result_bind].
  destruct (Nat.eqb_spec (length (row_cube row)) k) as [Hlen|Hlen]; simpl.
  2:{ eapply Hends; [done|]. unfold rejections. repeat constructor. }
  destruct (decide (UNKOWN ∈ row_cube row)) as [Hin|Hout].
  { unfold cube_to_minterms.
    rewrite cube_to_minterms_recurr_unknown by (done || lia).
    eapply Hends; [done|]. unfold rejections. repeat constructor. }
  assert (Forall (λ v, v ≠ UNKOWN) (row_cube row)) as Hknown.
  { apply Forall_forall. intros v Hv ->. done. }
  assert (well_formed_row k row = true) as Hrow.
  { unfold well_formed_row. apply andb_true_intro. split.
    - apply Nat.eqb_eq. unfold row_cube in Hlen. rewrite length_take in Hlen.
      destruct row; [done|]. simpl in *. lia.
    - apply forallb_forall. intros v Hv. apply bool_decide_eq_true.
      rewrite <- list_elem_of_In in Hv.
      eapply Forall_forall in Hknown; eauto. }
  rewrite Hrow in Hrej. simpl in Hrej. unfold row_fits in Hrej.
  apply Nat.leb_gt in Hrej.
  pose proof (cube_to_minterms_spec max_size (row_cube row) ltac:(lia) Hknown) as Hl.
  rewrite decide_False in Hl by lia. rewrite Hl.
  eapply Hends; [done|]. unfold rejections. repeat constructor.
Qed.

Lemma mark_rows (max_size : nat) (on_set : bool) (k : nat) : ∀ rows mask,
  (k ≤ 31)%nat → length mask = (2 ^ k)%nat →
  forallb (well_formed_row k) rows = true →
  forallb (row_fits max_size) rows = true →
  ∃ mask',
    for_each rows (mark_row max_size on_set k) mask = Ok mask'
    ∧ length mask' = (2 ^ k)%nat
    ∧ ∀ j, (j < 2 ^ k)%nat →
        mask' !! j = if table_covers rows (Z.of_nat j)
                     then Some (if on_set then TRUE else FALSE) else mask !! j.
Proof.
  induction rows as [|row rest IH]; intros mask Hk Hmask Hwf Hfit.
  - exists mask. by repeat split.
  - cbn [forallb] in Hwf, Hfit.
    apply andb_prop in Hwf as [Hrow Hrest]. apply andb_prop in Hfit as [Hfits Hfit].
    cbn [for_each].
    destruct (mark_row_accepted max_size on_set k row mask Hk Hmask Hrow Hfits)
      as (mask1 & E1 & Hlen1 & Hget1).
    rewrite E1. cbn [mbind result_bind].
    destruct (IH mask1) as (mask2 & E2 & Hlen2 & Hget2); [done..|].
    exists mask2. split; [exact E2|]. split; [exact Hlen2|].
    intros j Hj. rewrite Hget2, Hget1 by done. cbn [table_covers existsb].
    fold (table_covers rest (Z.of_nat j)).
    destruct (table_covers rest (Z.of_nat j)); [by rewrite orb_true_r|].
    by rewrite orb_false_r.
Qed.

Lemma mark_rows_rejected (max_size : nat) (on_set : bool) (k : nat) : ∀ rows mask,
  (k ≤ 31)%nat → length mask = (2 ^ k)%nat →
  forallb (λ row, well_formed_row k row && row_fits max_size row) rows = false →
  ∃ e, for_each rows (mark_row max_size on_set k) mask = Err e ∧ e ∈ rejections.
Proof.
  induction rows as [|row rest IH]; intros mask Hk Hmask Hrej; [done|].
  cbn [forallb for_each] in *.
  destruct (well_formed_row k row && row_fits max_size row) eqn:Hrow.
  - apply andb_prop in Hrow as [Hwf Hfits].
    destruct (mark_row_accepted max_size on_set k row mask Hk Hmask Hwf Hfits)
      as (mask1 & E1 & Hlen1 & _).
    rewrite E1. cbn [mbind result_bind]. by apply IH.
  - destruct (mark_row_rejected max_size on_set k row mask Hk Hrow) as (e & E & He).
    rewrite E. by exists e.
Qed.

Lemma forallb_andb {A} (f g : A → bool) (l : list A) :
  forallb (λ x, f x && g x) l = forallb f l && forallb g l.
Proof.
  induction l as [|x l IH]; [done|]. cbn [forallb]. rewrite IH.
  destruct (f x), (g x), (forallb f l); done.
Qed.

Lemma truth_table_encodes_on_set_spec k truth_table :
  well_formed_table k truth_table = true →
  truth_table_encodes_on_set truth_table = Ok (first_output_is_true truth_table).
Proof.
  unfold well_formed_table. intros [Hrows Hfirst]%andb_prop.
  destruct truth_table as [|row0 rest]; [done|].
  cbn [forallb] in Hrows. apply andb_prop in Hrows as [Hrow0 _].
  unfold well_formed_row in Hrow0. apply andb_prop in Hrow0 as [Hlen _].
  apply Nat.eqb_eq in Hlen.
  cbn [truth_table_encodes_on_set first_output_is_true].
  rewrite Hlen. cbn [Nat.ltb Nat.leb VTR_ASSERT mbind result_bind].
  rewrite last_lookup in Hfirst |- *. rewrite Hlen in Hfirst |- *.
  replace (S k - 1)%nat with (Nat.pred (S k)) by lia.
  apply bool_decide_eq_true in Hfirst as [->| ->]; done.
Qed.

(** [truth_table_encodes_on_set] returns only on an empty table and on a
    first row that ends in [TRUE] or [FALSE]. *)
Lemma truth_table_encodes_on_set_returns truth_table :
  match truth_table_encodes_on_set truth_table with
  | Ok _ => match truth_table with
            | [] => True
            | row0 :: _ => last row0 = Some TRUE ∨ last row0 = Some FALSE
            end
  | Err e => e ∈ rejections
  end.
Proof.
  destruct truth_table as [|row0 rest]; [done|].
  cbn [truth_table_encodes_on_set].
  destruct (Nat.ltb_spec 0 (length row0)) as [Hpos|?];
    [|unfold rejections; simpl; repeat constructor].
  cbn [VTR_ASSERT mbind result_bind]. rewrite last_lookup.
  replace (Nat.pred (length row0)) with (length row0 - 1)%nat by lia.
  destruct (row0 !! (length row0 - 1)%nat) as [[]|]; auto;
    unfold rejections; repeat constructor.
Qed.

(** C7 (amended).  Take at most 31 inputs.  On a table that is well formed
    for [num_inputs] inputs and whose rows have minterm vectors that can be
    built, [truth_table_to_lut_mask] returns a mask of length
    [2 ^ num_inputs]; the table is read as an on-set exactly when it is empty
    or the output value of its first row is [TRUE]; under the on-set reading
    the mask is [TRUE] at the minterms covered by the input cube of some row
    and [FALSE] elsewhere, and the other way round under the off-set reading.
    On every other table the function returns no mask: it ends in one of the
    [rejections], the throw or the assertion of [truth_table_encodes_on_set],
    the assertion on the width of a row or the one on an [UNKOWN] input, the
    read behind the end of an empty row, or the minterm vector that cannot
    grow. *)
Theorem truth_table_to_lut_mask_covers (max_size : nat) (truth_table : TruthTable)
    (num_inputs : nat) :
  (num_inputs ≤ 31)%nat →
  (well_formed_table num_inputs truth_table = true →
   forallb (row_fits max_size) truth_table = true →
   ∃ mask,
     truth_table_encodes_on_set truth_table = Ok (first_output_is_true truth_table)
     ∧ truth_table_to_lut_mask max_size truth_table num_inputs = Ok mask
     ∧ length mask = (2 ^ num_inputs)%nat
     ∧ ∀ m, (m < 2 ^ num_inputs)%nat →
         mask !! m =
           Some (if Bool.eqb (first_output_is_true truth_table)
                             (table_covers truth_table (Z.of_nat m))
                 then TRUE else FALSE))
  ∧ (well_formed_table num_inputs truth_table
     && forallb (row_fits max_size) truth_table = false →
     ∃ e, truth_table_to_lut_mask max_size truth_table num_inputs = Err e
          ∧ e ∈ rejections).
Proof.
  intros Hk. split.
  - intros Hwf Hfit.
    pose proof (truth_table_encodes_on_set_spec _ _ Hwf) as Hon.
    unfold truth_table_to_lut_mask. rewrite Hon. cbn [mbind result_bind].
    set (on_set := first_output_is_true truth_table) in *.
    apply andb_prop in Hwf as [Hrows _].
    destruct (mark_rows max_size on_set num_inputs truth_table
                (replicate (2 ^ num_inputs) (if on_set then FALSE else TRUE)))
      as (mask & E & Hlen & Hget); [done|by rewrite length_replicate|done|done|].
    exists mask. split; [done|]. split; [exact E|]. split; [exact Hlen|].
    intros m Hm. rewrite Hget by done.
    rewrite lookup_replicate_2 by done.
    by destruct on_set, (table_covers truth_table (Z.of_nat m)).
  - intros Hrej.
    pose proof (truth_table_encodes_on_set_returns truth_table) as Hon.
    unfold truth_table_to_lut_mask.
    destruct (truth_table_encodes_on_set truth_table) as [on_set|e];
      [|by exists e].
    cbn [mbind result_bind].
    apply (mark_rows_rejected max_size on_set num_inputs); [done|
      by rewrite length_replicate|].
    rewrite forallb_andb. unfold well_formed_table in Hrej.
    destruct truth_table as [|row0 rest]; [done|].
    rewrite bool_decide_eq_true_2, andb_true_r in Hrej by done. done.
Qed.

(** The theorem at the table [- 1 / 0] of two inputs, an off-set: with room
    for the two minterms of its row the mask is returned, with room for one
    it is not. *)
Lemma truth_table_to_lut_mask_covers_witness :
  (∃ mask,
     truth_table_encodes_on_set [[DONT_CARE; TRUE; FALSE]] = Ok false
     ∧ truth_table_to_lut_mask 8 [[DONT_CARE; TRUE; FALSE]] 2 = Ok mask
     ∧ length mask = 4%nat
     ∧ ∀ m, (m < 4)%nat →
         mask !! m =
           Some (if Bool.eqb false (table_covers [[DONT_CARE; TRUE; FALSE]] (Z.of_nat m))
                 then TRUE else FALSE))
  ∧ (∃ e, truth_table_to_lut_mask 1 [[DONT_CARE; TRUE; FALSE]] 2 = Err e
          ∧ e ∈ rejections).
Proof.
  split.
  - apply (truth_table_to_lut_mask_covers 8 [[DONT_CARE; TRUE; FALSE]] 2).
    + lia.
    + reflexivity.
    + reflexivity.
  - apply (truth_table_to_lut_mask_covers 1 [[DONT_CARE; TRUE; FALSE]] 2).
    + lia.
    + reflexivity.
Defined.

(** C7 as stated fails on tables the function rejects: an output value of
    the first row that is neither [TRUE] nor [FALSE] is thrown, a row of the
    wrong width or an [UNKOWN] input stops in an assertion, a row with more
    minterms than the vector can take ends there, and no mask is returned. *)
Lemma truth_table_to_lut_mask_rejects :
  truth_table_to_lut_mask 8 [[TRUE; DONT_CARE]] 1
    = Err (VprThrow "Unrecognized truth-table output value")
  ∧ truth_table_to_lut_mask 8 [[UNKOWN; TRUE]] 1
    = Err (AssertionFailed "cube[i] == TRUE || cube[i] == FALSE")
  ∧ truth_table_to_lut_mask 8 [[TRUE; TRUE]] 2
    = Err (AssertionFailed "cube.size() == num_inputs")
  ∧ truth_table_to_lut_mask 47 [[DONT_CARE; DONT_CARE; DONT_CARE; TRUE]] 3
    = Err AllocFailed
  ∧ ¬ (∀ (t : TruthTable) (k : nat),
         ∃ mask, truth_table_to_lut_mask 8 t k = Ok mask
                 ∧ length mask = (2 ^ k)%nat).
Proof.
  repeat split; try reflexivity.
  intros H. destruct (H [[TRUE; DONT_CARE]] 1%nat) as (mask & E & _).
  discriminate E.
Qed.

(** *** The minterms [cube_to_minterms] lists, and how often *)

(** X1.  For a cube of at most 31 inputs, none of them [UNKOWN], whose
    expansion fits the vector, [cube_to_minterms] returns a list that holds
    exactly the minterms the cube covers: the numbers below [2 ^ length cube]
    whose bit [i] is 1 where the cube has [TRUE], 0 where it has [FALSE], and
    free at a don't-care. *)
Theorem cube_to_minterms_lists_covered (max_size : nat) (cube : list LogicValue) :
  (length cube ≤ 31)%nat → Forall (λ v, v ≠ UNKOWN) cube →
  (2 ^ count_dc cube * fact (count_dc cube) ≤ max_size)%nat →
  ∃ l, cube_to_minterms max_size cube = Ok l
       ∧ ∀ m, m ∈ l ↔ 0 ≤ m < 2 ^ Z.of_nat (length cube) ∧ cube_covers cube m = true.
Proof.
  intros Hlen Hknown Hfit.
  pose proof (cube_to_minterms_spec max_size cube Hlen Hknown) as Hspec.
  rewrite decide_True in Hspec by done.
  destruct Hspec as (l & E & Hl & _).
  exists l. split; [done|]. intros m. rewrite (Hl m), cube_covers_spec. done.
Qed.

Lemma cube_to_minterms_lists_covered_witness :
  ∃ l, cube_to_minterms 8 [TRUE; DONT_CARE; FALSE] = Ok l
       ∧ ∀ m, m ∈ l ↔ 0 ≤ m < 2 ^ Z.of_nat 3
                       ∧ cube_covers [TRUE; DONT_CARE; FALSE] m = true.
Proof.
  apply (cube_to_minterms_lists_covered 8 [TRUE; DONT_CARE; FALSE]).
  - simpl. lia.
  - repeat constructor; discriminate.
  - vm_compute. lia.
Defined.

(** X2.  Take a cube of at most 31 inputs, none of them [UNKOWN], with [k]
    don't-cares.  The expansion goes on at every don't-care of the cube, so
    it pushes the [2 ^ k] minterms [k!] times over: where a vector of
    [2 ^ k * k!] entries can be built, [cube_to_minterms] returns a list of
    that length; where it cannot, the function ends in the vector that cannot
    grow and returns no list. *)
Theorem cube_to_minterms_length (max_size : nat) (cube : list LogicValue) :
  (length cube ≤ 31)%nat → Forall (λ v, v ≠ UNKOWN) cube →
  ((2 ^ count_dc cube * fact (count_dc cube) ≤ max_size)%nat →
   ∃ l, cube_to_minterms max_size cube = Ok l
        ∧ length l = (2 ^ count_dc cube * fact (count_dc cube))%nat)
  ∧ ((max_size < 2 ^ count_dc cube * fact (count_dc cube))%nat →
     cube_to_minterms max_size cube = Err AllocFailed).
Proof.
  intros Hlen Hknown.
  pose proof (cube_to_minterms_spec max_size cube Hlen Hknown) as Hspec.
  split.
  - intros Hfit. rewrite decide_True in Hspec by done.
    destruct Hspec as (l & E & _ & Hl). by exists l.
  - intros Hfull. rewrite decide_False in Hspec by (unfold expansion; lia). done.
Qed.

Lemma cube_to_minterms_length_witness :
  (∃ l, cube_to_minterms 48 [DONT_CARE; TRUE; DONT_CARE; DONT_CARE] = Ok l
        ∧ length l = 48%nat)
  ∧ cube_to_minterms 47 [DONT_CARE; TRUE; DONT_CARE; DONT_CARE] = Err AllocFailed.
Proof.
  split.
  - apply (cube_to_minterms_length 48 [DONT_CARE; TRUE; DONT_CARE; DONT_CARE]).
    + simpl. lia.
    + repeat constructor; discriminate.
    + vm_compute. lia.
  - apply (cube_to_minterms_length 47 [DONT_CARE; TRUE; DONT_CARE; DONT_CARE]).
    + simpl. lia.
    + repeat constructor; discriminate.
    + vm_compute. lia.
Defined.

(** X3.  A cube with an [UNKOWN] value has no minterms: [cube_to_minterms]
    stops in its assertion, whatever else the cube holds and whatever the
    vector can take. *)
Theorem cube_to_minterms_rejects_unknown (max_size : nat) (cube : list LogicValue) :
  UNKOWN ∈ cube →
  cube_to_minterms max_size cube
  = Err (AssertionFailed "cube[i] == TRUE || cube[i] == FALSE").
Proof.
  intros Hin. unfold cube_to_minterms.
  apply cube_to_minterms_recurr_unknown; [lia|done].
Qed.

Lemma cube_to_minterms_rejects_unknown_witness :
  cube_to_minterms 0 [DONT_CARE; TRUE; UNKOWN]
  = Err (AssertionFailed "cube[i] == TRUE || cube[i] == FALSE").
Proof.
  apply (cube_to_minterms_rejects_unknown 0 [DONT_CARE; TRUE; UNKOWN]).
  right. right. left.
Defined.

(** *** Widening and permuting a table *)

(** [v[i]] of a [std::vector], read and written; an index outside the vector
    is undefined behaviour. *)
Definition at_index {A} (v : list A) (i : nat) : result A :=
  match v !! i with
  | Some x => Ok x
  | None => Err OutOfBounds
  end.

Definition set_index {A} (v : list A) (i : nat) (x : A) : result (list A) :=
  if (i <? length v)%nat then Ok (<[i := x]> v) else Err OutOfBounds.

(** The same with an [int] index: a negative one converts to a [size_t] past
    every vector. *)
Definition set_index_int {A} (v : list A) (i : Z) (x : A) : result (list A) :=
  if i <? 0 then Err OutOfBounds else set_index v (Z.to_nat i) x.

(** The body of the loop of [expand_truth_table] for one row.  On an empty
    row [row.size() - 1] wraps around and the first round reads [row[0]]. *)
Definition expand_row (num_inputs : nat) (row : list LogicValue)
    : result (list LogicValue) :=
  let expanded_row := replicate (num_inputs + 1) FALSE in
  match row with
  | [] => Err OutOfBounds
  | _ =>
      expanded_row ← for_each (seq 0 (length row - 1))
        (λ expanded_row i, v ← at_index row i; set_index expanded_row i v)
        expanded_row;
      v ← at_index row (length row - 1);
      set_index expanded_row (length expanded_row - 1) v
  end.

Definition expand_truth_table (truth_table : TruthTable) (num_inputs : nat)
    : result TruthTable :=
  for_each truth_table
    (λ expanded_truth_table row,
       expanded_row ← expand_row num_inputs row;
       Ok (expanded_truth_table ++ [expanded_row])) [].

(** The body of the loop of [permute_truth_table] for one row. *)
Definition permute_row (num_inputs : nat) (permutation : list Z)
    (row : list LogicValue) : result (list LogicValue) :=
  let permuted_row := replicate (num_inputs + 1) FALSE in
  match row with
  | [] => Err OutOfBounds
  | _ =>
      permuted_row ← for_each (seq 0 (length row - 1))
        (λ permuted_row i,
           permuted_idx ← at_index permutation i;
           v ← at_index row i;
           set_index_int permuted_row permuted_idx v)
        permuted_row;
      v ← at_index row (length row - 1);
      set_index permuted_row (length permuted_row - 1) v
  end.

Definition permute_truth_table (truth_table : TruthTable) (num_inputs : nat)
    (permutation : list Z) : result TruthTable :=
  for_each truth_table
    (λ permuted_truth_table row,
       permuted_row ← permute_row num_inputs permutation row;
       Ok (permuted_truth_table ++ [permuted_row])) [].

(** A row widened to [n] inputs: its inputs, padded with [FALSE] or cut to
    [n] values, and its output. *)
Definition widened (n : nat) (row : list LogicValue) : list LogicValue :=
  take n (row_cube row ++ replicate n FALSE) ++ [default FALSE (last row)].

(** A loop that copies [row[i]] to slot [g i] of a vector of [n1] slots, for
    [i] below [k], when [g] sends different indices to different slots. *)
Lemma scatter_loop {A} (row : list A) (k n1 : nat) (g : nat → nat)
    (body : list A → nat → result (list A)) :
  (k ≤ length row)%nat →
  (∀ i, (i < k)%nat → (g i < n1)%nat) →
  (∀ i i', (i < k)%nat → (i' < k)%nat → g i = g i' → i = i') →
  (∀ R i v, length R = n1 → (i < k)%nat → row !! i = Some v →
     body R i = Ok (<[g i := v]> R)) →
  ∀ c a R, (a + c ≤ k)%nat → length R = n1 →
    ∃ R', for_each (seq a c) body R = Ok R' ∧ length R' = n1
      ∧ (∀ i, (a ≤ i < a + c)%nat → R' !! g i = row !! i)
      ∧ (∀ j, (∀ i, (a ≤ i < a + c)%nat → g i ≠ j) → R' !! j = R !! j).
Proof.
  intros Hk Hrange Hinj Hbody.
  induction c as [|c IH]; intros a R Hac HR.
  - exists R. split; [done|]. split; [done|]. split; [intros i ?; lia|done].
  - cbn [seq for_each].
    destruct (lookup_lt_is_Some_2 row a) as [v Hv]; [lia|].
    rewrite (Hbody R a v) by (done || lia). cbn [mbind result_bind].
    destruct (IH (S a) (<[g a := v]> R)) as (R' & E & HR' & Hhit & Hmiss);
      [lia|by rewrite length_insert|].
    exists R'. split; [done|]. split; [done|]. split.
    + intros i Hi. destruct (decide (i = a)) as [->|Hne]; [|apply Hhit; lia].
      rewrite Hmiss.
      * rewrite Hv. apply list_lookup_insert_eq. rewrite HR. apply Hrange. lia.
      * intros i Hi' Hg. apply Hinj in Hg; lia.
    + intros j Hj. rewrite Hmiss by (intros i Hi; apply Hj; lia).
      apply list_lookup_insert_ne, Hj. lia.
Qed.

Lemma length_row_cube row : length (row_cube row) = (length row - 1)%nat.
Proof. unfold row_cube. rewrite length_take. lia. Qed.

Lemma length_widened n row : length (widened n row) = S n.
Proof.
  unfold widened. rewrite length_app, length_take, length_app, length_replicate.
  simpl. lia.
Qed.

Lemma expand_row_widened n row :
  (1 ≤ length row ≤ n + 2)%nat → expand_row n row = Ok (widened n row).
Proof.
  intros Hlen. unfold expand_row.
  destruct row as [|v0 rest] eqn:Hrow; [simpl in Hlen; lia|]. rewrite <- Hrow in *.
  clear Hrow v0 rest.
  destruct (scatter_loop row (length row - 1) (n + 1) (λ i, i)
              (λ expanded_row i, v ← at_index row i; set_index expanded_row i v))
    with (c := (length row - 1)%nat) (a := 0%nat) (R := replicate (n + 1) FALSE)
    as (R' & E & HR' & Hhit & Hmiss).
  - lia.
  - intros i Hi. lia.
  - done.
  - intros R i v HR Hi Hv. unfold at_index, set_index. rewrite Hv.
    cbn [mbind result_bind]. destruct (Nat.ltb_spec i (length R)); [done|lia].
  - lia.
  - apply length_replicate.
  - rewrite E. cbn [mbind result_bind].
    destruct (lookup_lt_is_Some_2 row (length row - 1)) as [out Hout]; [lia|].
    unfold at_index. rewrite Hout. cbn [mbind result_bind].
    unfold set_index. rewrite HR'.
    destruct (Nat.ltb_spec (n + 1 - 1) (n + 1)) as [_|?]; [|lia].
    f_equal. replace (n + 1 - 1)%nat with n by lia.
    assert (last row = Some out) as Hlast.
    { rewrite last_lookup. by replace (Init.Nat.pred (length row))
                                 with (length row - 1)%nat by lia. }
    apply list_eq. intros j. unfold widened. rewrite Hlast. cbn [default].
    assert (length (take n (row_cube row ++ replicate n FALSE)) = n) as Hn.
    { rewrite length_take, length_app, length_replicate. lia. }
    destruct (decide (j = n)) as [->|Hjn].
    + rewrite list_lookup_insert_eq by lia. symmetry.
      by apply list_lookup_middle.
    + rewrite list_lookup_insert_ne by done.
      destruct (decide (j < n)%nat) as [Hlt|Hge].
      * rewrite lookup_app_l by lia. rewrite lookup_take_lt by done.
        destruct (decide (j < length row - 1)%nat) as [Hin|Hout'].
        -- rewrite (Hhit j) by lia.
           rewrite lookup_app_l by (rewrite length_row_cube; lia).
           unfold row_cube. by rewrite lookup_take_lt.
        -- rewrite Hmiss by (intros i Hi; lia).
           rewrite lookup_app_r by (rewrite length_row_cube; lia).
           rewrite !lookup_replicate_2; [done| |lia].
           rewrite length_row_cube. lia.
      * rewrite !(proj2 (lookup_ge_None _ _)); [done| |lia].
        rewrite length_app, Hn. simpl. lia.
Qed.

(** A row with more than [n + 1] inputs does not fit: round [n + 1] of the
    loop writes past the end of the new row. *)
Lemma expand_row_too_long n row :
  (n + 2 < length row)%nat → expand_row n row = Err OutOfBounds.
Proof.
  intros Hlen. unfold expand_row.
  destruct row as [|v0 rest] eqn:Hrow; [done|]. rewrite <- Hrow in *.
  clear Hrow v0 rest.
  replace (length row - 1)%nat with ((n + 1) + S (length row - 1 - (n + 2)))%nat by lia.
  rewrite seq_app, for_each_app.
  destruct (scatter_loop row (n + 1) (n + 1) (λ i, i)
              (λ expanded_row i, v ← at_index row i; set_index expanded_row i v))
    with (c := (n + 1)%nat) (a := 0%nat) (R := replicate (n + 1) FALSE)
    as (R' & E & HR' & _).
  - lia.
  - intros i Hi. lia.
  - done.
  - intros R i v HR Hi Hv. unfold at_index, set_index. rewrite Hv.
    cbn [mbind result_bind]. destruct (Nat.ltb_spec i (length R)); [done|lia].
  - lia.
  - apply length_replicate.
  - rewrite E. rewrite Nat.add_0_l. cbn [mbind result_bind seq for_each].
    destruct (lookup_lt_is_Some_2 row (n + 1)) as [v Hv]; [lia|].
    unfold at_index, set_index. rewrite Hv. cbn [mbind result_bind]. rewrite HR'.
    destruct (Nat.ltb_spec (n + 1) (n + 1)) as [?|_]; [lia|]. done.
Qed.

Lemma expand_rows n : ∀ rows acc,
  Forall (λ row, (1 ≤ length row ≤ n + 2)%nat) rows →
  for_each rows
    (λ expanded_truth_table row,
       expanded_row ← expand_row n row;
       Ok (expanded_truth_table ++ [expanded_row])) acc
  = Ok (acc ++ (widened n <$> rows)).
Proof.
  induction rows as [|row rows IH]; intros acc Hall.
  - simpl. by rewrite app_nil_r.
  - apply Forall_cons in Hall as [Hrow Hall]. cbn [for_each].
    rewrite expand_row_widened by done. cbn [mbind result_bind].
    rewrite IH by done. by rewrite <- (assoc_L (++)).
Qed.

Lemma expand_rows_fail n : ∀ rows acc,
  Exists (λ row, row = [] ∨ (n + 2 < length row)%nat) rows →
  for_each rows
    (λ expanded_truth_table row,
       expanded_row ← expand_row n row;
       Ok (expanded_truth_table ++ [expanded_row])) acc
  = Err OutOfBounds.
Proof.
  induction rows as [|row rows IH]; intros acc Hex.
  - by apply Exists_nil in Hex.
  - cbn [for_each].
    destruct (decide (1 ≤ length row ≤ n + 2)%nat) as [Hok|Hbad].
    + rewrite expand_row_widened by done. cbn [mbind result_bind].
      apply IH. apply Exists_cons in Hex as [[->|Hlong]|Hex]; [simpl in Hok; lia|lia|done].
    + destruct row as [|v0 rest] eqn:Hrow; [done|]. rewrite <- Hrow in *.
      rewrite expand_row_too_long; [done|]. rewrite Hrow in *. simpl in *. lia.
Qed.

(** X4.  [expand_truth_table] turns every row of one to [n + 2] values into
    a row of [n] inputs and the output: the inputs of the row, padded with
    [FALSE] when they are fewer than [n], and the output of the row.  A row
    with [n + 1] inputs is accepted as well and loses its last input. *)
Theorem expand_truth_table_widens (truth_table : TruthTable) (num_inputs : nat) :
  Forall (λ row, (1 ≤ length row ≤ num_inputs + 2)%nat) truth_table →
  expand_truth_table truth_table num_inputs = Ok (widened num_inputs <$> truth_table).
Proof. intros Hall. unfold expand_truth_table. by rewrite expand_rows. Qed.

Lemma expand_truth_table_widens_witness :
  expand_truth_table [[TRUE; TRUE]; [DONT_CARE; FALSE; TRUE]; [TRUE; FALSE; TRUE; FALSE]] 2
  = Ok [[TRUE; FALSE; TRUE]; [DONT_CARE; FALSE; TRUE]; [TRUE; FALSE; FALSE]].
Proof.
  apply (expand_truth_table_widens
           [[TRUE; TRUE]; [DONT_CARE; FALSE; TRUE]; [TRUE; FALSE; TRUE; FALSE]] 2).
  repeat constructor; simpl; lia.
Defined.

(** X5.  An empty row, or a row with more than [n + 1] inputs, makes
    [expand_truth_table] index a vector outside its range. *)
Theorem expand_truth_table_out_of_range (truth_table : TruthTable) (num_inputs : nat) :
  Exists (λ row, row = [] ∨ (num_inputs + 2 < length row)%nat) truth_table →
  expand_truth_table truth_table num_inputs = Err OutOfBounds.
Proof. intros Hex. unfold expand_truth_table. by apply expand_rows_fail. Qed.

Lemma expand_truth_table_out_of_range_witness :
  expand_truth_table [[TRUE; TRUE]; [TRUE; FALSE; TRUE; FALSE]] 1 = Err OutOfBounds.
Proof.
  apply (expand_truth_table_out_of_range [[TRUE; TRUE]; [TRUE; FALSE; TRUE; FALSE]] 1).
  right. left. right. simpl. lia.
Defined.

(** The added inputs of a widened cube are [FALSE]. *)
Lemma row_cube_widened n row :
  (1 ≤ length row ≤ n + 1)%nat →
  row_cube (widened n row)
  = row_cube row ++ replicate (n - (length row - 1)) FALSE.
Proof.
  intros Hlen. unfold row_cube at 1. rewrite length_widened.
  replace (S n - 1)%nat with n by lia. unfold widened.
  rewrite take_app_length'
    by (rewrite length_take, length_app, length_replicate; lia).
  rewrite take_app_ge by (rewrite length_row_cube; lia).
  rewrite length_row_cube, take_replicate. do 2 f_equal. lia.
Qed.

Lemma cube_covers_padded cube j m :
  cube_covers (cube ++ replicate j FALSE) m
  = cube_covers cube m
    && forallb (λ i, negb (Z.testbit m (Z.of_nat i))) (seq (length cube) j).
Proof.
  apply eq_true_iff_eq.
  rewrite andb_true_iff, !cube_covers_spec, forallb_forall. unfold covers. split.
  - intros H. split.
    + intros i v Hv. apply H. by apply lookup_app_l_Some.
    + intros i [Hi1 Hi2]%in_seq.
      specialize (H i FALSE). simpl in H. apply H.
      rewrite lookup_app_r by lia. apply lookup_replicate_2. lia.
  - intros [H1 H2] i v [Hv|[Hi Hv]]%lookup_app_Some; [by apply H1|].
    apply lookup_replicate in Hv as [-> Hv]. simpl. apply H2, in_seq. lia.
Qed.

Lemma last_widened n row : row ≠ [] → last (widened n row) = last row.
Proof.
  intros Hrow. unfold widened. rewrite last_snoc.
  destruct (last row) as [out|] eqn:E; [done|].
  by apply last_None in E.
Qed.

(** X6.  Widening a table of [k]-input rows to [n ≥ k] inputs keeps the
    output value of every row, and the widened table covers a minterm exactly
    when the table covers it and the bits of the added inputs [k .. n - 1] are
    all 0: the new inputs are required to be false, they are not don't-cares. *)
Theorem expand_truth_table_covers (truth_table : TruthTable) (k num_inputs : nat) :
  (k ≤ num_inputs)%nat →
  Forall (λ row, length row = S k) truth_table →
  ∃ expanded,
    expand_truth_table truth_table num_inputs = Ok expanded
    ∧ Forall (λ row, length row = S num_inputs) expanded
    ∧ last <$> expanded = last <$> truth_table
    ∧ ∀ m, table_covers expanded m
           = table_covers truth_table m
             && forallb (λ i, negb (Z.testbit m (Z.of_nat i))) (seq k (num_inputs - k)).
Proof.
  intros Hk Hall. exists (widened num_inputs <$> truth_table). split; [|split; [|split]].
  - unfold expand_truth_table. rewrite expand_rows; [done|].
    eapply Forall_impl; [exact Hall|]. intros row Hrow. simpl in Hrow. lia.
  - apply Forall_fmap, Forall_forall. intros row _. apply length_widened.
  - induction Hall as [|row rows Hrow _ IH]; [done|]. cbn [fmap list_fmap].
    f_equal; [|exact IH]. apply last_widened. by destruct row.
  - intros m. unfold table_covers.
    induction Hall as [|row rows Hrow _ IH]; [done|]. cbn [fmap list_fmap existsb].
    rewrite IH, row_cube_widened, cube_covers_padded, length_row_cube by lia.
    rewrite Hrow. replace (S k - 1)%nat with k by lia.
    by destruct (cube_covers (row_cube row) m), (existsb _ rows), (forallb _ _).
Qed.

Lemma expand_truth_table_covers_witness :
  ∃ expanded,
    expand_truth_table [[TRUE; TRUE]; [FALSE; TRUE]] 2 = Ok expanded
    ∧ Forall (λ row, length row = 3%nat) expanded
    ∧ last <$> expanded = last <$> [[TRUE; TRUE]; [FALSE; TRUE]]
    ∧ ∀ m, table_covers expanded m
           = table_covers [[TRUE; TRUE]; [FALSE; TRUE]] m
             && forallb (λ i, negb (Z.testbit m (Z.of_nat i))) (seq 1 (2 - 1)).
Proof.
  apply (expand_truth_table_covers [[TRUE; TRUE]; [FALSE; TRUE]] 1 2).
  - lia.
  - repeat constructor.
Defined.

(** *** Permuting the inputs *)

(** The slot [permutation[i]] as a [size_t]. *)
Definition slot (p : list Z) (i : nat) : nat := Z.to_nat (default 0 (p !! i)).

(** The first [n] entries of [p] are different slots below [n]. *)
Definition places (p : list Z) (n : nat) : Prop :=
  ∀ i, (i < n)%nat →
    ∃ x, p !! i = Some (Z.of_nat x) ∧ (x < n)%nat
         ∧ ∀ i', (i' < n)%nat → p !! i' = Some (Z.of_nat x) → i' = i.

Lemma slot_places p i x : p !! i = Some (Z.of_nat x) → slot p i = x.
Proof. intros Hp. unfold slot. rewrite Hp. simpl. lia. Qed.

Lemma permute_row_places n p row :
  places p n → length row = S n →
  ∃ row', permute_row n p row = Ok row' ∧ length row' = S n
    ∧ (∀ i, (i < n)%nat → row' !! slot p i = row !! i)
    ∧ row' !! n = row !! n.
Proof.
  intros Hp Hlen. unfold permute_row.
  destruct row as [|v0 rest] eqn:Hrow; [done|]. rewrite <- Hrow in *.
  clear Hrow v0 rest. rewrite Hlen. replace (S n - 1)%nat with n by lia.
  destruct (scatter_loop row n (n + 1) (slot p)
              (λ permuted_row i,
                 permuted_idx ← at_index p i;
                 v ← at_index row i;
                 set_index_int permuted_row permuted_idx v))
    with (c := n) (a := 0%nat) (R := replicate (n + 1) FALSE)
    as (R' & E & HR' & Hhit & Hmiss).
  - lia.
  - intros i Hi. destruct (Hp i Hi) as (x & Hx & Hlt & _).
    rewrite (slot_places _ _ _ Hx). lia.
  - intros i i' Hi Hi' Hg.
    destruct (Hp i Hi) as (x & Hx & _ & Hinj).
    destruct (Hp i' Hi') as (x' & Hx' & _ & _).
    rewrite (slot_places _ _ _ Hx), (slot_places _ _ _ Hx') in Hg. subst x'.
    symmetry. by apply Hinj.
  - intros R i v HR Hi Hv. destruct (Hp i Hi) as (x & Hx & Hlt & _).
    unfold at_index, set_index_int, set_index. rewrite Hx, Hv.
    cbn [mbind result_bind].
    destruct (Z.ltb_spec (Z.of_nat x) 0) as [?|_]; [lia|].
    rewrite Nat2Z.id, (slot_places _ _ _ Hx).
    destruct (Nat.ltb_spec x (length R)); [done|lia].
  - lia.
  - apply length_replicate.
  - rewrite E. cbn [mbind result_bind].
    destruct (lookup_lt_is_Some_2 row n) as [out Hout]; [lia|].
    unfold at_index, set_index. rewrite Hout. cbn [mbind result_bind]. rewrite HR'.
    replace (n + 1 - 1)%nat with n by lia.
    destruct (Nat.ltb_spec n (n + 1)) as [_|?]; [|lia].
    eexists. split; [reflexivity|]. split; [rewrite length_insert; lia|]. split.
    + intros i Hi. destruct (Hp i Hi) as (x & Hx & Hlt & _).
      rewrite list_lookup_insert_ne
        by (rewrite (slot_places _ _ _ Hx); lia).
      apply Hhit. lia.
    + apply list_lookup_insert_eq. lia.
Qed.

(** A permutation of [0 .. n - 1] places its entries, and reaches every
    slot. *)
Lemma permutation_places (p : list Z) (n : nat) :
  p ≡ₚ Z.of_nat <$> seq 0 n → places p n.
Proof.
  intros Hperm i Hi.
  assert (length p = n) as Hlen
    by (rewrite Hperm, length_fmap; apply length_seq).
  destruct (lookup_lt_is_Some_2 p i) as [z Hz]; [lia|].
  assert (z ∈ Z.of_nat <$> seq 0 n) as Hin.
  { rewrite <- Hperm. by eapply list_elem_of_lookup_2. }
  apply list_elem_of_fmap in Hin as (x & -> & Hx). apply elem_of_seq in Hx.
  exists x. split; [done|]. split; [lia|].
  intros i' Hi' Hz'.
  assert (NoDup p) as Hnd.
  { rewrite Hperm. apply NoDup_fmap_2; [|apply NoDup_seq].
    intros a b. apply Nat2Z.inj. }
  by eapply NoDup_lookup.
Qed.

Lemma permutation_reaches (p : list Z) (n j : nat) :
  p ≡ₚ Z.of_nat <$> seq 0 n → (j < n)%nat →
  ∃ i, (i < n)%nat ∧ p !! i = Some (Z.of_nat j).
Proof.
  intros Hperm Hj.
  assert (length p = n) as Hlen
    by (rewrite Hperm, length_fmap; apply length_seq).
  assert (Z.of_nat j ∈ p) as Hin.
  { rewrite Hperm. apply list_elem_of_fmap. exists j. split; [done|].
    apply elem_of_seq. lia. }
  apply list_elem_of_lookup_1 in Hin as [i Hi]. exists i. split; [|done].
  apply lookup_lt_Some in Hi. lia.
Qed.

Lemma permute_rows n p : ∀ rows acc,
  places p n → Forall (λ row, length row = S n) rows →
  ∃ rows',
    for_each rows
      (λ permuted_truth_table row,
         permuted_row ← permute_row n p row;
         Ok (permuted_truth_table ++ [permuted_row])) acc
    = Ok (acc ++ rows')
    ∧ Forall2 (λ row row', permute_row n p row = Ok row') rows rows'.
Proof.
  intros rows acc Hp. revert acc.
  induction rows as [|row rows IH]; intros acc Hall.
  - exists []. split; [simpl; by rewrite app_nil_r|constructor].
  - apply Forall_cons in Hall as [Hrow Hall]. cbn [for_each].
    destruct (permute_row_places n p row Hp Hrow) as (row' & E & _).
    rewrite E. cbn [mbind result_bind].
    destruct (IH (acc ++ [row']) Hall) as (rows' & E' & Hrows).
    exists (row' :: rows'). split; [|by constructor].
    rewrite E'. by rewrite <- (assoc_L (++)).
Qed.

Lemma permute_row_shape (n : nat) (p : list Z) row row' :
  places p n → length row = S n → permute_row n p row = Ok row' →
  length row' = S n ∧ last row' = last row.
Proof.
  intros Hp Hlen E.
  destruct (permute_row_places n p row Hp Hlen) as (row'' & E' & Hlen' & _ & Hout).
  assert (row'' = row') as -> by congruence.
  split; [done|]. rewrite !last_lookup, Hlen, Hlen'. exact Hout.
Qed.

Lemma permute_row_covers (n : nat) (p : list Z) row row' m m' :
  p ≡ₚ Z.of_nat <$> seq 0 n → length row = S n →
  permute_row n p row = Ok row' →
  (∀ i x, p !! i = Some x → Z.testbit m' x = Z.testbit m (Z.of_nat i)) →
  cube_covers (row_cube row') m' = cube_covers (row_cube row) m.
Proof.
  intros Hperm Hlen E Hbits.
  pose proof (permutation_places p n Hperm) as Hp.
  destruct (permute_row_places n p row Hp Hlen) as (row'' & E' & Hlen' & Hin & Hout).
  assert (row'' = row') as -> by congruence.
  apply eq_true_iff_eq. rewrite !cube_covers_spec. unfold covers, row_cube.
  rewrite Hlen, Hlen'. replace (S n - 1)%nat with n by lia. split.
  - intros H i v [Hv Hi]%lookup_take_Some.
    destruct (Hp i Hi) as (x & Hx & Hlt & _).
    rewrite <- (Hbits i _ Hx). apply H. apply lookup_take_Some. split; [|done].
    rewrite <- (slot_places _ _ _ Hx). by rewrite Hin.
  - intros H j v [Hv Hj]%lookup_take_Some.
    destruct (permutation_reaches p n j Hperm Hj) as (i & Hi & Hx).
    rewrite (Hbits i _ Hx). apply H. apply lookup_take_Some. split; [|done].
    rewrite <- Hin by done. by rewrite (slot_places _ _ _ Hx).
Qed.

(** X7.  With a permutation [p] of [0 .. n - 1], [permute_truth_table] moves
    input [i] of every row to input [p[i]] and keeps the output: the permuted
    table covers [m'] exactly when the table covers the minterm [m] whose bit
    [i] is bit [p[i]] of [m']. *)
Theorem permute_truth_table_covers (truth_table : TruthTable) (num_inputs : nat)
    (permutation : list Z) :
  permutation ≡ₚ Z.of_nat <$> seq 0 num_inputs →
  Forall (λ row, length row = S num_inputs) truth_table →
  ∃ permuted,
    permute_truth_table truth_table num_inputs permutation = Ok permuted
    ∧ Forall (λ row, length row = S num_inputs) permuted
    ∧ last <$> permuted = last <$> truth_table
    ∧ ∀ m m',
        (∀ i x, permutation !! i = Some x → Z.testbit m' x = Z.testbit m (Z.of_nat i)) →
        table_covers permuted m' = table_covers truth_table m.
Proof.
  intros Hperm Hall.
  destruct (permute_rows num_inputs permutation truth_table []
              (permutation_places _ _ Hperm) Hall) as (rows' & E & Hrows).
  exists rows'. split; [exact E|]. clear E.
  induction Hrows as [|row row' rows rows' Hrow _ IH].
  - split; [constructor|]. split; [done|]. done.
  - apply Forall_cons in Hall as [Hlen Hall].
    destruct (IH Hall) as (Hlens & Hlast & Hcov).
    split; [|split].
    + constructor; [|done].
      by destruct (permute_row_shape _ _ _ _ (permutation_places _ _ Hperm) Hlen Hrow).
    + cbn [fmap list_fmap]. f_equal; [|done].
      by destruct (permute_row_shape _ _ _ _ (permutation_places _ _ Hperm) Hlen Hrow).
    + intros m m' Hbits. unfold table_covers in *. cbn [existsb].
      rewrite (Hcov m m' Hbits).
      by rewrite (permute_row_covers _ _ _ _ m m' Hperm Hlen Hrow Hbits).
Qed.

Lemma permute_truth_table_covers_witness :
  ∃ permuted,
    permute_truth_table [[TRUE; FALSE; DONT_CARE; TRUE]] 3 [2; 0; 1] = Ok permuted
    ∧ Forall (λ row, length row = 4%nat) permuted
    ∧ last <$> permuted = last <$> [[TRUE; FALSE; DONT_CARE; TRUE]]
    ∧ ∀ m m',
        (∀ i x, [2; 0; 1] !! i = Some x → Z.testbit m' x = Z.testbit m (Z.of_nat i)) →
        table_covers permuted m' = table_covers [[TRUE; FALSE; DONT_CARE; TRUE]] m.
Proof.
  apply (permute_truth_table_covers [[TRUE; FALSE; DONT_CARE; TRUE]] 3 [2; 0; 1]).
  - exact (Permutation_cons_append [0; 1] 2).
  - repeat constructor.
Defined.

(** The vector that undoes a permutation places its entries too. *)
Lemma inverse_places (p q : list Z) (n : nat) :
  p ≡ₚ Z.of_nat <$> seq 0 n →
  (∀ i x, p !! i = Some x → q !! Z.to_nat x = Some (Z.of_nat i)) →
  places q n.
Proof.
  intros Hperm Hinv j Hj.
  destruct (permutation_reaches p n j Hperm Hj) as (i & Hi & Hx).
  exists i. split; [|split; [done|]].
  - specialize (Hinv i _ Hx). by rewrite Nat2Z.id in Hinv.
  - intros j' Hj' Hq.
    destruct (permutation_reaches p n j' Hperm Hj') as (i' & Hi' & Hx').
    pose proof (Hinv i' _ Hx') as H'. rewrite Nat2Z.id, Hq in H'.
    injection H' as H'. apply Nat2Z.inj in H'. subst i'.
    rewrite Hx in Hx'. injection Hx' as Hx'. apply Nat2Z.inj in Hx'. done.
Qed.

Lemma permute_row_back (n : nat) (p q : list Z) row row' :
  p ≡ₚ Z.of_nat <$> seq 0 n →
  (∀ i x, p !! i = Some x → q !! Z.to_nat x = Some (Z.of_nat i)) →
  length row = S n →
  permute_row n p row = Ok row' → permute_row n q row' = Ok row.
Proof.
  intros Hperm Hinv Hlen E.
  pose proof (permutation_places p n Hperm) as Hp.
  pose proof (inverse_places p q n Hperm Hinv) as Hq.
  destruct (permute_row_places n p row Hp Hlen) as (r & E' & Hlen' & Hin & Hout).
  assert (r = row') as -> by congruence.
  destruct (permute_row_places n q row' Hq Hlen') as (row'' & E'' & Hlen'' & Hin' & Hout').
  rewrite E''. f_equal. apply list_eq. intros idx.
  destruct (decide (idx < n)%nat) as [Hlt|Hge].
  - destruct (Hp idx Hlt) as (x & Hx & Hxn & _).
    pose proof (Hinv idx _ Hx) as Hqx. rewrite Nat2Z.id in Hqx.
    pose proof (slot_places _ _ _ Hqx) as Hs1.
    pose proof (slot_places _ _ _ Hx) as Hs2.
    transitivity (row' !! x).
    + rewrite <- (Hin' x Hxn). by rewrite Hs1.
    + rewrite <- Hs2. by apply Hin.
  - destruct (decide (idx = n)) as [->|Hne]; [congruence|].
    rewrite !(proj2 (lookup_ge_None _ _)); [done|lia|lia].
Qed.

Lemma permute_rows_back n q : ∀ rows rows' acc,
  Forall2 (λ row row', permute_row n q row' = Ok row) rows rows' →
  for_each rows'
    (λ permuted_truth_table row,
       permuted_row ← permute_row n q row;
       Ok (permuted_truth_table ++ [permuted_row])) acc
  = Ok (acc ++ rows).
Proof.
  intros rows rows' acc H. revert acc.
  induction H as [|row row' rows rows' Hrow _ IH]; intros acc.
  - simpl. by rewrite app_nil_r.
  - cbn [for_each]. rewrite Hrow. cbn [mbind result_bind].
    rewrite IH. by rewrite <- (assoc_L (++)).
Qed.

(** X8.  Permuting the inputs with a permutation [p] of [0 .. n - 1] and then
    with the vector [q] that undoes it ([q[p[i]] = i]) gives the table back. *)
Theorem permute_truth_table_round_trip (truth_table : TruthTable) (num_inputs : nat)
    (p q : list Z) :
  p ≡ₚ Z.of_nat <$> seq 0 num_inputs →
  (∀ i x, p !! i = Some x → q !! Z.to_nat x = Some (Z.of_nat i)) →
  Forall (λ row, length row = S num_inputs) truth_table →
  ∃ permuted,
    permute_truth_table truth_table num_inputs p = Ok permuted
    ∧ permute_truth_table permuted num_inputs q = Ok truth_table.
Proof.
  intros Hperm Hinv Hall.
  destruct (permute_rows num_inputs p truth_table []
              (permutation_places _ _ Hperm) Hall) as (rows' & E & Hrows).
  exists rows'. split; [exact E|].
  unfold permute_truth_table. apply (permute_rows_back num_inputs q truth_table rows' []).
  clear E. induction Hrows as [|row row' rows rows' Hrow _ IH]; [constructor|].
  apply Forall_cons in Hall as [Hlen Hall]. constructor; [|by apply IH].
  by apply (permute_row_back num_inputs p q).
Qed.

Lemma permute_truth_table_round_trip_witness :
  ∃ permuted,
    permute_truth_table [[TRUE; FALSE; DONT_CARE; TRUE]; [FALSE; FALSE; TRUE; TRUE]]
      3 [2; 0; 1] = Ok permuted
    ∧ permute_truth_table permuted 3 [1; 2; 0]
      = Ok [[TRUE; FALSE; DONT_CARE; TRUE]; [FALSE; FALSE; TRUE; TRUE]].
Proof.
  apply (permute_truth_table_round_trip
           [[TRUE; FALSE; DONT_CARE; TRUE]; [FALSE; FALSE; TRUE; TRUE]]
           3 [2; 0; 1] [1; 2; 0]).
  - exact (Permutation_cons_append [0; 1] 2).
  - intros [|[|[|i]]] x Hx; simpl in Hx; try discriminate Hx;
      injection Hx as <-; reflexivity.
  - repeat constructor.
Defined.

End TruthTable.

(** ** Net identities inside a cluster ([read_netlist.c]) *)

Module PbRoute.

(** [t_pb_route]: the atom net carried by a pin of the cluster ([None] is
    [AtomNetId::INVALID()]) and the pin that drives it ([OPEN] at the
    boundary).  The table is indexed by [pin_count_in_cluster]. *)
Record t_pb_route := {
  atom_net_id : option nat;
  prev_pb_pin_id : Z;
}.

(** [alloc_pb_route]: [new t_pb_route[num_pins]], every entry default
    constructed. *)
Definition alloc_pb_route (num_pins : nat) : list t_pb_route :=
  replicate num_pins {| atom_net_id := None; prev_pb_pin_id := OPEN |}.

(** [pb_route[i]] for an [int] index. *)
Definition pb_route_at (pb_route : list t_pb_route) (i : Z) : result t_pb_route :=
  if i <? 0 then Err OutOfBounds
  else match pb_route !! Z.to_nat i with
       | Some e => Ok e
       | None => Err OutOfBounds
       end.

Definition is_valid_id (id : option nat) : bool :=
  match id with Some _ => true | None => false end.

(** [load_atom_index_for_pb_pin]; the table is passed and returned. *)
Fixpoint load_atom_index_for_pb_pin (fuel : nat) (pb_route : list t_pb_route)
    (ipin : Z) : result (list t_pb_route) :=
  match fuel with
  | O => Err OutOfFuel
  | S fuel' =>
      entry ← pb_route_at pb_route ipin;
      let driver := prev_pb_pin_id entry in
      _ ← VTR_ASSERT "driver != OPEN" (negb (driver =? OPEN));
      _ ← VTR_ASSERT "!pb_route[ipin].atom_net_id"
                     (negb (is_valid_id (atom_net_id entry)));
      driver_entry ← pb_route_at pb_route driver;
      pb_route ← (if negb (is_valid_id (atom_net_id driver_entry))
                  then load_atom_index_for_pb_pin fuel' pb_route driver
                  else Ok pb_route);
      driver_entry ← pb_route_at pb_route driver;
      entry ← pb_route_at pb_route ipin;
      Ok (<[Z.to_nat ipin := {| atom_net_id := atom_net_id driver_entry;
                                prev_pb_pin_id := prev_pb_pin_id entry |}]> pb_route)
  end.

(** [load_interal_to_block_net_nums]; [num_pins] is
    [type->pb_graph_head->total_pb_pins], the size the table was allocated
    with.  A chain of drivers visits no pin twice, so its length is at most
    [num_pins]. *)
Definition load_interal_to_block_net_nums (num_pins : nat)
    (pb_route : list t_pb_route) : result (list t_pb_route) :=
  for_each (seq 0 num_pins)
    (λ pb_route i,
       entry ← pb_route_at pb_route (Z.of_nat i);
       if negb (prev_pb_pin_id entry =? OPEN) && negb (is_valid_id (atom_net_id entry))
       then load_atom_index_for_pb_pin num_pins pb_route (Z.of_nat i)
       else Ok pb_route)
    pb_route.

Definition route (net : option nat) (prev : Z) : t_pb_route :=
  {| atom_net_id := net; prev_pb_pin_id := prev |}.

Example fill_chain :
  load_interal_to_block_net_nums 4
    [route None 2; route (Some 7%nat) OPEN; route None 1; route None OPEN]
  = Ok [route (Some 7%nat) 2; route (Some 7%nat) OPEN; route (Some 7%nat) 1; route None OPEN].
Proof. reflexivity. Qed.

Example fill_cycle :
  load_interal_to_block_net_nums 2 [route None 1; route None 0] = Err OutOfFuel.
Proof. reflexivity. Qed.

Example fill_open_source :
  load_interal_to_block_net_nums 2 [route None 1; route None OPEN]
  = Err (AssertionFailed "driver != OPEN").
Proof. reflexivity. Qed.

(** *** The shape of a table before the fill *)

(** Every driver index is [OPEN] or inside the table. *)
Definition prevs_in_range (pb_route : list t_pb_route) : bool :=
  forallb (λ e, (prev_pb_pin_id e =? OPEN)
                || ((0 <=? prev_pb_pin_id e)
                    && (prev_pb_pin_id e <? Z.of_nat (length pb_route))))
          pb_route.

(** The graph of drivers is acyclic: [rank] falls along every edge from a pin
    to its driver. *)
Definition ranks_decrease (rank : nat → nat) (pb_route : list t_pb_route) : bool :=
  forallb (λ i, match pb_route !! i with
                | Some e => (prev_pb_pin_id e =? OPEN)
                            || (rank (Z.to_nat (prev_pb_pin_id e)) <? rank i)%nat
                | None => true
                end) (seq 0 (length pb_route)).

(** What [processPorts] leaves behind: a pin is given a net (top-level inputs
    and clocks, outputs of primitives) or a driver (internal pins), never
    both. *)
Definition driven_pins_unresolved (pb_route : list t_pb_route) : bool :=
  forallb (λ e, (prev_pb_pin_id e =? OPEN) || negb (is_valid_id (atom_net_id e)))
          pb_route.

(** Every pin named as a driver carries a net or has a driver of its own. *)
Definition drivers_have_source (pb_route : list t_pb_route) : bool :=
  forallb (λ e, (prev_pb_pin_id e =? OPEN)
                || match pb_route !! Z.to_nat (prev_pb_pin_id e) with
                   | Some d => is_valid_id (atom_net_id d)
                               || negb (prev_pb_pin_id d =? OPEN)
                   | None => false
                   end) pb_route.

(** The invariant of section 3: a pin with a driver carries the net of its
    driver. *)
Definition nets_follow_drivers (pb_route : list t_pb_route) : Prop :=
  ∀ i e, pb_route !! i = Some e → prev_pb_pin_id e ≠ OPEN →
    is_valid_id (atom_net_id e) = true
    ∧ ∃ d, pb_route !! Z.to_nat (prev_pb_pin_id e) = Some d
           ∧ atom_net_id e = atom_net_id d.

(** *** Invariants of the fill *)

Definition in_range (R : list t_pb_route) : Prop :=
  ∀ i e, R !! i = Some e →
    prev_pb_pin_id e = OPEN ∨ 0 ≤ prev_pb_pin_id e < Z.of_nat (length R).

Definition ranked (rank : nat → nat) (R : list t_pb_route) : Prop :=
  ∀ i e, R !! i = Some e → prev_pb_pin_id e ≠ OPEN →
    (rank (Z.to_nat (prev_pb_pin_id e)) < rank i)%nat.

(** Resolved pins agree with their driver. *)
Definition agree (R : list t_pb_route) : Prop :=
  ∀ i e, R !! i = Some e → prev_pb_pin_id e ≠ OPEN →
    is_valid_id (atom_net_id e) = true →
    ∃ d, R !! Z.to_nat (prev_pb_pin_id e) = Some d ∧ atom_net_id d = atom_net_id e.

Definition sources_ok (R : list t_pb_route) : Prop :=
  ∀ i e, R !! i = Some e → prev_pb_pin_id e ≠ OPEN →
    ∃ d, R !! Z.to_nat (prev_pb_pin_id e) = Some d
         ∧ (is_valid_id (atom_net_id d) = true ∨ prev_pb_pin_id d ≠ OPEN).

(** The fill only ever gives a net to a pin that had none. *)
Definition extends (R R' : list t_pb_route) : Prop :=
  length R' = length R
  ∧ ∀ i e, R !! i = Some e →
      ∃ e', R' !! i = Some e'
            ∧ prev_pb_pin_id e' = prev_pb_pin_id e
            ∧ (is_valid_id (atom_net_id e) = true → atom_net_id e' = atom_net_id e).

Lemma extends_refl R : extends R R.
Proof. split; [done|]. intros i e He. exists e. by repeat split. Qed.

Lemma extends_trans R1 R2 R3 : extends R1 R2 → extends R2 R3 → extends R1 R3.
Proof.
  intros [L12 H12] [L23 H23]. split; [congruence|].
  intros i e He. destruct (H12 i e He) as (e2 & He2 & Hp2 & Hn2).
  destruct (H23 i e2 He2) as (e3 & He3 & Hp3 & Hn3).
  exists e3. split; [done|]. split; [congruence|].
  intros Hv. rewrite Hn3; [by apply Hn2|]. by rewrite Hn2.
Qed.

Lemma extends_back R R' i e' :
  extends R R' → R' !! i = Some e' →
  ∃ e, R !! i = Some e ∧ prev_pb_pin_id e' = prev_pb_pin_id e
       ∧ (is_valid_id (atom_net_id e) = true → atom_net_id e' = atom_net_id e).
Proof.
  intros [Hlen H] He'.
  destruct (lookup_lt_is_Some_2 R i) as [e He].
  { apply lookup_lt_Some in He'. lia. }
  destruct (H i e He) as (e2 & He2 & Hp & Hn).
  exists e. split; [done|]. rewrite He' in He2. injection He2 as <-. done.
Qed.

Lemma extends_in_range R R' : extends R R' → in_range R → in_range R'.
Proof.
  intros Hext Hr i e' He'.
  destruct (extends_back _ _ _ _ Hext He') as (e & He & Hp & _).
  rewrite Hp. destruct Hext as [-> _]. eauto.
Qed.

Lemma extends_ranked rank R R' : extends R R' → ranked rank R → ranked rank R'.
Proof.
  intros Hext Hr i e' He' Hopen.
  destruct (extends_back _ _ _ _ Hext He') as (e & He & Hp & _).
  rewrite Hp in *. eauto.
Qed.

Lemma extends_sources_ok R R' : extends R R' → sources_ok R → sources_ok R'.
Proof.
  intros Hext Hs i e' He' Hopen.
  destruct (extends_back _ _ _ _ Hext He') as (e & He & Hp & _).
  rewrite Hp in *. destruct (Hs i e He Hopen) as (d & Hd & Hsrc).
  destruct Hext as [_ Hext]. destruct (Hext _ _ Hd) as (d' & Hd' & Hpd & Hnd).
  exists d'. split; [done|]. destruct Hsrc as [Hv|Hv].
  - left. by rewrite Hnd.
  - right. congruence.
Qed.

(** The assignment [pb_route[ipin].atom_net_id = pb_route[driver].atom_net_id]
    once the driver is resolved. *)
Lemma assign_net R i e d :
  agree R → R !! i = Some e → prev_pb_pin_id e ≠ OPEN →
  R !! Z.to_nat (prev_pb_pin_id e) = Some d → is_valid_id (atom_net_id d) = true →
  let R' := <[i := {| atom_net_id := atom_net_id d;
                      prev_pb_pin_id := prev_pb_pin_id e |}]> R in
  extends R R' ∧ agree R'
  ∧ ∃ e', R' !! i = Some e' ∧ is_valid_id (atom_net_id e') = true.
Proof.
  intros Hagree He Hopen Hd Hvalid R'.
  assert (i < length R)%nat as Hi by by eapply lookup_lt_Some.
  assert (R' !! i = Some {| atom_net_id := atom_net_id d;
                            prev_pb_pin_id := prev_pb_pin_id e |}) as Hnew
    by by apply list_lookup_insert_eq.
  assert (is_valid_id (atom_net_id e) = true → atom_net_id d = atom_net_id e) as Hsame.
  { intros Hv. destruct (Hagree i e He Hopen Hv) as (d0 & Hd0 & Hn). congruence. }
  split; [|split].
  - split; [by unfold R'; rewrite length_insert|].
    intros j ej Hj. destruct (decide (i = j)) as [<-|Hne].
    + rewrite He in Hj. injection Hj as <-.
      eexists. split; [exact Hnew|]. split; [done|]. exact Hsame.
    + exists ej. unfold R'. rewrite list_lookup_insert_ne by done. done.
  - intros j ej Hj Hjopen Hjvalid. destruct (decide (i = j)) as [<-|Hne].
    + rewrite Hnew in Hj. injection Hj as <-. simpl in *.
      destruct (decide (i = Z.to_nat (prev_pb_pin_id e))) as [Heq|Hneq].
      * rewrite <- Heq. eexists. split; [exact Hnew|done].
      * exists d. unfold R'. rewrite list_lookup_insert_ne by done. done.
    + unfold R' in Hj. rewrite list_lookup_insert_ne in Hj by done.
      destruct (Hagree j ej Hj Hjopen Hjvalid) as (d0 & Hd0 & Hn).
      destruct (decide (i = Z.to_nat (prev_pb_pin_id ej))) as [Heq|Hneq].
      * rewrite <- Heq in *. rewrite He in Hd0. injection Hd0 as <-.
        eexists. split; [exact Hnew|]. simpl. rewrite <- Hn. apply Hsame.
        by rewrite Hn.
      * exists d0. unfold R'. rewrite list_lookup_insert_ne by done. done.
  - eexists. split; [exact Hnew|done].
Qed.

Lemma pb_route_at_lookup R (i : nat) e :
  R !! i = Some e → pb_route_at R (Z.of_nat i) = Ok e.
Proof.
  intros He. unfold pb_route_at.
  destruct (Z.ltb_spec (Z.of_nat i) 0) as [?|_]; [lia|].
  by rewrite Nat2Z.id, He.
Qed.

Lemma pb_route_at_Z R (i : Z) e :
  0 ≤ i → R !! Z.to_nat i = Some e → pb_route_at R i = Ok e.
Proof.
  intros Hi He. unfold pb_route_at.
  destruct (Z.ltb_spec i 0) as [?|_]; [lia|]. by rewrite He.
Qed.

(** *** The recursive resolution *)

(** Pins that are pairwise distinct and inside the table are no more than the
    table has entries. *)
Lemma distinct_pins_bound (visited : list nat) (n : nat) :
  NoDup visited → (∀ v, v ∈ visited → (v < n)%nat) → (length visited ≤ n)%nat.
Proof.
  intros Hnd Hlt.
  assert (length visited ≤ length (seq 0 n))%nat as Hb; [|by rewrite length_seq in Hb].
  apply submseteq_length, NoDup_submseteq; [done|].
  intros v Hv. apply elem_of_seq. specialize (Hlt v Hv). lia.
Qed.

Lemma load_atom_index_for_pb_pin_outcome (rank : nat → nat) :
  ∀ fuel (visited : list nat) R (i : nat) e,
    in_range R → ranked rank R → agree R →
    R !! i = Some e → is_valid_id (atom_net_id e) = false →
    NoDup visited →
    (∀ v, v ∈ visited → (v < length R)%nat ∧ (rank i < rank v)%nat) →
    (length R ≤ length visited + fuel)%nat →
    (prev_pb_pin_id e = OPEN → ¬ sources_ok R) →
    outcome (load_atom_index_for_pb_pin fuel R (Z.of_nat i))
      (λ R', extends R R' ∧ agree R'
             ∧ ∃ e', R' !! i = Some e' ∧ is_valid_id (atom_net_id e') = true)
      (¬ sources_ok R).
Proof.
  induction fuel as [|fuel IH];
    intros visited R i e Hrange Hrank Hagree He Hnet Hnd Hvis Hfuel Hopen.
  - (* the bound is never reached *)
    exfalso.
    assert (i < length R)%nat as Hi by by eapply lookup_lt_Some.
    assert (length (i :: visited) ≤ length R)%nat as Hb.
    { apply distinct_pins_bound.
      - apply NoDup_cons. split; [|done]. intros Hin.
        destruct (Hvis i Hin). lia.
      - intros v [->|Hv]%elem_of_cons; [done|]. by apply Hvis. }
    simpl in Hb. lia.
  - cbn [load_atom_index_for_pb_pin].
    rewrite (pb_route_at_lookup _ _ _ He). cbn [mbind result_bind].
    destruct (Z.eqb_spec (prev_pb_pin_id e) OPEN) as [Heq|Hne]; simpl.
    { by apply Hopen. }
    rewrite Hnet. simpl.
    destruct (Hrange i e He) as [?|Hdr]; [done|].
    set (driver := prev_pb_pin_id e) in *.
    destruct (lookup_lt_is_Some_2 R (Z.to_nat driver)) as [d Hd]; [lia|].
    rewrite (pb_route_at_Z _ _ _ (proj1 Hdr) Hd). cbn [mbind result_bind].
    (* what holds once the driver is resolved *)
    assert (∀ R1, extends R R1 → agree R1 →
              (∃ d1, R1 !! Z.to_nat driver = Some d1
                     ∧ is_valid_id (atom_net_id d1) = true) →
              outcome
                (driver_entry ← pb_route_at R1 driver;
                 entry ← pb_route_at R1 (Z.of_nat i);
                 Ok (<[Z.to_nat (Z.of_nat i) :=
                        {| atom_net_id := atom_net_id driver_entry;
                           prev_pb_pin_id := prev_pb_pin_id entry |}]> R1))
                (λ R', extends R R' ∧ agree R'
                       ∧ ∃ e', R' !! i = Some e' ∧ is_valid_id (atom_net_id e') = true)
                (¬ sources_ok R)) as Hassign.
    { intros R1 Hext Hagree1 (d1 & Hd1 & Hv1).
      rewrite (pb_route_at_Z _ _ _ (proj1 Hdr) Hd1). cbn [mbind result_bind].
      destruct (proj2 Hext i e He) as (e1 & He1 & Hp1 & _).
      rewrite (pb_route_at_lookup _ _ _ He1). cbn [mbind result_bind outcome].
      rewrite Nat2Z.id.
      destruct (assign_net R1 i e1 d1) as (Hext2 & Hagree2 & Hres);
        [done|done|by rewrite Hp1|by rewrite Hp1|done|].
      split; [by eapply extends_trans|]. by split. }
    destruct (is_valid_id (atom_net_id d)) eqn:Hdv; simpl.
    + apply Hassign; [apply extends_refl|done|by eauto].
    + eapply outcome_bind.
      * rewrite <- (Z2Nat.id driver) by lia.
        apply (IH (i :: visited) R (Z.to_nat driver) d); try done.
        -- apply NoDup_cons. split; [|done]. intros Hin.
           destruct (Hvis i Hin). lia.
        -- assert (rank (Z.to_nat driver) < rank i)%nat as Hlt by by apply (Hrank i e).
           intros v [->|Hv]%elem_of_cons.
           ++ split; [by eapply lookup_lt_Some|done].
           ++ destruct (Hvis v Hv). split; [done|lia].
        -- simpl. lia.
        -- intros Hdopen Hsrc. destruct (Hsrc i e He Hne) as (d' & Hd' & Hor).
           fold driver in Hd'. rewrite Hd in Hd'. injection Hd' as <-.
           destruct Hor as [Hv|Hv]; [congruence|done].
      * intros R1 (Hext & Hagree1 & Hres). simpl.
        apply Hassign; done.
Qed.

(** *** The fill *)

Definition resolved_below (a : nat) (R : list t_pb_route) : Prop :=
  ∀ j e, (j < a)%nat → R !! j = Some e → prev_pb_pin_id e ≠ OPEN →
    is_valid_id (atom_net_id e) = true.

Lemma fill_loop (rank : nat → nat) (n : nat) : ∀ k a R,
  (a + k = n)%nat → length R = n →
  in_range R → ranked rank R → agree R → resolved_below a R →
  outcome
    (for_each (seq a k)
       (λ pb_route i,
          entry ← pb_route_at pb_route (Z.of_nat i);
          if negb (prev_pb_pin_id entry =? OPEN)
             && negb (is_valid_id (atom_net_id entry))
          then load_atom_index_for_pb_pin n pb_route (Z.of_nat i)
          else Ok pb_route) R)
    (λ R', extends R R' ∧ agree R' ∧ resolved_below n R')
    (¬ sources_ok R).
Proof.
  induction k as [|k IH]; intros a R Hak Hlen Hrange Hrank Hagree Hres.
  - simpl. replace n with a by lia. split; [apply extends_refl|done].
  - cbn [seq for_each].
    destruct (lookup_lt_is_Some_2 R a) as [e He]; [lia|].
    rewrite (pb_route_at_lookup _ _ _ He). cbn [mbind result_bind].
    assert (∀ R1, extends R R1 → agree R1 →
              (prev_pb_pin_id e ≠ OPEN →
               ∃ e1, R1 !! a = Some e1 ∧ is_valid_id (atom_net_id e1) = true) →
              outcome
                (for_each (seq (S a) k)
                   (λ pb_route i,
                      entry ← pb_route_at pb_route (Z.of_nat i);
                      if negb (prev_pb_pin_id entry =? OPEN)
                         && negb (is_valid_id (atom_net_id entry))
                      then load_atom_index_for_pb_pin n pb_route (Z.of_nat i)
                      else Ok pb_route) R1)
                (λ R', extends R R' ∧ agree R' ∧ resolved_below n R')
                (¬ sources_ok R)) as Hnext.
    { intros R1 Hext Hagree1 Ha.
      eapply outcome_weaken.
      - apply (IH (S a) R1); [lia|destruct Hext; congruence
                             |by eapply extends_in_range
                             |by eapply extends_ranked|done|].
        intros j e1 Hj He1 Hopen1.
        destruct (extends_back _ _ _ _ Hext He1) as (e0 & He0 & Hp & Hn).
        destruct (decide (j = a)) as [->|Hne].
        + rewrite He in He0. injection He0 as <-.
          destruct Ha as (e1' & He1' & Hv); [congruence|]. congruence.
        + rewrite Hn; apply (Hres j e0); try done; try lia; congruence.
      - intros R' (Hext' & Hagree' & Hres'). split; [by eapply extends_trans|done].
      - intros Hnot Hsrc. apply Hnot. by eapply extends_sources_ok. }
    destruct (Z.eqb_spec (prev_pb_pin_id e) OPEN) as [Heq|Hne]; simpl.
    { apply Hnext; [apply extends_refl|done|done]. }
    destruct (is_valid_id (atom_net_id e)) eqn:Hv; simpl.
    { apply Hnext; [apply extends_refl|done|by eauto]. }
    eapply outcome_bind.
    + apply (load_atom_index_for_pb_pin_outcome rank n [] R a e); try done.
      * apply NoDup_nil_2.
      * intros v Hin. by apply not_elem_of_nil in Hin.
      * simpl. lia.
    + intros R1 (Hext & Hagree1 & Hres1). simpl. apply Hnext; done.
Qed.

Lemma prevs_in_range_spec R : prevs_in_range R = true → in_range R.
Proof.
  unfold prevs_in_range. rewrite forallb_forall. intros H i e He.
  specialize (H e). rewrite <- list_elem_of_In in H.
  specialize (H (list_elem_of_lookup_2 _ _ _ He)).
  apply orb_prop in H as [H|H]; [left; lia|right]. lia.
Qed.

Lemma ranks_decrease_spec rank R : ranks_decrease rank R = true → ranked rank R.
Proof.
  unfold ranks_decrease. rewrite forallb_forall. intros H i e He Hopen.
  assert (In i (seq 0 (length R))) as Hin.
  { apply in_seq. apply lookup_lt_Some in He. lia. }
  specialize (H i Hin). rewrite He in H.
  apply orb_prop in H as [H|H]; [lia|by apply Nat.ltb_lt].
Qed.

Lemma driven_pins_unresolved_spec R : driven_pins_unresolved R = true → agree R.
Proof.
  unfold driven_pins_unresolved. rewrite forallb_forall. intros H i e He Hopen Hv.
  specialize (H e). rewrite <- list_elem_of_In in H.
  specialize (H (list_elem_of_lookup_2 _ _ _ He)).
  apply orb_prop in H as [H|H]; [lia|]. rewrite Hv in H. done.
Qed.

Lemma drivers_have_source_spec R : drivers_have_source R = true → sources_ok R.
Proof.
  unfold drivers_have_source. rewrite forallb_forall. intros H i e He Hopen.
  specialize (H e). rewrite <- list_elem_of_In in H.
  specialize (H (list_elem_of_lookup_2 _ _ _ He)).
  apply orb_prop in H as [H|H]; [lia|].
  destruct (R !! Z.to_nat (prev_pb_pin_id e)) as [d|]; [|done].
  exists d. split; [done|].
  apply orb_prop in H as [H|H]; [by left|right]. lia.
Qed.

(** *** What the fill leaves alone *)

(** The fill may give a net to an entry that has a driver and no net, and
    changes nothing else: the table keeps its size, every entry its driver,
    and an entry without a driver or with a net stays as it is. *)
Definition fills (R R' : list t_pb_route) : Prop :=
  length R' = length R
  ∧ ∀ i e, R !! i = Some e →
      ∃ e', R' !! i = Some e' ∧ prev_pb_pin_id e' = prev_pb_pin_id e
            ∧ (prev_pb_pin_id e = OPEN ∨ is_valid_id (atom_net_id e) = true → e' = e).

Lemma fills_refl R : fills R R.
Proof. split; [done|]. intros i e He. exists e. by repeat split. Qed.

Lemma fills_trans R1 R2 R3 : fills R1 R2 → fills R2 R3 → fills R1 R3.
Proof.
  intros [L12 H12] [L23 H23]. split; [congruence|].
  intros i e He. destruct (H12 i e He) as (e2 & He2 & Hp2 & Hn2).
  destruct (H23 i e2 He2) as (e3 & He3 & Hp3 & Hn3).
  exists e3. split; [done|]. split; [congruence|].
  intros Hkeep. specialize (Hn2 Hkeep). subst e2. by apply Hn3.
Qed.

Lemma pb_route_at_Ok R i e :
  pb_route_at R i = Ok e → 0 ≤ i ∧ R !! Z.to_nat i = Some e.
Proof.
  unfold pb_route_at. destruct (Z.ltb_spec i 0); [done|].
  destruct (R !! Z.to_nat i) as [e'|]; [|done]. intros [= ->]. done.
Qed.

Lemma load_atom_index_for_pb_pin_fills : ∀ fuel R i R',
  load_atom_index_for_pb_pin fuel R i = Ok R' → fills R R'.
Proof.
  induction fuel as [|fuel IH]; intros R i R'; [discriminate|].
  cbn [load_atom_index_for_pb_pin].
  destruct (pb_route_at R i) as [e|] eqn:He; [|discriminate].
  cbn [mbind result_bind].
  destruct (Z.eqb_spec (prev_pb_pin_id e) OPEN) as [|Hopen]; [discriminate|].
  destruct (is_valid_id (atom_net_id e)) eqn:Hnet; [discriminate|].
  cbn [negb VTR_ASSERT mbind result_bind].
  destruct (pb_route_at R (prev_pb_pin_id e)) as [d|]; [|discriminate].
  cbn [mbind result_bind].
  apply pb_route_at_Ok in He as [Hi He].
  assert (∀ R1, fills R R1 →
            (driver_entry ← pb_route_at R1 (prev_pb_pin_id e);
             entry ← pb_route_at R1 i;
             Ok (<[Z.to_nat i := {| atom_net_id := atom_net_id driver_entry;
                                    prev_pb_pin_id := prev_pb_pin_id entry |}]> R1))
            = Ok R' → fills R R') as Hassign.
  { intros R1 [Hlen H1].
    destruct (pb_route_at R1 (prev_pb_pin_id e)) as [d1|]; [|discriminate].
    cbn [mbind result_bind].
    destruct (pb_route_at R1 i) as [e1|] eqn:He1; [|discriminate].
    cbn [mbind result_bind]. intros [= <-].
    apply pb_route_at_Ok in He1 as [_ He1].
    split; [by rewrite length_insert|].
    intros j ej Hj. destruct (decide (Z.to_nat i = j)) as [<-|Hne].
    - rewrite He in Hj. injection Hj as <-.
      eexists. split; [apply list_lookup_insert_eq; by eapply lookup_lt_Some|].
      simpl. destruct (H1 _ _ He) as (e1' & He1' & Hp & _).
      split; [congruence|]. intros [?|?]; congruence.
    - rewrite list_lookup_insert_ne by done. by apply H1. }
  destruct (is_valid_id (atom_net_id d)); cbn [negb].
  - apply Hassign, fills_refl.
  - destruct (load_atom_index_for_pb_pin fuel R (prev_pb_pin_id e)) as [R1|] eqn:E1;
      [|discriminate].
    cbn [mbind result_bind]. apply Hassign. by eapply IH.
Qed.

Lemma fill_loop_fills n : ∀ k a R R',
  for_each (seq a k)
    (λ pb_route i,
       entry ← pb_route_at pb_route (Z.of_nat i);
       if negb (prev_pb_pin_id entry =? OPEN) && negb (is_valid_id (atom_net_id entry))
       then load_atom_index_for_pb_pin n pb_route (Z.of_nat i)
       else Ok pb_route) R = Ok R' →
  fills R R'.
Proof.
  induction k as [|k IH]; intros a R R'.
  - intros [= <-]. apply fills_refl.
  - cbn [seq for_each].
    destruct (pb_route_at R (Z.of_nat a)) as [e|]; [|discriminate].
    cbn [mbind result_bind].
    destruct (negb (prev_pb_pin_id e =? OPEN) && negb (is_valid_id (atom_net_id e))).
    + destruct (load_atom_index_for_pb_pin n R (Z.of_nat a)) as [R1|] eqn:E1;
        [|discriminate].
      cbn [mbind result_bind]. intros E.
      eapply fills_trans; [by eapply load_atom_index_for_pb_pin_fills|by eapply IH].
    + cbn [mbind result_bind]. apply IH.
Qed.

(** C6.  On a table as [processPorts] leaves it, with every driver index
    inside the table and the graph of drivers acyclic, the recursive
    resolution ends for every entry and so does the fill; once the fill has
    returned, the table is the one ingestion wrote but for the nets the fill
    has added (it has the same size, every entry has the driver it had, and
    an entry that had no driver or had a net is as it was), and every entry
    with a driver carries a valid net, the net of the entry of its driver.
    (The fill stops in [VTR_ASSERT] when a chain of drivers ends in a pin with
    neither a net nor a driver, and returns otherwise.) *)
Theorem transitive_fill_resolves (rank : nat → nat) (pb_route : list t_pb_route) :
  prevs_in_range pb_route = true →
  ranks_decrease rank pb_route = true →
  driven_pins_unresolved pb_route = true →
  (∀ i, (i < length pb_route)%nat →
     load_atom_index_for_pb_pin (length pb_route) pb_route (Z.of_nat i)
       ≠ Err OutOfFuel)
  ∧ load_interal_to_block_net_nums (length pb_route) pb_route ≠ Err OutOfFuel
  ∧ (drivers_have_source pb_route = true →
     is_Ok (load_interal_to_block_net_nums (length pb_route) pb_route) = true)
  ∧ (∀ pb_route',
       load_interal_to_block_net_nums (length pb_route) pb_route = Ok pb_route' →
       length pb_route' = length pb_route
       ∧ fills pb_route pb_route'
       ∧ nets_follow_drivers pb_route').
Proof.
  intros Hrange%prevs_in_range_spec Hrank%ranks_decrease_spec
         Hagree%driven_pins_unresolved_spec.
  pose proof (fill_loop rank (length pb_route) (length pb_route) 0%nat pb_route
                eq_refl eq_refl Hrange Hrank Hagree) as Hfill.
  unfold load_interal_to_block_net_nums.
  match type of Hfill with _ → outcome ?r _ _ => set (filled := r) in * end.
  assert (outcome filled
            (λ R', extends pb_route R' ∧ agree R' ∧ resolved_below (length pb_route) R')
            (¬ sources_ok pb_route)) as Hout.
  { apply Hfill. intros j e Hj. lia. }
  clear Hfill. split; [|split; [|split]].
  - intros i Hi.
    destruct (lookup_lt_is_Some_2 pb_route i Hi) as [e He].
    destruct (is_valid_id (atom_net_id e)) eqn:Hv.
    + destruct (length pb_route) as [|n] eqn:Hn; [lia|].
      cbn [load_atom_index_for_pb_pin].
      rewrite (pb_route_at_lookup _ _ _ He). cbn [mbind result_bind].
      destruct (negb (prev_pb_pin_id e =? OPEN)); simpl; [|done].
      rewrite Hv. done.
    + destruct (Z.eqb_spec (prev_pb_pin_id e) OPEN) as [Heq|Hne].
      * destruct (length pb_route) as [|n] eqn:Hn; [lia|].
        cbn [load_atom_index_for_pb_pin].
        rewrite (pb_route_at_lookup _ _ _ He). cbn [mbind result_bind].
        rewrite Heq. done.
      * eapply outcome_ends.
        apply (load_atom_index_for_pb_pin_outcome rank (length pb_route) []
                 pb_route i e); try done;
          try apply NoDup_nil_2;
          try (intros v Hin; by apply not_elem_of_nil in Hin);
          simpl; lia.
  - by eapply outcome_ends.
  - intros Hsrc%drivers_have_source_spec.
    destruct filled as [R'|[]]; simpl in *; try done.
  - intros R' E. pose proof (fill_loop_fills _ _ _ _ _ E) as Hfills.
    rewrite E in Hout. destruct Hout as (Hext & Hagree' & Hres).
    split; [by destruct Hext|]. split; [exact Hfills|].
    intros i e He Hopen.
    assert (is_valid_id (atom_net_id e) = true) as Hv.
    { apply (Hres i e); try done. destruct Hext as [<- _]. by eapply lookup_lt_Some. }
    split; [done|].
    destruct (Hagree' i e He Hopen Hv) as (d & Hd & Hn). by exists d.
Qed.

(** The theorem on a table of three pins: pin 0 carries net 7, pin 1 is
    driven by pin 0 and pin 2 by pin 1. *)
Lemma transitive_fill_resolves_witness :
  (∀ i, (i < 3)%nat →
     load_atom_index_for_pb_pin 3
       [route (Some 7%nat) OPEN; route None 0; route None 1] (Z.of_nat i)
       ≠ Err OutOfFuel)
  ∧ load_interal_to_block_net_nums 3
      [route (Some 7%nat) OPEN; route None 0; route None 1] ≠ Err OutOfFuel
  ∧ (drivers_have_source [route (Some 7%nat) OPEN; route None 0; route None 1] = true →
     is_Ok (load_interal_to_block_net_nums 3
              [route (Some 7%nat) OPEN; route None 0; route None 1]) = true)
  ∧ (∀ pb_route',
       load_interal_to_block_net_nums 3
         [route (Some 7%nat) OPEN; route None 0; route None 1] = Ok pb_route' →
       length pb_route' = 3%nat
       ∧ fills [route (Some 7%nat) OPEN; route None 0; route None 1] pb_route'
       ∧ nets_follow_drivers pb_route').
Proof.
  apply (transitive_fill_resolves (λ i, i)
           [route (Some 7%nat) OPEN; route None 0; route None 1]);
    reflexivity.
Defined.

(** *** The frame of the fill on any table *)

(** X9.  Whenever [load_interal_to_block_net_nums] returns, the table has
    the size it had, every entry has the driver it had, and every entry that
    had no driver, or had a net already, is exactly as it was: the fill only
    gives nets to driven entries without one. *)
Theorem fill_only_adds_nets (num_pins : nat) (pb_route pb_route' : list t_pb_route) :
  load_interal_to_block_net_nums num_pins pb_route = Ok pb_route' →
  fills pb_route pb_route'.
Proof. apply fill_loop_fills. Qed.

Lemma fill_only_adds_nets_witness :
  fills [route None 2; route (Some 7%nat) OPEN; route None 1; route None OPEN]
        [route (Some 7%nat) 2; route (Some 7%nat) OPEN; route (Some 7%nat) 1;
         route None OPEN].
Proof.
  apply (fill_only_adds_nets 4
           [route None 2; route (Some 7%nat) OPEN; route None 1; route None OPEN]).
  reflexivity.
Defined.

(** *** A table that is filled already *)

Lemma fill_fixpoint (n : nat) (R : list t_pb_route) :
  (n ≤ length R)%nat →
  (∀ i e, R !! i = Some e → prev_pb_pin_id e ≠ OPEN →
     is_valid_id (atom_net_id e) = true) →
  load_interal_to_block_net_nums n R = Ok R.
Proof.
  intros Hn Hres. unfold load_interal_to_block_net_nums.
  assert (∀ i, i ∈ seq 0 n → (i < length R)%nat) as Hin
    by (intros i Hi%elem_of_seq; lia).
  induction (seq 0 n) as [|a l IH]; [done|]. cbn [for_each].
  destruct (lookup_lt_is_Some_2 R a) as [e He]; [apply Hin; left|].
  rewrite (pb_route_at_lookup _ _ _ He). cbn [mbind result_bind].
  assert (negb (prev_pb_pin_id e =? OPEN) && negb (is_valid_id (atom_net_id e)) = false)
    as ->.
  { destruct (Z.eqb_spec (prev_pb_pin_id e) OPEN) as [|Hopen]; [done|].
    by rewrite (Hres a e He Hopen). }
  cbn [mbind result_bind]. apply IH. intros i Hi. apply Hin. by right.
Qed.

(** X10.  The fill is idempotent: on a table as [processPorts] leaves it
    (drivers inside the table, no cycle of drivers, no driven pin with a net),
    a fill that has returned leaves a table that a second fill returns
    unchanged. *)
Theorem fill_is_idempotent (rank : nat → nat) (pb_route pb_route' : list t_pb_route) :
  prevs_in_range pb_route = true →
  ranks_decrease rank pb_route = true →
  driven_pins_unresolved pb_route = true →
  load_interal_to_block_net_nums (length pb_route) pb_route = Ok pb_route' →
  load_interal_to_block_net_nums (length pb_route) pb_route' = Ok pb_route'.
Proof.
  intros Hrange%prevs_in_range_spec Hrank%ranks_decrease_spec
         Hagree%driven_pins_unresolved_spec E.
  pose proof (fill_loop rank (length pb_route) (length pb_route) 0%nat pb_route
                eq_refl eq_refl Hrange Hrank Hagree) as Hfill.
  unfold load_interal_to_block_net_nums in E. rewrite E in Hfill.
  destruct Hfill as ([Hlen _] & _ & Hres); [intros j e Hj; lia|].
  apply fill_fixpoint; [lia|].
  intros i e He Hopen. apply (Hres i e); try done.
  rewrite <- Hlen. by eapply lookup_lt_Some.
Qed.

Lemma fill_is_idempotent_witness :
  load_interal_to_block_net_nums 3
    [route (Some 7%nat) OPEN; route (Some 7%nat) 0; route (Some 7%nat) 1]
  = Ok [route (Some 7%nat) OPEN; route (Some 7%nat) 0; route (Some 7%nat) 1].
Proof.
  apply (fill_is_idempotent (λ i, i)
           [route (Some 7%nat) OPEN; route None 0; route None 1]);
    reflexivity.
Defined.

(** *** Chains of drivers that do not end *)

(** The pins of [pins] have no net, and each is driven by a pin of [pins]. *)
Definition closed_unresolved (pb_route : list t_pb_route) (pins : list nat) : bool :=
  forallb (λ i, match pb_route !! i with
                | Some e => negb (is_valid_id (atom_net_id e))
                            && (0 <=? prev_pb_pin_id e)
                            && bool_decide (Z.to_nat (prev_pb_pin_id e) ∈ pins)
                | None => false
                end) pins.

(** X11.  On a pin of a set of pins without nets that drive one another (a
    cycle of drivers, or a pin that drives itself), the recursion of
    [load_atom_index_for_pb_pin] exceeds every bound: it does not return. *)
Theorem unresolved_cycle_never_returns (pb_route : list t_pb_route)
    (pins : list nat) (i : nat) :
  closed_unresolved pb_route pins = true → i ∈ pins →
  ∀ fuel, load_atom_index_for_pb_pin fuel pb_route (Z.of_nat i) = Err OutOfFuel.
Proof.
  intros Hclosed Hi fuel. revert i Hi.
  unfold closed_unresolved in Hclosed. rewrite forallb_forall in Hclosed.
  induction fuel as [|fuel IH]; intros i Hi; [done|].
  cbn [load_atom_index_for_pb_pin].
  pose proof (Hclosed i (proj1 (list_elem_of_In _ _) Hi)) as Hpin.
  destruct (pb_route !! i) as [e|] eqn:He; [|done].
  apply andb_prop in Hpin as [Hpin Hdrv]. apply andb_prop in Hpin as [Hnet Hpos].
  apply bool_decide_eq_true in Hdrv. apply Z.leb_le in Hpos.
  rewrite (pb_route_at_lookup _ _ _ He). cbn [mbind result_bind].
  destruct (Z.eqb_spec (prev_pb_pin_id e) OPEN) as [Hopen|_];
    [unfold OPEN in Hopen; lia|].
  rewrite Hnet. cbn [negb VTR_ASSERT mbind result_bind].
  pose proof (Hclosed _ (proj1 (list_elem_of_In _ _) Hdrv)) as Hd.
  destruct (pb_route !! Z.to_nat (prev_pb_pin_id e)) as [d|] eqn:Hde; [|done].
  apply andb_prop in Hd as [Hd _]. apply andb_prop in Hd as [Hdnet _].
  rewrite (pb_route_at_Z _ _ _ Hpos Hde). cbn [mbind result_bind].
  rewrite Hdnet. cbn [negb].
  rewrite <- (Z2Nat.id (prev_pb_pin_id e)) at 1 by done.
  by rewrite (IH _ Hdrv).
Qed.

Lemma unresolved_cycle_never_returns_witness :
  load_atom_index_for_pb_pin 1000
    [route None 1; route None 2; route None 1; route (Some 4%nat) OPEN] (Z.of_nat 0)
  = Err OutOfFuel.
Proof.
  apply (unresolved_cycle_never_returns
           [route None 1; route None 2; route None 1; route (Some 4%nat) OPEN]
           [0; 1; 2]%nat 0%nat).
  - reflexivity.
  - left.
Defined.

(** *** A driver without a source *)

Lemma pb_route_at_Err R i err : pb_route_at R i = Err err → err = OutOfBounds.
Proof.
  unfold pb_route_at. destruct (i <? 0); [by intros [= <-]|].
  destruct (R !! Z.to_nat i); [done|by intros [= <-]].
Qed.

(** The only assertion a resolution started on a pin without a net can stop
    in is the first one. *)
Lemma load_atom_index_for_pb_pin_assertion : ∀ fuel R i what,
  (∀ e, pb_route_at R i = Ok e → is_valid_id (atom_net_id e) = false) →
  load_atom_index_for_pb_pin fuel R i = Err (AssertionFailed what) →
  what = "driver != OPEN".
Proof.
  induction fuel as [|fuel IH]; intros R i what Hnet; [discriminate|].
  cbn [load_atom_index_for_pb_pin].
  destruct (pb_route_at R i) as [e|err] eqn:He;
    [|apply pb_route_at_Err in He; by subst err].
  cbn [mbind result_bind].
  destruct (prev_pb_pin_id e =? OPEN); [by intros [= <-]|].
  rewrite (Hnet e eq_refl). cbn [negb VTR_ASSERT mbind result_bind].
  destruct (pb_route_at R (prev_pb_pin_id e)) as [d|err] eqn:Hd;
    [|apply pb_route_at_Err in Hd; by subst err].
  cbn [mbind result_bind].
  assert (∀ R1,
            (driver_entry ← pb_route_at R1 (prev_pb_pin_id e);
             entry ← pb_route_at R1 i;
             Ok (<[Z.to_nat i := {| atom_net_id := atom_net_id driver_entry;
                                    prev_pb_pin_id := prev_pb_pin_id entry |}]> R1))
            ≠ Err (AssertionFailed what)) as Hassign.
  { intros R1.
    destruct (pb_route_at R1 (prev_pb_pin_id e)) as [d1|err] eqn:H1;
      [|apply pb_route_at_Err in H1; by subst err].
    cbn [mbind result_bind].
    destruct (pb_route_at R1 i) as [e1|err] eqn:H2;
      [done|apply pb_route_at_Err in H2; by subst err]. }
  destruct (is_valid_id (atom_net_id d)) eqn:Hdv; cbn [negb].
  - intros E. by apply Hassign in E.
  - destruct (load_atom_index_for_pb_pin fuel R (prev_pb_pin_id e)) as [R1|err] eqn:E1;
      cbn [mbind result_bind].
    + intros E. by apply Hassign in E.
    + intros [= ->]. apply (IH R (prev_pb_pin_id e)); [|done].
      intros d'. rewrite Hd. by intros [= <-].
Qed.

Lemma fill_loop_assertion n : ∀ k a R what,
  for_each (seq a k)
    (λ pb_route i,
       entry ← pb_route_at pb_route (Z.of_nat i);
       if negb (prev_pb_pin_id entry =? OPEN) && negb (is_valid_id (atom_net_id entry))
       then load_atom_index_for_pb_pin n pb_route (Z.of_nat i)
       else Ok pb_route) R = Err (AssertionFailed what) →
  what = "driver != OPEN".
Proof.
  induction k as [|k IH]; intros a R what; [discriminate|].
  cbn [seq for_each].
  destruct (pb_route_at R (Z.of_nat a)) as [e|err] eqn:He;
    [|apply pb_route_at_Err in He; by subst err].
  cbn [mbind result_bind].
  destruct (negb (prev_pb_pin_id e =? OPEN)); cbn [andb].
  - destruct (is_valid_id (atom_net_id e)) eqn:Hnet; cbn [negb].
    + cbn [mbind result_bind]. apply IH.
    + destruct (load_atom_index_for_pb_pin n R (Z.of_nat a)) as [R1|err] eqn:E1;
        cbn [mbind result_bind]; [apply IH|].
      intros [= ->]. apply (load_atom_index_for_pb_pin_assertion n R (Z.of_nat a)); [|done].
      intros e'. rewrite He. by intros [= <-].
  - cbn [mbind result_bind]. apply IH.
Qed.

Lemma forallb_false {A} (f : A → bool) (l : list A) :
  forallb f l = false → ∃ x, x ∈ l ∧ f x = false.
Proof.
  induction l as [|x l IH]; [done|]. simpl.
  destruct (f x) eqn:Hx; simpl.
  - intros (y & Hy & Hf)%IH. exists y. split; [by right|done].
  - intros _. exists x. split; [left|done].
Qed.

(** X12.  On a table as [processPorts] leaves it (drivers inside the table,
    no cycle of drivers, no driven pin with a net), a pin whose driver has
    neither a net nor a driver of its own makes the fill stop in
    [VTR_ASSERT(driver != OPEN)]. *)
Theorem fill_stops_at_open_driver (rank : nat → nat) (pb_route : list t_pb_route) :
  prevs_in_range pb_route = true →
  ranks_decrease rank pb_route = true →
  driven_pins_unresolved pb_route = true →
  drivers_have_source pb_route = false →
  load_interal_to_block_net_nums (length pb_route) pb_route
  = Err (AssertionFailed "driver != OPEN").
Proof.
  intros Hrange%prevs_in_range_spec Hrank%ranks_decrease_spec
         Hagree%driven_pins_unresolved_spec Hsrc.
  pose proof (fill_loop rank (length pb_route) (length pb_route) 0%nat pb_route
                eq_refl eq_refl Hrange Hrank Hagree) as Hfill.
  pose proof (fill_loop_fills (length pb_route) (length pb_route) 0%nat pb_route)
    as Hframe.
  pose proof (fill_loop_assertion (length pb_route) (length pb_route) 0%nat pb_route)
    as Hwhat.
  unfold load_interal_to_block_net_nums.
  destruct (for_each _ _ _) as [R'|err].
  - (* the fill cannot have returned *)
    exfalso.
    destruct Hfill as (_ & Hagree' & Hres); [intros j e Hj; lia|].
    destruct (Hframe R' eq_refl) as [Hlen Hkeep].
    apply forallb_false in Hsrc as (e & Hin & He).
    apply list_elem_of_lookup_1 in Hin as [i Hi].
    apply orb_false_elim in He as [Hopen Hd].
    apply Z.eqb_neq in Hopen.
    destruct (Hrange i e Hi) as [?|Hdr]; [done|].
    destruct (lookup_lt_is_Some_2 pb_route (Z.to_nat (prev_pb_pin_id e))) as [d Hde];
      [lia|].
    rewrite Hde in Hd. apply orb_false_elim in Hd as [Hdnet Hdopen].
    apply negb_false_iff, Z.eqb_eq in Hdopen.
    destruct (Hkeep _ _ Hi) as (e' & Hi' & Hp' & _).
    destruct (Hkeep _ _ Hde) as (d' & Hde' & _ & Hd'). specialize (Hd' (or_introl Hdopen)).
    subst d'.
    assert (is_valid_id (atom_net_id e') = true) as Hv.
    { apply (Hres i e'); [by eapply lookup_lt_Some|done|congruence]. }
    destruct (Hagree' i e' Hi' ltac:(congruence) Hv) as (d'' & Hd'' & Hn).
    rewrite Hp', Hde' in Hd''. injection Hd'' as <-. congruence.
  - destruct err as [what| | | | |]; simpl in Hfill; try done;
      try (exfalso; apply Hfill; intros j e Hj; lia).
    by rewrite (Hwhat what eq_refl).
Qed.

Lemma fill_stops_at_open_driver_witness :
  load_interal_to_block_net_nums 3 [route None 1; route None 2; route None OPEN]
  = Err (AssertionFailed "driver != OPEN").
Proof.
  apply (fill_stops_at_open_driver (λ i, (3 - i)%nat)
           [route None 1; route None 2; route None OPEN]);
    reflexivity.
Defined.

End PbRoute.

(** ** The atom netlist *)

Module Atom.

Import TruthTable.

Inductive AtomBlockType := INPAD | OUTPAD | COMBINATIONAL | SEQUENTIAL.
Inductive AtomPortType := INPUT | OUTPUT | CLOCK.
Inductive AtomPinType := DRIVER | SINK.

#[global] Instance AtomBlockType_eq_dec : EqDecision AtomBlockType.
Proof. solve_decision. Defined.
#[global] Instance AtomPortType_eq_dec : EqDecision AtomPortType.
Proof. solve_decision. Defined.
#[global] Instance AtomPinType_eq_dec : EqDecision AtomPinType.
Proof. solve_decision. Defined.

(** Modelled from the spec: the class [AtomNetlist] ([atom_netlist.h/.cpp]) is
    outside the files at hand.  Section 3 gives its entities and section 4.1 its
    operations: parallel tables indexed by id, cross-references by id, removal
    that tombstones the id.  A table is a list indexed by id whose entry is
    [None] once the id is removed; an id is a [nat], and [option nat] where it
    may be [INVALID()]. *)
Record Block := {
  blk_name : string;
  blk_type : AtomBlockType;
  blk_model : string;               (* the name of the shared [t_model] *)
  blk_truth_table : TruthTable;
}.

Record Port := {
  prt_block : nat;
  prt_name : string;
  prt_type : AtomPortType;
  prt_width : nat;
}.

Record Pin := {
  pn_port : nat;
  pn_bit : nat;
  pn_type : AtomPinType;
  pn_net : option nat;
  pn_is_constant : bool;
}.

Record Net := {
  nt_name : string;
  nt_driver : option nat;
  nt_sinks : list nat;
  nt_is_constant : bool;
  nt_is_global : bool;
}.

Record AtomNetlist := {
  nl_blocks : list (option Block);
  nl_ports : list (option Port);
  nl_pins : list (option Pin);
  nl_nets : list (option Net);
}.

(** *** Queries *)

(** The entry of a live id; [None] for an id that is removed or was never
    given out. *)
Definition entry {A} (table : list (option A)) (id : nat) : option A :=
  match table !! id with
  | Some (Some x) => Some x
  | _ => None
  end.

(** The live ids of a table, in increasing order: what iterating
    [netlist.blocks()] or [netlist.nets()] visits after [if(!id) continue]. *)
Definition live_ids {A} (table : list (option A)) : list nat :=
  filter (λ id, is_Some (entry table id)) (seq 0 (length table)).

Definition block_type (nl : AtomNetlist) (blk : nat) : option AtomBlockType :=
  blk_type <$> entry (nl_blocks nl) blk.
Definition block_model (nl : AtomNetlist) (blk : nat) : option string :=
  blk_model <$> entry (nl_blocks nl) blk.
Definition block_truth_table (nl : AtomNetlist) (blk : nat) : option TruthTable :=
  blk_truth_table <$> entry (nl_blocks nl) blk.

Definition pin_net (nl : AtomNetlist) (pin : nat) : option nat :=
  entry (nl_pins nl) pin ≫= pn_net.
Definition pin_type (nl : AtomNetlist) (pin : nat) : option AtomPinType :=
  pn_type <$> entry (nl_pins nl) pin.
Definition pin_is_constant (nl : AtomNetlist) (pin : nat) : option bool :=
  pn_is_constant <$> entry (nl_pins nl) pin.
Definition pin_port (nl : AtomNetlist) (pin : nat) : option nat :=
  pn_port <$> entry (nl_pins nl) pin.
Definition port_block (nl : AtomNetlist) (port : nat) : option nat :=
  prt_block <$> entry (nl_ports nl) port.
Definition port_type (nl : AtomNetlist) (port : nat) : option AtomPortType :=
  prt_type <$> entry (nl_ports nl) port.
Definition pin_block (nl : AtomNetlist) (pin : nat) : option nat :=
  pin_port nl pin ≫= port_block nl.

Definition net_name (nl : AtomNetlist) (net : nat) : option string :=
  nt_name <$> entry (nl_nets nl) net.
Definition net_driver (nl : AtomNetlist) (net : nat) : option nat :=
  entry (nl_nets nl) net ≫= nt_driver.
Definition net_sinks (nl : AtomNetlist) (net : nat) : list nat :=
  default [] (nt_sinks <$> entry (nl_nets nl) net).
(** The driver slot followed by the sinks. *)
Definition net_pins (nl : AtomNetlist) (net : nat) : list (option nat) :=
  net_driver nl net :: (Some <$> net_sinks nl net).
Definition net_is_constant (nl : AtomNetlist) (net : nat) : bool :=
  default false (nt_is_constant <$> entry (nl_nets nl) net).

(** The live ports of a block with a direction, and the live pins on them. *)
Definition block_ports_of (nl : AtomNetlist) (blk : nat) (dir : AtomPortType)
    : list nat :=
  filter (λ port, port_block nl port = Some blk ∧ port_type nl port = Some dir)
         (seq 0 (length (nl_ports nl))).

Definition block_pins_of (nl : AtomNetlist) (blk : nat) (dir : AtomPortType)
    : list nat :=
  filter (λ pin, pin_block nl pin = Some blk
                 ∧ pin_port nl pin ≫= port_type nl = Some dir)
         (seq 0 (length (nl_pins nl))).

Definition block_input_ports nl blk := block_ports_of nl blk INPUT.
Definition block_output_ports nl blk := block_ports_of nl blk OUTPUT.
Definition block_clock_ports nl blk := block_ports_of nl blk CLOCK.
Definition block_input_pins nl blk := block_pins_of nl blk INPUT.
Definition block_output_pins nl blk := block_pins_of nl blk OUTPUT.
Definition block_clock_pins nl blk := block_pins_of nl blk CLOCK.

(** All live ports and pins of a block. *)
Definition block_ports (nl : AtomNetlist) (blk : nat) : list nat :=
  filter (λ port, port_block nl port = Some blk) (seq 0 (length (nl_ports nl))).
Definition block_pins (nl : AtomNetlist) (blk : nat) : list nat :=
  filter (λ pin, pin_block nl pin = Some blk) (seq 0 (length (nl_pins nl))).

Definition find_net (nl : AtomNetlist) (name : string) : option nat :=
  head (filter (λ net, net_name nl net = Some name) (seq 0 (length (nl_nets nl)))).

(** *** Mutators *)

(** A pin leaves its net: "sinks list compacted; driver set invalid if
    applicable". *)
Definition detach_pin (pin : nat) (net : Net) : Net :=
  {| nt_name := nt_name net;
     nt_driver := if decide (nt_driver net = Some pin) then None else nt_driver net;
     nt_sinks := filter (λ p, p ≠ pin) (nt_sinks net);
     nt_is_constant := nt_is_constant net;
     nt_is_global := nt_is_global net |}.

Definition remove_pin (nl : AtomNetlist) (pin : nat) : AtomNetlist :=
  {| nl_blocks := nl_blocks nl;
     nl_ports := nl_ports nl;
     nl_pins := <[pin := None]> (nl_pins nl);
     nl_nets := match pin_net nl pin with
                | Some net => alter (λ o : option Net, detach_pin pin <$> o) net (nl_nets nl)
                | None => nl_nets nl
                end |}.

Definition remove_port (nl : AtomNetlist) (port : nat) : AtomNetlist :=
  {| nl_blocks := nl_blocks nl;
     nl_ports := <[port := None]> (nl_ports nl);
     nl_pins := nl_pins nl;
     nl_nets := nl_nets nl |}.

(** [remove_block]: "Removes all its ports and pins; for each pin, it is
    detached from its net.  Does not remove the now-possibly-dangling
    nets." *)
Definition remove_block (nl : AtomNetlist) (blk : nat) : AtomNetlist :=
  let pins := block_pins nl blk in
  let ports := block_ports nl blk in
  let nl1 := foldl remove_pin nl pins in
  let nl2 := foldl remove_port nl1 ports in
  {| nl_blocks := <[blk := None]> (nl_blocks nl2);
     nl_ports := nl_ports nl2;
     nl_pins := nl_pins nl2;
     nl_nets := nl_nets nl2 |}.

Definition unbind_net (net : nat) (pin : Pin) : Pin :=
  {| pn_port := pn_port pin;
     pn_bit := pn_bit pin;
     pn_type := pn_type pin;
     pn_net := if decide (pn_net pin = Some net) then None else pn_net pin;
     pn_is_constant := pn_is_constant pin |}.

(** [remove_net]: "Sets net to invalid on every pin that referenced it." *)
Definition remove_net (nl : AtomNetlist) (net : nat) : AtomNetlist :=
  {| nl_blocks := nl_blocks nl;
     nl_ports := nl_ports nl;
     nl_pins := (λ o : option Pin, unbind_net net <$> o) <$> nl_pins nl;
     nl_nets := <[net := None]> (nl_nets nl) |}.

Definition bind_net (net : nat) (pin : Pin) : Pin :=
  {| pn_port := pn_port pin;
     pn_bit := pn_bit pin;
     pn_type := pn_type pin;
     pn_net := Some net;
     pn_is_constant := pn_is_constant pin |}.

(** [add_net]: "Fails (DuplicateName) if the name is live; rebinds each
    supplied pin's net to the new net."  The new net takes the next id; the
    spec leaves its flags open, they start cleared. *)
Definition add_net (nl : AtomNetlist) (name : string) (driver : option nat)
    (sinks : list nat) : result (AtomNetlist * nat) :=
  match find_net nl name with
  | Some _ => Err (VprThrow "DuplicateName")
  | None =>
      let net := length (nl_nets nl) in
      let supplied := from_option (λ d, [d]) [] driver ++ sinks in
      Ok ({| nl_blocks := nl_blocks nl;
             nl_ports := nl_ports nl;
             nl_pins := foldl (λ pins pin, alter (λ o : option Pin, bind_net net <$> o) pin pins)
                              (nl_pins nl) supplied;
             nl_nets := nl_nets nl ++ [Some {| nt_name := name;
                                               nt_driver := driver;
                                               nt_sinks := sinks;
                                               nt_is_constant := false;
                                               nt_is_global := false |}] |},
          net)
  end.

(** *** Buffer LUTs ([atom_netlist_utils.c]) *)

(** A query whose answer is not an id (a name, a truth table, the first
    element of a range) needs a valid id. *)
Definition require {A} (what : string) (o : option A) : result A :=
  match o with
  | Some a => Ok a
  | None => Err (AssertionFailed what)
  end.

(** [n - 1] on a [size_t]: it wraps around at zero. *)
Definition size_minus_one (n : nat) : Z :=
  if decide (n = 0%nat) then 2 ^ 64 - 1 else Z.of_nat n - 1.

Definition connected_pins (nl : AtomNetlist) (pins : list nat) : nat :=
  length (filter (λ pin, is_Some (pin_net nl pin)) pins).

Definition is_identity_row (row : list LogicValue) : bool :=
  match row !! 0%nat, row !! 1%nat with
  | Some TRUE, Some TRUE => true
  | Some FALSE, Some FALSE => true
  | _, _ => false
  end.

Definition is_buffer_lut (nl : AtomNetlist) (blk : nat) : result bool :=
  if decide (block_type nl blk = Some COMBINATIONAL) then
    if decide (block_model nl blk = Some "names") then
      let input_ports := block_input_ports nl blk in
      let output_ports := block_output_ports nl blk in
      if (length input_ports =? 1)%nat && (length output_ports =? 1)%nat then
        let connected_input_pins := connected_pins nl (block_input_pins nl blk) in
        let connected_output_pins := connected_pins nl (block_output_pins nl blk) in
        if (connected_input_pins =? 1)%nat && (connected_output_pins =? 1)%nat then
          truth_table ← require "valid block id" (block_truth_table nl blk);
          _ ← VTR_ASSERT "One truth-table row" (length truth_table =? 1)%nat;
          row ← require "truth_table[0]" (truth_table !! 0%nat);
          _ ← VTR_ASSERT "Two truth-table row entries" (length row =? 2)%nat;
          Ok (is_identity_row row)
        else Ok false
      else Ok false
    else Ok false
  else Ok false.

(** [std::any_of] with a predicate that may stop in an assertion: the
    elements are tested in order up to the first that satisfies it. *)
Fixpoint any_of {A} (l : list A) (pred : A → result bool) : result bool :=
  match l with
  | [] => Ok false
  | x :: rest => b ← pred x; if b : bool then Ok true else any_of rest pred
  end.

Definition pin_is_on (nl : AtomNetlist) (kind : AtomBlockType) (pin : nat) : bool :=
  bool_decide (pin_block nl pin ≫= block_type nl = Some kind).

(** [remove_buffer_lut]; the netlist is passed and returned. *)
Definition remove_buffer_lut (nl : AtomNetlist) (blk : nat) : result AtomNetlist :=
  let input_pins := block_input_pins nl blk in
  let output_pins := block_output_pins nl blk in
  _ ← VTR_ASSERT "input_pins.size() == 1" (length input_pins =? 1)%nat;
  _ ← VTR_ASSERT "output_pins.size() == 1" (length output_pins =? 1)%nat;
  input_pin ← require "*input_pins.begin()" (head input_pins);
  output_pin ← require "*output_pins.begin()" (head output_pins);
  let input_net := pin_net nl input_pin in
  let output_net := pin_net nl output_pin in
  (* the new driver and sinks *)
  let new_driver := input_net ≫= net_driver nl in
  _ ← VTR_ASSERT "netlist.pin_type(new_driver) == AtomPinType::DRIVER"
                 (bool_decide (new_driver ≫= pin_type nl = Some DRIVER));
  let input_sinks := from_option (net_sinks nl) [] input_net in
  let output_sinks := from_option (net_sinks nl) [] output_net in
  let new_sinks := filter (λ id, id ≠ input_pin) input_sinks ++ output_sinks in
  _ ← VTR_ASSERT "new_sinks.size() == input_sinks.size() + output_sinks.size() - 1"
        (Z.of_nat (length new_sinks)
         =? size_minus_one (length input_sinks + length output_sinks));
  (* the name of the new net *)
  let driver_is_pi := from_option (pin_is_on nl INPAD) false new_driver in
  po_in_sinks ← any_of new_sinks
    (λ pin_id,
       _ ← VTR_ASSERT "netlist.pin_type(pin_id) == AtomPinType::SINK"
                      (bool_decide (pin_type nl pin_id = Some SINK));
       Ok (pin_is_on nl OUTPAD pin_id));
  if driver_is_pi && po_in_sinks then
    (* a buffered connection from a primary input to a primary output *)
    Ok nl
  else
    new_net_name ← require "valid net id"
      (if negb driver_is_pi && negb po_in_sinks then output_net ≫= net_name nl
       else if driver_is_pi && negb po_in_sinks then input_net ≫= net_name nl
       else output_net ≫= net_name nl);
    input_net ← require "valid net id" input_net;
    output_net ← require "valid net id" output_net;
    let initial_input_net_pins := length (net_pins nl input_net) in
    (* remove the buffer *)
    let nl := remove_block nl blk in
    _ ← VTR_ASSERT "netlist.net_pins(input_net).size() == initial_input_net_pins - 1"
          (Z.of_nat (length (net_pins nl input_net))
           =? size_minus_one initial_input_net_pins);
    _ ← VTR_ASSERT "netlist.net_driver(output_net) == AtomPinId::INVALID()"
          (bool_decide (net_driver nl output_net = None));
    (* remove the nets *)
    let nl := remove_net nl input_net in
    let nl := remove_net nl output_net in
    (* create the new merged net *)
    '(nl, _) ← add_net nl new_net_name new_driver new_sinks;
    Ok nl.

(** *** Sweeping ([atom_netlist_utils.c]) *)

Definition is_removable_block (nl : AtomNetlist) (blk_id : nat) : bool :=
  forallb (λ pin_id, negb (bool_decide (is_Some (pin_net nl pin_id))))
          (block_output_pins nl blk_id).

Definition is_removable_input (nl : AtomNetlist) (blk_id : nat) : bool :=
  if decide (block_type nl blk_id = Some INPAD)
  then is_removable_block nl blk_id else false.

Definition is_removable_output (nl : AtomNetlist) (blk_id : nat) : bool :=
  if decide (block_type nl blk_id = Some OUTPAD)
  then forallb (λ pin_id, negb (bool_decide (is_Some (pin_net nl pin_id))))
               (block_input_pins nl blk_id)
  else false.

(** The three block sweeps collect the blocks to remove in an
    [std::unordered_set] and then remove them; the set is a list here, in
    increasing id order (the order of iteration of the set is unspecified; the
    removals of distinct blocks do not interfere). *)
Definition sweep_blocks (nl : AtomNetlist) : AtomNetlist * nat :=
  let blocks_to_remove :=
    filter (λ blk_id, block_type nl blk_id ≠ Some INPAD
                      ∧ block_type nl blk_id ≠ Some OUTPAD
                      ∧ is_removable_block nl blk_id = true)
           (live_ids (nl_blocks nl)) in
  (foldl remove_block nl blocks_to_remove, length blocks_to_remove).

Definition sweep_inputs (nl : AtomNetlist) : AtomNetlist * nat :=
  let inputs_to_remove :=
    filter (λ blk_id, is_removable_input nl blk_id = true) (live_ids (nl_blocks nl)) in
  (foldl remove_block nl inputs_to_remove, length inputs_to_remove).

Definition sweep_outputs (nl : AtomNetlist) : AtomNetlist * nat :=
  let outputs_to_remove :=
    filter (λ blk_id, is_removable_output nl blk_id = true) (live_ids (nl_blocks nl)) in
  (foldl remove_block nl outputs_to_remove, length outputs_to_remove).

Definition sweep_nets (nl : AtomNetlist) : AtomNetlist * nat :=
  let nets_to_remove :=
    filter (λ net_id, net_driver nl net_id = None ∨ length (net_sinks nl net_id) = 0%nat)
           (live_ids (nl_nets nl)) in
  (foldl remove_net nl nets_to_remove, length nets_to_remove).

(** The body of the loop of [sweep_constant_primary_outputs] for one id of
    [netlist.blocks()]. *)
Definition sweep_constant_primary_output (st : AtomNetlist * nat) (blk_id : nat)
    : result (AtomNetlist * nat) :=
  let '(nl, removed_count) := st in
  if decide (block_type nl blk_id = Some OUTPAD) then
    _ ← VTR_ASSERT "netlist.block_output_pins(blk_id).size() == 0"
                   (length (block_output_pins nl blk_id) =? 0)%nat;
    _ ← VTR_ASSERT "netlist.block_clock_pins(blk_id).size() == 0"
                   (length (block_clock_pins nl blk_id) =? 0)%nat;
    let all_inputs_are_const :=
      forallb (λ pin_id, match pin_net nl pin_id with
                         | Some net_id => net_is_constant nl net_id
                         | None => true
                         end) (block_input_pins nl blk_id) in
    if all_inputs_are_const then Ok (remove_block nl blk_id, S removed_count)
    else Ok (nl, removed_count)
  else Ok (nl, removed_count).

Definition sweep_constant_primary_outputs (nl : AtomNetlist)
    : result (AtomNetlist * nat) :=
  for_each (seq 0 (length (nl_blocks nl))) sweep_constant_primary_output (nl, 0%nat).

(** The numbers of one pass, or of all passes so far. *)
Record swept := {
  dangling_nets_swept : nat;
  dangling_blocks_swept : nat;
  dangling_inputs_swept : nat;
  dangling_outputs_swept : nat;
  constant_outputs_swept : nat;
}.

Definition nothing_swept : swept :=
  {| dangling_nets_swept := 0; dangling_blocks_swept := 0;
     dangling_inputs_swept := 0; dangling_outputs_swept := 0;
     constant_outputs_swept := 0 |}.

Definition swept_total (c : swept) : nat :=
  (dangling_nets_swept c + dangling_blocks_swept c + dangling_inputs_swept c
   + dangling_outputs_swept c + constant_outputs_swept c)%nat.

(** The body of the [do ... while] of [sweep_iterative] up to the updates of
    the totals: one pass and what it removed. *)
Definition sweep_pass (nl : AtomNetlist)
    (should_sweep_ios should_sweep_nets should_sweep_blocks
     should_sweep_constant_primary_outputs : bool)
    : result (AtomNetlist * swept) :=
  let '(nl, pass_dangling_inputs_swept) :=
    if should_sweep_ios then sweep_inputs nl else (nl, 0%nat) in
  let '(nl, pass_dangling_outputs_swept) :=
    if should_sweep_ios then sweep_outputs nl else (nl, 0%nat) in
  let '(nl, pass_dangling_blocks_swept) :=
    if should_sweep_blocks then sweep_blocks nl else (nl, 0%nat) in
  let '(nl, pass_dangling_nets_swept) :=
    if should_sweep_nets then sweep_nets nl else (nl, 0%nat) in
  '(nl, pass_constant_outputs_swept) ←
    (if should_sweep_constant_primary_outputs
     then sweep_constant_primary_outputs nl else Ok (nl, 0%nat));
  Ok (nl, {| dangling_nets_swept := pass_dangling_nets_swept;
             dangling_blocks_swept := pass_dangling_blocks_swept;
             dangling_inputs_swept := pass_dangling_inputs_swept;
             dangling_outputs_swept := pass_dangling_outputs_swept;
             constant_outputs_swept := pass_constant_outputs_swept |}).

(** The updates of the totals at the end of a pass, as the source has them:
    the total of the inputs is advanced by the outputs of the pass. *)
Definition add_pass (total pass : swept) : swept :=
  {| dangling_nets_swept := dangling_nets_swept total + dangling_nets_swept pass;
     dangling_blocks_swept := dangling_blocks_swept total + dangling_blocks_swept pass;
     dangling_inputs_swept := dangling_inputs_swept total + dangling_outputs_swept pass;
     dangling_outputs_swept := dangling_outputs_swept total + dangling_outputs_swept pass;
     constant_outputs_swept := constant_outputs_swept total + constant_outputs_swept pass |}.

Definition pass_swept_something (pass : swept) : bool :=
  negb (dangling_nets_swept pass =? 0)%nat
  || negb (dangling_blocks_swept pass =? 0)%nat
  || negb (dangling_inputs_swept pass =? 0)%nat
  || negb (dangling_outputs_swept pass =? 0)%nat
  || negb (constant_outputs_swept pass =? 0)%nat.

(** The [do ... while] loop; [passes] bounds the number of passes. *)
Fixpoint sweep_loop (passes : nat) (nl : AtomNetlist)
    (ios nets blocks cpo : bool) (total : swept) : result (AtomNetlist * swept) :=
  match passes with
  | O => Err OutOfFuel
  | S passes' =>
      '(nl, pass) ← sweep_pass nl ios nets blocks cpo;
      let total := add_pass total pass in
      if pass_swept_something pass
      then sweep_loop passes' nl ios nets blocks cpo total
      else Ok (nl, total)
  end.

(** The number of live entries of a table. *)
Definition num_live {A} (table : list (option A)) : nat :=
  length (filter (λ o : option A, is_Some o) table).

(** [sweep_iterative]: the netlist after the sweep and the number returned.
    Every pass but the last removes a block or a net, so there are at most as
    many passes as live blocks and nets, and one. *)
Definition sweep_iterative (nl : AtomNetlist)
    (should_sweep_ios should_sweep_nets should_sweep_blocks
     should_sweep_constant_primary_outputs : bool) : result (AtomNetlist * nat) :=
  '(nl, total) ← sweep_loop (S (num_live (nl_blocks nl) + num_live (nl_nets nl))) nl
                   should_sweep_ios should_sweep_nets should_sweep_blocks
                   should_sweep_constant_primary_outputs nothing_swept;
  Ok (nl, swept_total total).

(** *** Small netlists *)

Definition a_block (name : string) (kind : AtomBlockType) (model : string)
    (table : TruthTable) : option Block :=
  Some {| blk_name := name; blk_type := kind; blk_model := model;
          blk_truth_table := table |}.

Definition a_port (blk : nat) (name : string) (dir : AtomPortType) : option Port :=
  Some {| prt_block := blk; prt_name := name; prt_type := dir; prt_width := 1 |}.

Definition a_pin (port : nat) (type : AtomPinType) (net : option nat) : option Pin :=
  Some {| pn_port := port; pn_bit := 0; pn_type := type; pn_net := net;
          pn_is_constant := false |}.

Definition a_net (name : string) (driver : option nat) (sinks : list nat)
    : option Net :=
  Some {| nt_name := name; nt_driver := driver; nt_sinks := sinks;
          nt_is_constant := false; nt_is_global := false |}.

(** Input pad [x], buffer LUT [b], output pad [out:y]:
    [x -(net x)-> b -(net y)-> out:y]. *)
Definition pad_buffer_pad : AtomNetlist :=
  {| nl_blocks := [a_block "x" INPAD "input" [];
                   a_block "b" COMBINATIONAL "names" [[TRUE; TRUE]];
                   a_block "out:y" OUTPAD "output" []];
     nl_ports := [a_port 0 "inpad" OUTPUT; a_port 1 "in" INPUT;
                  a_port 1 "out" OUTPUT; a_port 2 "outpad" INPUT];
     nl_pins := [a_pin 0 DRIVER (Some 0%nat); a_pin 1 SINK (Some 0%nat);
                 a_pin 2 DRIVER (Some 1%nat); a_pin 3 SINK (Some 1%nat)];
     nl_nets := [a_net "x" (Some 0%nat) [1%nat]; a_net "y" (Some 2%nat) [3%nat]] |}.

(** Input pad [x] feeds the buffer [b] and the output pad [out:x]; the buffer
    feeds the LUT [g], which drives the output pad [out:z]. *)
Definition pad_fanout_buffer : AtomNetlist :=
  {| nl_blocks := [a_block "x" INPAD "input" [];
                   a_block "b" COMBINATIONAL "names" [[TRUE; TRUE]];
                   a_block "out:x" OUTPAD "output" [];
                   a_block "g" COMBINATIONAL "names" [[FALSE; TRUE]];
                   a_block "out:z" OUTPAD "output" []];
     nl_ports := [a_port 0 "inpad" OUTPUT; a_port 1 "in" INPUT;
                  a_port 1 "out" OUTPUT; a_port 2 "outpad" INPUT;
                  a_port 3 "in" INPUT; a_port 3 "out" OUTPUT;
                  a_port 4 "outpad" INPUT];
     nl_pins := [a_pin 0 DRIVER (Some 0%nat); a_pin 1 SINK (Some 0%nat);
                 a_pin 2 DRIVER (Some 1%nat); a_pin 3 SINK (Some 0%nat);
                 a_pin 4 SINK (Some 1%nat); a_pin 5 DRIVER (Some 2%nat);
                 a_pin 6 SINK (Some 2%nat)];
     nl_nets := [a_net "x" (Some 0%nat) [1%nat; 3%nat];
                 a_net "w" (Some 2%nat) [4%nat];
                 a_net "z" (Some 5%nat) [6%nat]] |}.

(** The LUT [f] feeds the buffer [b], which feeds the LUT [g]; [f] is fed by
    the input pad [a] and [g] drives the output pad [out:z]. *)
Definition lut_buffer_lut : AtomNetlist :=
  {| nl_blocks := [a_block "a" INPAD "input" [];
                   a_block "f" COMBINATIONAL "names" [[FALSE; TRUE]];
                   a_block "b" COMBINATIONAL "names" [[FALSE; FALSE]];
                   a_block "g" COMBINATIONAL "names" [[FALSE; TRUE]];
                   a_block "out:z" OUTPAD "output" []];
     nl_ports := [a_port 0 "inpad" OUTPUT;
                  a_port 1 "in" INPUT; a_port 1 "out" OUTPUT;
                  a_port 2 "in" INPUT; a_port 2 "out" OUTPUT;
                  a_port 3 "in" INPUT; a_port 3 "out" OUTPUT;
                  a_port 4 "outpad" INPUT];
     nl_pins := [a_pin 0 DRIVER (Some 0%nat);
                 a_pin 1 SINK (Some 0%nat); a_pin 2 DRIVER (Some 1%nat);
                 a_pin 3 SINK (Some 1%nat); a_pin 4 DRIVER (Some 2%nat);
                 a_pin 5 SINK (Some 2%nat); a_pin 6 DRIVER (Some 3%nat);
                 a_pin 7 SINK (Some 3%nat)];
     nl_nets := [a_net "a" (Some 0%nat) [1%nat];
                 a_net "u" (Some 2%nat) [3%nat];
                 a_net "v" (Some 4%nat) [5%nat];
                 a_net "z" (Some 6%nat) [7%nat]] |}.

(** An input pad that drives nothing. *)
Definition lone_input : AtomNetlist :=
  {| nl_blocks := [a_block "x" INPAD "input" []];
     nl_ports := [a_port 0 "inpad" OUTPUT];
     nl_pins := [a_pin 0 DRIVER None];
     nl_nets := [] |}.

(** An output pad that nothing drives. *)
Definition lone_output : AtomNetlist :=
  {| nl_blocks := [a_block "out:y" OUTPAD "output" []];
     nl_ports := [a_port 0 "outpad" INPUT];
     nl_pins := [a_pin 0 SINK None];
     nl_nets := [] |}.

(** *** Tables and their live entries *)

Lemma entry_Some {A} (table : list (option A)) id x :
  entry table id = Some x ↔ table !! id = Some (Some x).
Proof.
  unfold entry. destruct (table !! id) as [[y|]|]; split; congruence.
Qed.

Lemma entry_tombstone_ne {A} (table : list (option A)) i j :
  i ≠ j → entry (<[i := None]> table) j = entry table j.
Proof. intros Hne. unfold entry. by rewrite list_lookup_insert_ne. Qed.

Lemma entry_tombstone_eq {A} (table : list (option A)) i :
  entry (<[i := None]> table) i = None.
Proof.
  unfold entry. destruct (decide (i < length table)%nat) as [Hlt|Hge].
  - by rewrite list_lookup_insert_eq.
  - rewrite list_insert_ge by lia. by rewrite lookup_ge_None_2 by lia.
Qed.

Lemma num_live_cons_Some {A} (x : A) table :
  num_live (Some x :: table) = S (num_live table).
Proof. unfold num_live. by rewrite filter_cons_True by by eexists. Qed.

Lemma num_live_cons_None {A} (table : list (option A)) :
  num_live (None :: table) = num_live table.
Proof. unfold num_live. rewrite filter_cons_False; [done|]. by intros [? ?]. Qed.

Lemma num_live_tombstone {A} (table : list (option A)) : ∀ i x,
  table !! i = Some (Some x) →
  S (num_live (<[i := None]> table)) = num_live table.
Proof.
  induction table as [|o table IH]; intros [|i] x H; simpl in *; try done.
  - injection H as ->. by rewrite num_live_cons_None, num_live_cons_Some.
  - destruct o.
    + rewrite !num_live_cons_Some. f_equal. by eapply IH.
    + rewrite !num_live_cons_None. by eapply IH.
Qed.

Lemma num_live_alter {A} (f : A → A) (table : list (option A)) : ∀ i,
  num_live (alter (λ o : option A, f <$> o) i table) = num_live table.
Proof.
  induction table as [|o table IH]; intros [|i]; simpl; try done.
  - destruct o; simpl; by rewrite ?num_live_cons_Some, ?num_live_cons_None.
  - change (list_alter ?g i table) with (alter g i table).
    destruct o; rewrite ?num_live_cons_Some, ?num_live_cons_None; by rewrite IH.
Qed.

Lemma live_ids_live {A} (table : list (option A)) id :
  id ∈ live_ids table → is_Some (entry table id).
Proof. unfold live_ids. by intros [? _]%list_elem_of_filter. Qed.

Lemma live_ids_NoDup {A} (table : list (option A)) : NoDup (live_ids table).
Proof. apply NoDup_filter, NoDup_seq. Qed.

(** *** What the mutators do to the tables of blocks and nets *)

Lemma remove_pins_blocks pins : ∀ nl,
  nl_blocks (foldl remove_pin nl pins) = nl_blocks nl.
Proof. induction pins as [|p pins IH]; intros nl; simpl; [done|]. by rewrite IH. Qed.

Lemma remove_pins_nets_live pins : ∀ nl,
  num_live (nl_nets (foldl remove_pin nl pins)) = num_live (nl_nets nl).
Proof.
  induction pins as [|p pins IH]; intros nl; simpl; [done|].
  rewrite IH. unfold remove_pin. simpl.
  destruct (pin_net nl p); [apply num_live_alter|done].
Qed.

Lemma remove_ports_blocks ports : ∀ nl,
  nl_blocks (foldl remove_port nl ports) = nl_blocks nl.
Proof. induction ports as [|p ports IH]; intros nl; simpl; [done|]. by rewrite IH. Qed.

Lemma remove_ports_nets ports : ∀ nl,
  nl_nets (foldl remove_port nl ports) = nl_nets nl.
Proof. induction ports as [|p ports IH]; intros nl; simpl; [done|]. by rewrite IH. Qed.

Lemma remove_block_blocks nl blk :
  nl_blocks (remove_block nl blk) = <[blk := None]> (nl_blocks nl).
Proof.
  unfold remove_block. simpl. by rewrite remove_ports_blocks, remove_pins_blocks.
Qed.

Lemma remove_block_nets_live nl blk :
  num_live (nl_nets (remove_block nl blk)) = num_live (nl_nets nl).
Proof.
  unfold remove_block. simpl. by rewrite remove_ports_nets, remove_pins_nets_live.
Qed.

(** Removing live, pairwise distinct blocks. *)
Lemma remove_blocks_live blks : ∀ nl,
  NoDup blks → (∀ blk, blk ∈ blks → is_Some (entry (nl_blocks nl) blk)) →
  (num_live (nl_blocks (foldl remove_block nl blks)) + length blks
   = num_live (nl_blocks nl))%nat
  ∧ num_live (nl_nets (foldl remove_block nl blks)) = num_live (nl_nets nl).
Proof.
  induction blks as [|blk blks IH]; intros nl Hnd Hlive; simpl.
  - split; [lia|done].
  - apply NoDup_cons in Hnd as [Hnotin Hnd].
    destruct (Hlive blk) as [b Hb]; [left|].
    apply entry_Some in Hb.
    destruct (IH (remove_block nl blk) Hnd) as [H1 H2].
    { intros blk' Hin. rewrite remove_block_blocks, entry_tombstone_ne.
      - apply Hlive. by right.
      - intros ->. done. }
    rewrite remove_block_blocks in H1.
    pose proof (num_live_tombstone _ _ _ Hb) as Ht.
    rewrite remove_block_nets_live in H2. split; [lia|done].
Qed.

Lemma remove_nets_live nets : ∀ nl,
  NoDup nets → (∀ net, net ∈ nets → is_Some (entry (nl_nets nl) net)) →
  (num_live (nl_nets (foldl remove_net nl nets)) + length nets
   = num_live (nl_nets nl))%nat
  ∧ nl_blocks (foldl remove_net nl nets) = nl_blocks nl.
Proof.
  induction nets as [|net nets IH]; intros nl Hnd Hlive; simpl.
  - split; [lia|done].
  - apply NoDup_cons in Hnd as [Hnotin Hnd].
    destruct (Hlive net) as [n Hn]; [left|].
    apply entry_Some in Hn.
    destruct (IH (remove_net nl net) Hnd) as [H1 H2].
    { intros net' Hin. simpl. rewrite entry_tombstone_ne.
      - apply Hlive. by right.
      - intros ->. done. }
    simpl in H1, H2.
    pose proof (num_live_tombstone _ _ _ Hn) as Ht. split; [lia|done].
Qed.

(** *** Removals only take entries away *)

(** [nl'] comes from [nl] by removals: its live blocks and ports are live
    blocks and ports of [nl], and its live pins are live pins of [nl] on the
    same port. *)
Definition shrinks (nl nl' : AtomNetlist) : Prop :=
  (∀ blk b, entry (nl_blocks nl') blk = Some b → entry (nl_blocks nl) blk = Some b)
  ∧ (∀ port p, entry (nl_ports nl') port = Some p → entry (nl_ports nl) port = Some p)
  ∧ (∀ pin p', entry (nl_pins nl') pin = Some p' →
       ∃ p, entry (nl_pins nl) pin = Some p ∧ pn_port p' = pn_port p).

Lemma shrinks_refl nl : shrinks nl nl.
Proof. repeat split; eauto. Qed.

Lemma shrinks_trans nl1 nl2 nl3 : shrinks nl1 nl2 → shrinks nl2 nl3 → shrinks nl1 nl3.
Proof.
  intros (B12 & P12 & N12) (B23 & P23 & N23). repeat split; eauto.
  intros pin p3 H3. destruct (N23 _ _ H3) as (p2 & H2 & E2).
  destruct (N12 _ _ H2) as (p1 & H1 & E1). exists p1. split; [done|congruence].
Qed.

Lemma shrinks_foldl {X} (f : AtomNetlist → X → AtomNetlist) (l : list X) :
  (∀ nl x, shrinks nl (f nl x)) → ∀ nl, shrinks nl (foldl f nl l).
Proof.
  intros Hf. induction l as [|x l IH]; intros nl; simpl; [apply shrinks_refl|].
  eapply shrinks_trans; [apply Hf|apply IH].
Qed.

Lemma entry_tombstone_Some {A} (table : list (option A)) i j x :
  entry (<[i := None]> table) j = Some x → entry table j = Some x.
Proof.
  destruct (decide (i = j)) as [->|Hne].
  - by rewrite entry_tombstone_eq.
  - by rewrite entry_tombstone_ne.
Qed.

Lemma remove_pin_shrinks nl pin : shrinks nl (remove_pin nl pin).
Proof.
  repeat split; simpl; eauto.
  intros q p' H. apply entry_tombstone_Some in H. eauto.
Qed.

Lemma remove_port_shrinks nl port : shrinks nl (remove_port nl port).
Proof.
  repeat split; simpl; eauto. intros q p H. by apply entry_tombstone_Some in H.
Qed.

Lemma remove_block_shrinks nl blk : shrinks nl (remove_block nl blk).
Proof.
  unfold remove_block.
  set (nl1 := foldl remove_pin nl (block_pins nl blk)).
  set (nl2 := foldl remove_port nl1 (block_ports nl blk)).
  assert (shrinks nl nl2) as (B & P & N).
  { apply (shrinks_trans _ nl1).
    - apply (shrinks_foldl remove_pin), remove_pin_shrinks.
    - apply (shrinks_foldl remove_port), remove_port_shrinks. }
  repeat split; simpl; eauto.
  intros b x H. apply entry_tombstone_Some in H. eauto.
Qed.

Lemma remove_net_shrinks nl net : shrinks nl (remove_net nl net).
Proof.
  repeat split; simpl; eauto.
  intros pin p' H. apply entry_Some in H. rewrite list_lookup_fmap in H.
  destruct (nl_pins nl !! pin) as [[p|]|] eqn:Hp; simpl in H; try done.
  injection H as <-. exists p. split; [by apply entry_Some|done].
Qed.

Lemma shrinks_block_type nl nl' blk kind :
  shrinks nl nl' → block_type nl' blk = Some kind → block_type nl blk = Some kind.
Proof.
  intros (B & _ & _). unfold block_type.
  destruct (entry (nl_blocks nl') blk) as [b|] eqn:Hb; [|done].
  by rewrite (B _ _ Hb).
Qed.

Lemma shrinks_block_pins_of nl nl' blk dir pin :
  shrinks nl nl' → pin ∈ block_pins_of nl' blk dir → pin ∈ block_pins_of nl blk dir.
Proof.
  intros (_ & P & N). unfold block_pins_of.
  rewrite !list_elem_of_filter, !elem_of_seq.
  unfold pin_block, pin_port, port_block, port_type.
  intros ((Hb & Hd) & Hrange).
  destruct (entry (nl_pins nl') pin) as [p'|] eqn:Hp'; [|done].
  destruct (N _ _ Hp') as (p & Hp & Eport). simpl in *.
  destruct (entry (nl_ports nl') (pn_port p')) as [q|] eqn:Hq; [|done].
  pose proof (P _ _ Hq) as Hq0. rewrite Eport in Hq0.
  rewrite Hp. simpl. rewrite Hq0. simpl in *. split; [done|].
  apply entry_Some, lookup_lt_Some in Hp. lia.
Qed.

(** Invariant 5 for output pads: no output pin, no clock pin. *)
Definition outpads_ok (nl : AtomNetlist) : Prop :=
  ∀ blk, block_type nl blk = Some OUTPAD →
    block_output_pins nl blk = [] ∧ block_clock_pins nl blk = [].

Lemma shrinks_outpads_ok nl nl' : shrinks nl nl' → outpads_ok nl → outpads_ok nl'.
Proof.
  intros Hs Hok blk Hty.
  destruct (Hok blk (shrinks_block_type _ _ _ _ Hs Hty)) as [Ho Hc].
  unfold block_output_pins, block_clock_pins in *.
  split; apply elem_of_nil_inv; intros pin Hin;
    apply (shrinks_block_pins_of _ _ _ _ _ Hs) in Hin.
  - rewrite Ho in Hin. by apply not_elem_of_nil in Hin.
  - rewrite Hc in Hin. by apply not_elem_of_nil in Hin.
Qed.

(** *** One pass of the sweep *)

Definition live_total (nl : AtomNetlist) : nat :=
  (num_live (nl_blocks nl) + num_live (nl_nets nl))%nat.

(** What a sweep of [n] elements does: [n] live blocks or nets fewer, nothing
    changed when [n] is zero, and only removals. *)
Definition sweeps (nl : AtomNetlist) (r : AtomNetlist * nat) : Prop :=
  (live_total r.1 + r.2 = live_total nl)%nat
  ∧ (r.2 = 0%nat → r.1 = nl)
  ∧ shrinks nl r.1.

Lemma remove_filtered_blocks (P : nat → Prop) `{!∀ x, Decision (P x)} nl :
  sweeps nl (foldl remove_block nl (filter P (live_ids (nl_blocks nl))),
             length (filter P (live_ids (nl_blocks nl)))).
Proof.
  set (blks := filter P (live_ids (nl_blocks nl))).
  destruct (remove_blocks_live blks nl) as [H1 H2].
  { apply NoDup_filter, live_ids_NoDup. }
  { intros blk [_ Hin]%list_elem_of_filter. by apply live_ids_live. }
  unfold sweeps, live_total. simpl. split; [lia|]. split.
  - intros Hnil. apply nil_length_inv in Hnil. by rewrite Hnil.
  - apply (shrinks_foldl remove_block), remove_block_shrinks.
Qed.

Lemma sweep_blocks_sweeps nl : sweeps nl (sweep_blocks nl).
Proof. apply remove_filtered_blocks. Qed.

Lemma sweep_inputs_sweeps nl : sweeps nl (sweep_inputs nl).
Proof. apply remove_filtered_blocks. Qed.

Lemma sweep_outputs_sweeps nl : sweeps nl (sweep_outputs nl).
Proof. apply remove_filtered_blocks. Qed.

Lemma sweep_nets_sweeps nl : sweeps nl (sweep_nets nl).
Proof.
  unfold sweep_nets.
  set (nets := filter _ (live_ids (nl_nets nl))).
  destruct (remove_nets_live nets nl) as [H1 H2].
  { apply NoDup_filter, live_ids_NoDup. }
  { intros net [_ Hin]%list_elem_of_filter. by apply live_ids_live. }
  unfold sweeps, live_total. simpl. rewrite H2. split; [lia|]. split.
  - intros Hnil. apply nil_length_inv in Hnil. by rewrite Hnil.
  - apply (shrinks_foldl remove_net), remove_net_shrinks.
Qed.

Lemma sweeps_nothing nl : sweeps nl (nl, 0%nat).
Proof. unfold sweeps. simpl. split; [lia|]. split; [done|apply shrinks_refl]. Qed.

(** Two sweeps in a row. *)
Lemma sweeps_then nl nl1 n1 nl2 n2 :
  sweeps nl (nl1, n1) → sweeps nl1 (nl2, n2) →
  (live_total nl2 + (n1 + n2) = live_total nl)%nat
  ∧ (n1 = 0%nat → n2 = 0%nat → nl2 = nl)
  ∧ shrinks nl nl2.
Proof.
  unfold sweeps. simpl. intros (A1 & Z1 & S1) (A2 & Z2 & S2).
  split; [lia|]. split.
  - intros H1 H2. rewrite Z2 by done. by apply Z1.
  - by eapply shrinks_trans.
Qed.

Lemma sweep_constant_primary_outputs_loop ids : ∀ nl k,
  outcome (for_each ids sweep_constant_primary_output (nl, k))
    (λ r, (live_total r.1 + r.2 = live_total nl + k)%nat
          ∧ (k ≤ r.2)%nat
          ∧ (r.2 = k → r.1 = nl)
          ∧ shrinks nl r.1)
    (¬ outpads_ok nl).
Proof.
  induction ids as [|blk_id ids IH]; intros nl k.
  - simpl. split; [done|]. split; [done|]. split; [done|apply shrinks_refl].
  - cbn [for_each]. eapply outcome_bind with
      (P1 := λ r, (live_total r.1 + r.2 = live_total nl + k)%nat
                  ∧ (k ≤ r.2)%nat ∧ (r.2 = k → r.1 = nl) ∧ shrinks nl r.1).
    + unfold sweep_constant_primary_output.
      destruct (decide (block_type nl blk_id = Some OUTPAD)) as [Hty|Hty];
        [|simpl; split; [done|]; split; [done|]; split; [done|apply shrinks_refl]].
      destruct (length (block_output_pins nl blk_id) =? 0)%nat eqn:Ho; simpl.
      2:{ intros Hok. apply Hok in Hty as [Hnil _]. by rewrite Hnil in Ho. }
      destruct (length (block_clock_pins nl blk_id) =? 0)%nat eqn:Hc; simpl.
      2:{ intros Hok. apply Hok in Hty as [_ Hnil]. by rewrite Hnil in Hc. }
      destruct (forallb _ _); simpl;
        [|split; [done|]; split; [done|]; split; [done|apply shrinks_refl]].
      unfold block_type in Hty.
      destruct (entry (nl_blocks nl) blk_id) as [b|] eqn:Hb; [|done].
      apply entry_Some in Hb.
      unfold live_total. rewrite remove_block_blocks, remove_block_nets_live.
      pose proof (num_live_tombstone _ _ _ Hb) as Ht.
      split; [lia|]. split; [lia|]. split; [lia|apply remove_block_shrinks].
    + intros [nl1 k1] (A1 & L1 & Z1 & S1). simpl in *.
      eapply outcome_weaken; [apply IH| |].
      * intros [nl2 k2] (A2 & L2 & Z2 & S2). simpl in *.
        split; [lia|]. split; [lia|]. split.
        -- intros ->. assert (k1 = k) as -> by lia. rewrite Z2 by done. by apply Z1.
        -- by eapply shrinks_trans.
      * intros Hnot Hok. apply Hnot. by eapply shrinks_outpads_ok.
Qed.

Lemma sweep_constant_primary_outputs_sweeps nl :
  outcome (sweep_constant_primary_outputs nl) (sweeps nl) (¬ outpads_ok nl).
Proof.
  eapply outcome_weaken;
    [apply (sweep_constant_primary_outputs_loop _ nl 0%nat)| |done].
  intros [nl' n] (A & _ & Z & S). simpl in *. unfold sweeps. simpl.
  split; [lia|]. by split.
Qed.

Lemma pass_swept_nothing pass :
  pass_swept_something pass = false ↔
  dangling_nets_swept pass = 0%nat ∧ dangling_blocks_swept pass = 0%nat
  ∧ dangling_inputs_swept pass = 0%nat ∧ dangling_outputs_swept pass = 0%nat
  ∧ constant_outputs_swept pass = 0%nat.
Proof.
  unfold pass_swept_something. rewrite !orb_false_iff, !negb_false_iff, !Nat.eqb_eq.
  tauto.
Qed.

Lemma sweep_pass_outcome nl (ios nets blocks cpo : bool) :
  outcome (sweep_pass nl ios nets blocks cpo)
    (λ r, (live_total r.1 + swept_total r.2 = live_total nl)%nat
          ∧ (pass_swept_something r.2 = false → r.1 = nl)
          ∧ shrinks nl r.1)
    (¬ outpads_ok nl ∧ cpo = true).
Proof.
  unfold sweep_pass.
  assert (sweeps nl (if ios then sweep_inputs nl else (nl, 0%nat))) as H1
    by (destruct ios; [apply sweep_inputs_sweeps|apply sweeps_nothing]).
  destruct (if ios then sweep_inputs nl else (nl, 0%nat)) as [nl1 n1].
  assert (sweeps nl1 (if ios then sweep_outputs nl1 else (nl1, 0%nat))) as H2
    by (destruct ios; [apply sweep_outputs_sweeps|apply sweeps_nothing]).
  destruct (if ios then sweep_outputs nl1 else (nl1, 0%nat)) as [nl2 n2].
  assert (sweeps nl2 (if blocks then sweep_blocks nl2 else (nl2, 0%nat))) as H3
    by (destruct blocks; [apply sweep_blocks_sweeps|apply sweeps_nothing]).
  destruct (if blocks then sweep_blocks nl2 else (nl2, 0%nat)) as [nl3 n3].
  assert (sweeps nl3 (if nets then sweep_nets nl3 else (nl3, 0%nat))) as H4
    by (destruct nets; [apply sweep_nets_sweeps|apply sweeps_nothing]).
  destruct (if nets then sweep_nets nl3 else (nl3, 0%nat)) as [nl4 n4].
  destruct (sweeps_then _ _ _ _ _ H1 H2) as (A12 & Z12 & S12).
  destruct H3 as (A3 & Z3 & S3), H4 as (A4 & Z4 & S4). simpl in *.
  assert (shrinks nl nl4) as S14
    by (eapply shrinks_trans; [|exact S4]; eapply shrinks_trans; eauto).
  eapply outcome_bind with (P1 := sweeps nl4) (Q := ¬ outpads_ok nl ∧ cpo = true).
  - destruct cpo; [|apply sweeps_nothing].
    eapply outcome_weaken; [apply sweep_constant_primary_outputs_sweeps|done|].
    intros Hnot. split; [|done]. intros Hok. apply Hnot.
    by eapply shrinks_outpads_ok.
  - intros [nl5 n5] (A5 & Z5 & S5). simpl in *. unfold swept_total. simpl.
    split; [lia|]. split.
    + intros Hnone. apply pass_swept_nothing in Hnone. simpl in Hnone.
      destruct Hnone as (-> & -> & -> & -> & ->).
      rewrite Z5, Z4, Z3 by done. by apply Z12.
    + by eapply shrinks_trans.
Qed.

(** *** The loop of [sweep_iterative] *)

Lemma sweep_loop_outcome (ios nets blocks cpo : bool) : ∀ passes nl total,
  (live_total nl < passes)%nat →
  outcome (sweep_loop passes nl ios nets blocks cpo total)
    (λ r, shrinks nl r.1
          ∧ ∃ pass, sweep_pass r.1 ios nets blocks cpo = Ok (r.1, pass)
                    ∧ pass_swept_something pass = false)
    (¬ outpads_ok nl ∧ cpo = true).
Proof.
  induction passes as [|passes IH]; intros nl total Hlt; [lia|].
  cbn [sweep_loop].
  pose proof (sweep_pass_outcome nl ios nets blocks cpo) as Hpass.
  destruct (sweep_pass nl ios nets blocks cpo) as [[nl1 pass]|e] eqn:E;
    [|destruct e; done].
  simpl in Hpass. destruct Hpass as (A & Z & S). cbn [mbind result_bind].
  destruct (pass_swept_something pass) eqn:Hsome.
  - assert (0 < swept_total pass)%nat as Hpos.
    { destruct (Nat.eq_dec (swept_total pass) 0) as [H0|]; [|lia].
      assert (pass_swept_something pass = false); [|congruence].
      apply pass_swept_nothing. unfold swept_total in H0. lia. }
    eapply outcome_weaken; [apply IH; lia| |].
    + intros r (S' & Hfix). split; [by eapply shrinks_trans|done].
    + intros [Hnot ?]. split; [|done]. intros Hok. apply Hnot.
      by eapply shrinks_outpads_ok.
  - simpl. rewrite (Z eq_refl) in *. split; [apply shrinks_refl|]. by exists pass.
Qed.

Definition outpads_are_sinks (nl : AtomNetlist) : bool :=
  forallb (λ blk, if decide (block_type nl blk = Some OUTPAD)
                  then (length (block_output_pins nl blk) =? 0)%nat
                       && (length (block_clock_pins nl blk) =? 0)%nat
                  else true)
          (seq 0 (length (nl_blocks nl))).

Lemma outpads_are_sinks_spec nl : outpads_are_sinks nl = true → outpads_ok nl.
Proof.
  unfold outpads_are_sinks. rewrite forallb_forall. intros H blk Hty.
  assert (In blk (seq 0 (length (nl_blocks nl)))) as Hin.
  { apply in_seq. unfold block_type in Hty.
    destruct (entry (nl_blocks nl) blk) as [b|] eqn:Hb; [|done].
    apply entry_Some, lookup_lt_Some in Hb. lia. }
  specialize (H blk Hin). rewrite decide_True in H by done.
  apply andb_prop in H as [Ho Hc]. apply Nat.eqb_eq in Ho, Hc.
  split; by apply nil_length_inv.
Qed.

(** C8.  [sweep_iterative] ends for every netlist and every choice of the
    four flags (in a result, or in the assertion of
    [sweep_constant_primary_outputs] on an output pad with an output or a clock
    pin); it returns a result when output pads have none, or constant outputs
    are not swept; and run again on the netlist it returned, with the same
    flags, it returns that netlist unchanged and the number zero. *)
Theorem sweep_iterative_idempotent (nl : AtomNetlist) (ios nets blocks cpo : bool) :
  sweep_iterative nl ios nets blocks cpo ≠ Err OutOfFuel
  ∧ (cpo = false ∨ outpads_are_sinks nl = true →
     is_Ok (sweep_iterative nl ios nets blocks cpo) = true)
  ∧ (∀ nl' n,
       sweep_iterative nl ios nets blocks cpo = Ok (nl', n) →
       sweep_iterative nl' ios nets blocks cpo = Ok (nl', 0%nat)).
Proof.
  unfold sweep_iterative.
  pose proof (sweep_loop_outcome ios nets blocks cpo
                (S (num_live (nl_blocks nl) + num_live (nl_nets nl))) nl nothing_swept)
    as Hloop.
  destruct (sweep_loop _ nl ios nets blocks cpo nothing_swept) as [[nl1 total]|e] eqn:E.
  - simpl in Hloop. destruct Hloop as (_ & pass & Hpass & Hnone);
      [unfold live_total; lia|].
    split; [done|]. split; [done|].
    intros nl' n [= <- <-]. cbn [sweep_loop]. rewrite Hpass.
    cbn [mbind result_bind]. rewrite Hnone. cbn [mbind result_bind].
    apply pass_swept_nothing in Hnone as (H1 & H2 & H3 & H4 & H5).
    unfold swept_total, add_pass. simpl. rewrite H1, H2, H4, H5. done.
  - simpl. split.
    + destruct e; try done. exfalso. apply Hloop. unfold live_total. lia.
    + split; [|done]. intros Hok. exfalso.
      destruct e; simpl in Hloop; try (apply Hloop; unfold live_total; lia).
      destruct Hloop as [Hnot Hcpo]; [unfold live_total; lia|].
      destruct Hok as [?|Hok]; [congruence|].
      by apply Hnot, outpads_are_sinks_spec.
Qed.

(** C1 at [lone_input], an input pad that drives nothing, with only the
    sweep of the pads switched on: the first pass removes the pad, the second
    removes nothing, and [sweep_iterative] returns 0 although one element was
    removed (the total of the inputs is advanced by the outputs of the pass).
    On [lone_output] the removed output pad is counted twice. *)
Lemma sweep_iterative_miscounts :
  ∃ nl' nl'',
    sweep_pass lone_input true false false false
      = Ok (nl', {| dangling_nets_swept := 0; dangling_blocks_swept := 0;
                    dangling_inputs_swept := 1; dangling_outputs_swept := 0;
                    constant_outputs_swept := 0 |})
    ∧ sweep_pass nl' true false false false = Ok (nl', nothing_swept)
    ∧ num_live (nl_blocks lone_input) = 1%nat
    ∧ num_live (nl_blocks nl') = 0%nat
    ∧ sweep_iterative lone_input true false false false = Ok (nl', 0%nat)
    ∧ num_live (nl_blocks lone_output) = 1%nat
    ∧ num_live (nl_blocks nl'') = 0%nat
    ∧ sweep_iterative lone_output true false false false = Ok (nl'', 2%nat).
Proof.
  eexists. eexists.
  split; [vm_compute; reflexivity|].
  split; [vm_compute; reflexivity|].
  split; [reflexivity|]. split; [reflexivity|].
  split; [vm_compute; reflexivity|].
  split; [reflexivity|]. split; [|vm_compute; reflexivity].
  reflexivity.
Qed.

(** *** C5: what a buffer LUT is *)

Lemma block_type_entry nl blk b :
  entry (nl_blocks nl) blk = Some b → block_type nl blk = Some (blk_type b).
Proof. unfold block_type. by intros ->. Qed.

(** C5.  For a block of the netlist, [is_buffer_lut] returns [true] exactly
    when the block is combinational, its model is "names", it has one input
    port and one output port, one connected input pin and one connected output
    pin, and its truth table is the single row [1 1] or the single row
    [0 0]. *)
Theorem is_buffer_lut_iff (nl : AtomNetlist) (blk : nat) (b : Block) :
  entry (nl_blocks nl) blk = Some b →
  is_buffer_lut nl blk = Ok true ↔
    blk_type b = COMBINATIONAL
    ∧ blk_model b = "names"
    ∧ length (block_input_ports nl blk) = 1%nat
    ∧ length (block_output_ports nl blk) = 1%nat
    ∧ connected_pins nl (block_input_pins nl blk) = 1%nat
    ∧ connected_pins nl (block_output_pins nl blk) = 1%nat
    ∧ (blk_truth_table b = [[TRUE; TRUE]] ∨ blk_truth_table b = [[FALSE; FALSE]]).
Proof.
  intros Hb. unfold is_buffer_lut, block_type, block_model, block_truth_table.
  rewrite Hb. simpl.
  destruct (decide (Some (blk_type b) = Some COMBINATIONAL)) as [[= Hty]|Hty];
    [|split; [done|intros (E & _); congruence]].
  destruct (decide (Some (blk_model b) = Some "names")) as [[= Hmodel]|Hmodel];
    [|split; [done|intros (_ & E & _); congruence]].
  destruct (Nat.eqb_spec (length (block_input_ports nl blk)) 1) as [Hip|Hip];
    [|split; [done|tauto]].
  destruct (Nat.eqb_spec (length (block_output_ports nl blk)) 1) as [Hop|Hop];
    [|split; [done|tauto]].
  destruct (Nat.eqb_spec (connected_pins nl (block_input_pins nl blk)) 1) as [Hci|Hci];
    [|split; [done|tauto]].
  destruct (Nat.eqb_spec (connected_pins nl (block_output_pins nl blk)) 1) as [Hco|Hco];
    [|split; [done|tauto]].
  simpl.
  assert (∀ P : Prop, P ↔ blk_type b = COMBINATIONAL ∧ blk_model b = "names"
            ∧ length (block_input_ports nl blk) = 1%nat
            ∧ length (block_output_ports nl blk) = 1%nat
            ∧ connected_pins nl (block_input_pins nl blk) = 1%nat
            ∧ connected_pins nl (block_output_pins nl blk) = 1%nat ∧ P) as Hrest
    by tauto.
  rewrite <- Hrest. clear Hrest.
  destruct (blk_truth_table b) as [|row [|row' rows]]; simpl.
  - split; [done|intros [?|?]; done].
  - destruct row as [|v0 [|v1 [|v2 row]]]; simpl;
      try (split; [done|intros [?|?]; done]).
    unfold is_identity_row. simpl.
    destruct v0, v1; split; try done; try (intros [?|?]; done); auto.
  - split; [done|intros [?|?]; done].
Qed.

(** The theorem at the buffer [b] of [pad_buffer_pad]. *)
Lemma is_buffer_lut_iff_witness :
  is_buffer_lut pad_buffer_pad 1 = Ok true ↔
    COMBINATIONAL = COMBINATIONAL
    ∧ "names" = "names"
    ∧ length (block_input_ports pad_buffer_pad 1) = 1%nat
    ∧ length (block_output_ports pad_buffer_pad 1) = 1%nat
    ∧ connected_pins pad_buffer_pad (block_input_pins pad_buffer_pad 1) = 1%nat
    ∧ connected_pins pad_buffer_pad (block_output_pins pad_buffer_pad 1) = 1%nat
    ∧ ([[TRUE; TRUE]] = [[TRUE; TRUE]] ∨ [[TRUE; TRUE]] = [[FALSE; FALSE]]).
Proof.
  apply (is_buffer_lut_iff pad_buffer_pad 1
           {| blk_name := "b"; blk_type := COMBINATIONAL; blk_model := "names";
              blk_truth_table := [[TRUE; TRUE]] |}).
  reflexivity.
Defined.

End Atom.

(** ** Constant generators ([read_netlist.c]) *)

Module ConstGen.

Import PbRoute.

(** [t_pb] together with what [mark_constant_generators_rec] reads through
    [pb->pb_graph_node]: the name and the [blif_model] of the [pb_type]
    ([None] is [NULL]), and per port the [pin_count_in_cluster] of each pin.
    [child_pbs] has one row per child type of the selected mode and one entry
    per instance, as [processPb] allocates it from
    [modes[pb->mode].num_pb_type_children] and [pb_type_children[i].num_pb]; an
    entry whose [name] is [NULL] is an unused slot. *)
#[warnings="-register-all"]
Inductive t_pb := Pb {
  pb_name : option string;
  pb_type_name : string;
  blif_model : option string;
  input_pins : list (list Z);
  output_pins : list (list Z);
  clock_pins : list (list Z);
  child_pbs : list (list t_pb);
}.

(** The two loops over the input and the clock pins that compute [const_gen];
    they stop at the first pin that carries a net. *)
Definition check_unconnected (pb_route : list t_pb_route) (pins : list (list Z))
    (const_gen : bool) : result bool :=
  for_each pins
    (λ const_gen port,
       for_each port
         (λ const_gen cluster_pin_idx,
            if const_gen : bool then
              e ← pb_route_at pb_route cluster_pin_idx;
              Ok (negb (is_valid_id (atom_net_id e)))
            else Ok false)
         const_gen)
    const_gen.

Definition inputs_unconnected (pb_route : list t_pb_route) (pb : t_pb) : result bool :=
  const_gen ← check_unconnected pb_route (input_pins pb) true;
  check_unconnected pb_route (clock_pins pb) const_gen.

(** The loop over the output pins of a constant generator. *)
Definition check_constant_outputs (nl : Atom.AtomNetlist)
    (pb_route : list t_pb_route) (pb : t_pb) : result unit :=
  for_each (output_pins pb)
    (λ _ port,
       for_each port
         (λ _ cluster_pin_idx,
            e ← pb_route_at pb_route cluster_pin_idx;
            match atom_net_id e with
            | Some net_id =>
                let driver_pin_id := Atom.net_driver nl net_id in
                VTR_ASSERT "g_atom_nl.pin_is_constant(driver_pin_id)"
                  (bool_decide (driver_pin_id ≫= Atom.pin_is_constant nl = Some true))
            | None => Ok tt
            end) tt) tt.

(** The branch of a primitive. *)
Definition mark_primitive (nl : Atom.AtomNetlist) (pb_route : list t_pb_route)
    (pb : t_pb) : result unit :=
  if negb (String.eqb (pb_type_name pb) "inpad") then
    const_gen ← inputs_unconnected pb_route pb;
    if const_gen : bool then check_constant_outputs nl pb_route pb else Ok tt
  else Ok tt.

(** [mark_constant_generators_rec]; [nl] is [g_atom_nl]. *)
Fixpoint mark_constant_generators_rec (nl : Atom.AtomNetlist)
    (pb_route : list t_pb_route) (pb : t_pb) {struct pb} : result unit :=
  match blif_model pb with
  | None =>
      (fix types (rows : list (list t_pb)) : result unit :=
         match rows with
         | [] => Ok tt
         | row :: rows' =>
             _ ← (fix instances (row : list t_pb) : result unit :=
                    match row with
                    | [] => Ok tt
                    | child :: row' =>
                        _ ← match pb_name child with
                            | Some _ => mark_constant_generators_rec nl pb_route child
                            | None => Ok tt
                            end;
                        instances row'
                    end) row;
             types rows'
         end) (child_pbs pb)
  | Some _ => mark_primitive nl pb_route pb
  end.

(** [mark_constant_generators]: every cluster with its [pb] and
    [pb_route]. *)
Definition mark_constant_generators (nl : Atom.AtomNetlist)
    (block_list : list (t_pb * list t_pb_route)) : result unit :=
  for_each block_list
    (λ _ blk, mark_constant_generators_rec nl blk.2 blk.1) tt.

(** *** What the marker checks *)

Definition carries_no_net (pb_route : list t_pb_route) (idx : Z) : Prop :=
  ∃ e, pb_route_at pb_route idx = Ok e ∧ atom_net_id e = None.

Definition all_unconnected (pb_route : list t_pb_route) (pins : list (list Z)) : Prop :=
  ∀ port idx, port ∈ pins → idx ∈ port → carries_no_net pb_route idx.

(** Section 4.5: not a primary input, and every input pin and every clock
    pin unconnected in [pb_route]. *)
Definition is_constant_generator (pb_route : list t_pb_route) (pb : t_pb) : Prop :=
  pb_type_name pb ≠ "inpad"
  ∧ all_unconnected pb_route (input_pins pb)
  ∧ all_unconnected pb_route (clock_pins pb).

(** Every output pin that carries a net carries one whose driver pin is
    marked constant in the atom netlist. *)
Definition outputs_constant (nl : Atom.AtomNetlist) (pb_route : list t_pb_route)
    (pb : t_pb) : Prop :=
  ∀ port idx e net, port ∈ output_pins pb → idx ∈ port →
    pb_route_at pb_route idx = Ok e → atom_net_id e = Some net →
    ∃ d, Atom.net_driver nl net = Some d ∧ Atom.pin_is_constant nl d = Some true.

(** The pbs the recursion reaches from [pb]: through the used slots of pbs
    that are not primitives. *)
Inductive visited : t_pb → t_pb → Prop :=
| visited_here pb : visited pb pb
| visited_child pb row child pb' :
    blif_model pb = None → row ∈ child_pbs pb → child ∈ row →
    is_Some (pb_name child) → visited child pb' → visited pb pb'.

(** Every pin of the pb indexes into [pb_route]. *)
Definition pins_in_route (pb_route : list t_pb_route) (pb : t_pb) : Prop :=
  ∀ port idx, port ∈ input_pins pb ++ clock_pins pb ++ output_pins pb →
    idx ∈ port → is_Ok (pb_route_at pb_route idx) = true.

Lemma nested_loops_unit (f : t_pb → result unit) (rows : list (list t_pb)) :
  (fix types (rows : list (list t_pb)) : result unit :=
     match rows with
     | [] => Ok tt
     | row :: rows' =>
         _ ← (fix instances (row : list t_pb) : result unit :=
                match row with
                | [] => Ok tt
                | child :: row' => _ ← f child; instances row'
                end) row;
         types rows'
     end) rows
  = for_each rows (λ _ row, for_each row (λ _ child, f child) tt) tt.
Proof.
  induction rows as [|row rows IHrows]; [done|]. simpl.
  assert (∀ row : list t_pb,
    (fix instances (row : list t_pb) : result unit :=
       match row with
       | [] => Ok tt
       | child :: row' => _ ← f child; instances row'
       end) row
    = for_each row (λ _ child, f child) tt) as Hrow.
  { clear. induction row as [|child row IH]; [done|]. simpl. rewrite IH.
    destruct (f child) as [[]|]; done. }
  rewrite Hrow. destruct (for_each row _ tt) as [[]|]; simpl; [apply IHrows|done].
Qed.

Lemma mark_constant_generators_rec_unfold nl pb_route pb :
  mark_constant_generators_rec nl pb_route pb =
  match blif_model pb with
  | None =>
      for_each (child_pbs pb)
        (λ _ row,
           for_each row
             (λ _ child,
                match pb_name child with
                | Some _ => mark_constant_generators_rec nl pb_route child
                | None => Ok tt
                end) tt) tt
  | Some _ => mark_primitive nl pb_route pb
  end.
Proof.
  destruct pb as [name ty model ins outs clks children].
  destruct model; [done|].
  apply (nested_loops_unit
           (λ child, match pb_name child with
                     | Some _ => mark_constant_generators_rec nl pb_route child
                     | None => Ok tt
                     end)).
Qed.

(** *** The classification *)

Lemma check_port_unconnected pb_route (port : list Z) : ∀ (c b : bool),
  for_each port
    (λ const_gen cluster_pin_idx,
       if const_gen : bool then
         e ← pb_route_at pb_route cluster_pin_idx;
         Ok (negb (is_valid_id (atom_net_id e)))
       else Ok false) c = Ok b →
  b = true ↔ c = true ∧ ∀ idx, idx ∈ port → carries_no_net pb_route idx.
Proof.
  induction port as [|idx port IH]; intros c b; simpl.
  - intros [= <-]. split; [|tauto]. intros ->. split; [done|].
    intros idx Hin. by apply not_elem_of_nil in Hin.
  - destruct c; simpl.
    + destruct (pb_route_at pb_route idx) as [e|] eqn:E; simpl; [|done].
      intros H. apply IH in H. rewrite H. clear H. split.
      * intros [Hv Hrest]. split; [done|].
        intros idx' [->|Hin]%elem_of_cons; [|by apply Hrest].
        exists e. split; [done|]. by destruct (atom_net_id e).
      * intros [_ Hall]. split.
        -- destruct (Hall idx) as (e' & E' & Hn); [left|].
           rewrite E in E'. injection E' as <-. by rewrite Hn.
        -- intros idx' Hin. apply Hall. by right.
    + intros H. apply IH in H. rewrite H. split; intros [? _]; done.
Qed.

Lemma check_unconnected_spec pb_route (pins : list (list Z)) : ∀ (c b : bool),
  check_unconnected pb_route pins c = Ok b →
  b = true ↔ c = true ∧ all_unconnected pb_route pins.
Proof.
  unfold check_unconnected, all_unconnected.
  induction pins as [|port pins IH]; intros c b; simpl.
  - intros [= <-]. split; [|tauto]. intros ->. split; [done|].
    intros port idx Hin. by apply not_elem_of_nil in Hin.
  - destruct (for_each port _ c) as [c'|] eqn:E; simpl; [|done].
    apply check_port_unconnected in E.
    intros H. apply IH in H. rewrite H, E. clear H E. split.
    + intros [[-> Hport] Hrest]. split; [done|].
      intros port' idx [->|Hin]%elem_of_cons; [apply Hport|by apply Hrest].
    + intros [-> Hall]. split; [split; [done|]|].
      * intros idx Hin. apply (Hall port); [left|done].
      * intros port' idx Hin. apply Hall. by right.
Qed.

Lemma inputs_unconnected_spec pb_route pb (b : bool) :
  inputs_unconnected pb_route pb = Ok b →
  b = true ↔ all_unconnected pb_route (input_pins pb)
             ∧ all_unconnected pb_route (clock_pins pb).
Proof.
  unfold inputs_unconnected.
  destruct (check_unconnected pb_route (input_pins pb) true) as [c|] eqn:E;
    simpl; [|done].
  apply check_unconnected_spec in E. intros H. apply check_unconnected_spec in H.
  rewrite H, E. tauto.
Qed.

Lemma check_unconnected_runs pb_route (pins : list (list Z)) : ∀ c : bool,
  (∀ port idx, port ∈ pins → idx ∈ port → is_Ok (pb_route_at pb_route idx) = true) →
  is_Ok (check_unconnected pb_route pins c) = true.
Proof.
  unfold check_unconnected.
  induction pins as [|port pins IH]; intros c Hread; [done|]. simpl.
  assert (∀ c : bool, is_Ok (for_each port
            (λ const_gen cluster_pin_idx,
               if const_gen : bool then
                 e ← pb_route_at pb_route cluster_pin_idx;
                 Ok (negb (is_valid_id (atom_net_id e)))
               else Ok false) c) = true) as Hport.
  { assert (∀ idx, idx ∈ port → is_Ok (pb_route_at pb_route idx) = true) as Hp
      by (intros idx Hin; apply (Hread port); [left|done]).
    clear -Hp. induction port as [|idx port IHp]; intros c; [done|]. simpl.
    destruct c; simpl.
    - destruct (pb_route_at pb_route idx) eqn:E; simpl.
      + apply IHp. intros idx' Hin. apply Hp. by right.
      + specialize (Hp idx). rewrite E in Hp. apply Hp. left.
    - apply IHp. intros idx' Hin. apply Hp. by right. }
  specialize (Hport c). destruct (for_each port _ c) as [c'|]; [|done]. simpl.
  apply IH. intros port' idx Hin. apply Hread. by right.
Qed.

(** *** The assertion *)

Lemma check_constant_outputs_spec nl pb_route pb :
  check_constant_outputs nl pb_route pb = Ok tt ↔
  (∀ port idx, port ∈ output_pins pb → idx ∈ port →
     is_Ok (pb_route_at pb_route idx) = true)
  ∧ outputs_constant nl pb_route pb.
Proof.
  unfold check_constant_outputs, outputs_constant. rewrite for_each_unit.
  setoid_rewrite for_each_unit. split.
  - intros H. split.
    + intros port idx Hp Hi. specialize (H port Hp idx Hi).
      by destruct (pb_route_at pb_route idx).
    + intros port idx e net Hp Hi He Hnet. specialize (H port Hp idx Hi).
      rewrite He in H. simpl in H. rewrite Hnet in H.
      destruct (Atom.net_driver nl net) as [d|]; simpl in H.
      * exists d. split; [done|].
        destruct (bool_decide_reflect (Atom.pin_is_constant nl d = Some true)); done.
      * done.
  - intros [Hread Hconst] port Hp idx Hi.
    specialize (Hread port idx Hp Hi).
    destruct (pb_route_at pb_route idx) as [e|] eqn:He; [|done]. simpl.
    destruct (atom_net_id e) as [net|] eqn:Hnet; [|done].
    destruct (Hconst port idx e net Hp Hi He Hnet) as (d & Hd & Hc).
    rewrite Hd. simpl. by rewrite bool_decide_eq_true_2.
Qed.

Lemma marked_primitive_checked nl pb_route pb :
  mark_primitive nl pb_route pb = Ok tt →
  is_constant_generator pb_route pb → outputs_constant nl pb_route pb.
Proof.
  unfold mark_primitive. intros Hmark (Hname & Hin & Hclk).
  apply String.eqb_neq in Hname. rewrite Hname in Hmark. simpl in Hmark.
  destruct (inputs_unconnected pb_route pb) as [b|] eqn:E; simpl in Hmark; [|done].
  apply inputs_unconnected_spec in E.
  assert (b = true) as -> by by apply E.
  by apply check_constant_outputs_spec in Hmark as [_ ?].
Qed.

Lemma checked_primitive_marked nl pb_route pb :
  pins_in_route pb_route pb →
  (is_constant_generator pb_route pb → outputs_constant nl pb_route pb) →
  mark_primitive nl pb_route pb = Ok tt.
Proof.
  intros Hread Hconst. unfold mark_primitive.
  destruct (String.eqb_spec (pb_type_name pb) "inpad") as [Hname|Hname]; [done|].
  simpl. unfold inputs_unconnected in *.
  pose proof (check_unconnected_runs pb_route (input_pins pb) true) as H1.
  destruct (check_unconnected pb_route (input_pins pb) true) as [c|] eqn:E1.
  2:{ assert (false = true); [|done]. apply H1. intros port idx Hp Hi.
      apply (Hread port); [|done]. apply elem_of_app. by left. }
  simpl.
  pose proof (check_unconnected_runs pb_route (clock_pins pb) c) as H2.
  destruct (check_unconnected pb_route (clock_pins pb) c) as [b|] eqn:E2.
  2:{ assert (false = true); [|done]. apply H2. intros port idx Hp Hi.
      apply (Hread port); [|done]. rewrite !elem_of_app. right. by left. }
  simpl. destruct b; [|done].
  pose proof (proj1 (check_unconnected_spec _ _ _ _ E2) eq_refl) as [-> Hclk].
  pose proof (proj1 (check_unconnected_spec _ _ _ _ E1) eq_refl) as [_ Hin].
  apply check_constant_outputs_spec. split.
  - intros port idx Hp Hi. apply (Hread port); [|done].
    rewrite !elem_of_app. right. by right.
  - by apply Hconst.
Qed.

Lemma t_pb_nested_ind (P : t_pb → Prop) :
  (∀ pb, Forall (Forall P) (child_pbs pb) → P pb) → ∀ pb, P pb.
Proof.
  intros H. fix IH 1. intros pb. apply H.
  destruct pb as [name ty model ins outs clks children]. simpl.
  induction children as [|row rows IHrows]; constructor; [|exact IHrows].
  induction row as [|child row IHrow]; constructor; [apply IH|exact IHrow].
Qed.

(** C9.  The loops that classify a primitive end in [true] exactly when every
    input pin and every clock pin carries no net in [pb_route], and they are
    run only for a primitive whose type is not "inpad"; when the marking of a
    cluster returns, every constant generator it reached has, on every output
    pin that carries a net, a net whose driver pin is marked constant; and the
    marking returns when this holds and the pins of the primitives it reaches
    index into [pb_route]. *)
Theorem constant_generators_are_checked (nl : Atom.AtomNetlist)
    (pb_route : list t_pb_route) (root : t_pb) :
  (∀ pb b,
     inputs_unconnected pb_route pb = Ok b →
     (negb (String.eqb (pb_type_name pb) "inpad") && b = true
      ↔ is_constant_generator pb_route pb))
  ∧ (mark_constant_generators_rec nl pb_route root = Ok tt →
     ∀ pb, visited root pb → is_Some (blif_model pb) →
       is_constant_generator pb_route pb → outputs_constant nl pb_route pb)
  ∧ ((∀ pb, visited root pb → is_Some (blif_model pb) →
        pins_in_route pb_route pb
        ∧ (is_constant_generator pb_route pb → outputs_constant nl pb_route pb)) →
     mark_constant_generators_rec nl pb_route root = Ok tt).
Proof.
  split; [|split].
  - intros pb b Hb. apply inputs_unconnected_spec in Hb.
    unfold is_constant_generator. rewrite andb_true_iff, negb_true_iff, Hb.
    rewrite String.eqb_neq. tauto.
  - intros Hmark pb Hvis. induction Hvis as [pb|pb row child pb' Hm Hrow Hchild Hname Hvis IH].
    + intros [m Hm]. rewrite mark_constant_generators_rec_unfold, Hm in Hmark.
      by apply marked_primitive_checked.
    + apply IH. rewrite mark_constant_generators_rec_unfold, Hm in Hmark.
      rewrite for_each_unit in Hmark. specialize (Hmark row Hrow).
      rewrite for_each_unit in Hmark. specialize (Hmark child Hchild).
      destruct Hname as [name Hname]. by rewrite Hname in Hmark.
  - induction root as [pb IH] using t_pb_nested_ind. intros Hall.
    rewrite mark_constant_generators_rec_unfold.
    destruct (blif_model pb) as [m|] eqn:Hm.
    + assert (is_Some (blif_model pb)) as Hs by (rewrite Hm; by eexists).
      destruct (Hall pb (visited_here pb) Hs) as [Hread Hconst].
      by apply checked_primitive_marked.
    + apply for_each_unit. intros row Hrow.
      apply for_each_unit. intros child Hchild.
      destruct (pb_name child) as [name|] eqn:Hname; [|done].
      rewrite Forall_forall in IH. specialize (IH row Hrow).
      rewrite Forall_forall in IH. apply (IH child Hchild).
      intros pb' Hvis. apply Hall.
      eapply visited_child; eauto.
Qed.

(** *** Scenarios *)

(** The atom netlist of a LUT without inputs that drives net [vcc] from a
    pin marked constant, and feeds an output pad. *)
Definition vcc_netlist (constant : bool) : Atom.AtomNetlist :=
  {| Atom.nl_blocks := [Atom.a_block "vcc" Atom.COMBINATIONAL "names" [[TruthTable.TRUE]];
                        Atom.a_block "out:vcc" Atom.OUTPAD "output" []];
     Atom.nl_ports := [Atom.a_port 0 "out" Atom.OUTPUT; Atom.a_port 1 "outpad" Atom.INPUT];
     Atom.nl_pins := [Some {| Atom.pn_port := 0; Atom.pn_bit := 0;
                              Atom.pn_type := Atom.DRIVER; Atom.pn_net := Some 0%nat;
                              Atom.pn_is_constant := constant |};
                      Atom.a_pin 1 Atom.SINK (Some 0%nat)];
     Atom.nl_nets := [Atom.a_net "vcc" (Some 0%nat) [1%nat]] |}.

(** A cluster with one LUT slot: pins 0 and 1 are the inputs of the LUT, pin
    2 its output, which carries net 0. *)
Definition lut_pb : t_pb :=
  {| pb_name := Some "vcc"; pb_type_name := "lut"; blif_model := Some ".names";
     input_pins := [[0; 1]]; output_pins := [[2]]; clock_pins := [];
     child_pbs := [] |}.

Definition clb_pb : t_pb :=
  {| pb_name := Some "clb0"; pb_type_name := "clb"; blif_model := None;
     input_pins := []; output_pins := []; clock_pins := [];
     child_pbs := [[lut_pb]] |}.

Definition clb_route : list t_pb_route :=
  [route None OPEN; route None OPEN; route (Some 0%nat) OPEN].

Example constant_generator_passes :
  inputs_unconnected clb_route lut_pb = Ok true
  ∧ mark_constant_generators_rec (vcc_netlist true) clb_route clb_pb = Ok tt.
Proof. split; reflexivity. Qed.

Example constant_generator_not_marked :
  mark_constant_generators_rec (vcc_netlist false) clb_route clb_pb
  = Err (AssertionFailed "g_atom_nl.pin_is_constant(driver_pin_id)").
Proof. reflexivity. Qed.

End ConstGen.

(** ** External nets of the clusters ([read_netlist.c]) *)

Module ExtNets.

Import NetHash PbRoute.

(** [enum e_pin_type] of a pin class ([OPEN_CLASS] is its [OPEN]). *)
Inductive e_pin_type := OPEN_CLASS | DRIVER | RECEIVER.

#[global] Instance e_pin_type_eq_dec : EqDecision e_pin_type.
Proof. solve_decision. Defined.

(** [t_type_descriptor], as far as [load_external_nets_and_cb] reads it; the
    three pin counts are those of [type->pb_type]. *)
Record t_type_descriptor := {
  num_pins : Z;
  capacity : Z;
  pin_class : list Z;
  class_inf : list e_pin_type;      (* [class_inf[c].type] *)
  is_global_pin : list bool;
  num_input_pins : Z;
  num_output_pins : Z;
  num_clock_pins : Z;
}.

(** [struct s_block]: the [pin_count_in_cluster] of the pins of the top-level
    [pb_graph_node], port by port, the [pb_route] table and the net of each
    pin of the block. *)
Record s_block := {
  type : t_type_descriptor;
  input_pins : list (list Z);
  output_pins : list (list Z);
  clock_pins : list (list Z);
  pb_route : list t_pb_route;
  nets : list Z;
}.

(** [struct s_net]; [name] is [None] while it is [NULL]. *)
Record s_net := {
  name : option string;
  num_sinks : Z;
  node_block : list Z;
  node_block_pin : list Z;
  is_global : bool;
}.

(** C arrays with an [int] index. *)
Definition read {A} (l : list A) (i : Z) : result A :=
  if i <? 0 then Err OutOfBounds
  else match l !! Z.to_nat i with
       | Some x => Ok x
       | None => Err OutOfBounds
       end.

Definition write {A} (l : list A) (i : Z) (x : A) : result (list A) :=
  if (i <? 0) || (Z.of_nat (length l) <=? i) then Err OutOfBounds
  else Ok (<[Z.to_nat i := x]> l).

(** *** The nets of the pins of each cluster *)

(** One of the three loops over the ports of a kind; [nhash], [ncount],
    [nets] and [ipin] are the variables it updates. *)
Definition load_ports (nl : Atom.AtomNetlist) (pb_route : list t_pb_route)
    (ports : list (list Z))
    (st : gmap string s_hash * Z * list Z * Z)
    : result (gmap string s_hash * Z * list Z * Z) :=
  for_each ports
    (λ st port,
       for_each port
         (λ '(nhash, ncount, nets, ipin) pin_count_in_cluster,
            _ ← VTR_ASSERT "pb_graph_pin->pin_count_in_cluster == ipin"
                           (pin_count_in_cluster =? ipin);
            e ← read pb_route pin_count_in_cluster;
            match atom_net_id e with
            | Some net_id =>
                net_name ← Atom.require "valid net id" (Atom.net_name nl net_id);
                '(index, nhash, ncount) ← add_net_to_hash nhash net_name ncount;
                nets ← write nets ipin index;
                Ok (nhash, ncount, nets, ipin + 1)
            | None =>
                nets ← write nets ipin OPEN;
                Ok (nhash, ncount, nets, ipin + 1)
            end) st) st.

(** The body of the first loop over the clusters. *)
Definition load_block_nets (nl : Atom.AtomNetlist)
    (st : gmap string s_hash * Z * list s_block) (blk : s_block)
    : result (gmap string s_hash * Z * list s_block) :=
  let '(nhash, ncount, done) := st in
  let ty := type blk in
  _ ← VTR_ASSERT "num_input_pins + num_output_pins + num_clock_pins == num_pins / capacity"
        (num_input_pins ty + num_output_pins ty + num_clock_pins ty
         =? Z.quot (num_pins ty) (capacity ty));
  st ← load_ports nl (pb_route blk) (input_pins blk) (nhash, ncount, nets blk, 0);
  st ← load_ports nl (pb_route blk) (output_pins blk) st;
  '(nhash, ncount, nets, ipin) ← load_ports nl (pb_route blk) (clock_pins blk) st;
  (* for (j = ipin; j < num_pins; j++) nets[ipin] = OPEN; *)
  nets ← (if ipin <? num_pins ty then write nets ipin OPEN else Ok nets);
  Ok (nhash, ncount,
      done ++ [{| type := ty; input_pins := input_pins blk;
                  output_pins := output_pins blk; clock_pins := clock_pins blk;
                  pb_route := pb_route blk; nets := nets |}]).

(** *** [alloc_and_init_netlist_from_hash] *)

Definition null_net : s_net :=
  {| name := None; num_sinks := 0; node_block := []; node_block_pin := [];
     is_global := false |}.

Definition alloc_and_init_netlist_from_hash (ncount : Z)
    (nhash : gmap string s_hash) : result (list s_net) :=
  for_each (map_to_list nhash)
    (λ nlist '(curr_name, curr_net),
       old ← read nlist (h_index curr_net);
       _ ← VTR_ASSERT "nlist[curr_net->index].name == NULL"
                      (bool_decide (name old = None));
       write nlist (h_index curr_net)
         {| name := Some curr_name;
            num_sinks := h_count curr_net - 1;
            node_block := replicate (Z.to_nat (h_count curr_net)) OPEN;
            node_block_pin := replicate (Z.to_nat (h_count curr_net)) OPEN;
            is_global := false |})
    (replicate (Z.to_nat ncount) null_net).

(** *** The terminals of each net *)

(** The body of the second loop over the clusters for pin [j] of cluster
    [i]; [ext_nets] and [count] are the arrays it updates. *)
Definition load_terminal (blk : s_block) (i : Z)
    (st : list s_net * list Z) (j : Z) : result (list s_net * list Z) :=
  let '(ext_nets, count) := st in
  netnum ← read (nets blk) j;
  if netnum =? OPEN then Ok (ext_nets, count)
  else
    class ← read (pin_class (type blk)) j;
    class_type ← read (class_inf (type blk)) class;
    net ← read ext_nets netnum;
    if decide (class_type = RECEIVER) then
      c ← read count netnum;
      count ← write count netnum (c + 1);
      if num_sinks net <? c + 1 then
        Err (VprThrow ("net " +:+ default "" (name net) +:+
                       " inconsistency, it is likely net terminal is disconnected in netlist file."))
      else
        node_block ← write (node_block net) (c + 1) i;
        node_block_pin ← write (node_block_pin net) (c + 1) j;
        is_global ← read (is_global_pin (type blk)) j;
        ext_nets ← write ext_nets netnum
          {| name := name net; num_sinks := num_sinks net;
             node_block := node_block; node_block_pin := node_block_pin;
             is_global := is_global |};
        Ok (ext_nets, count)
    else
      _ ← VTR_ASSERT "DRIVER == class_inf[pin_class[j]].type"
                     (bool_decide (class_type = DRIVER));
      driver ← read (node_block net) 0;
      _ ← VTR_ASSERT "(*ext_nets)[netnum].node_block[0] == OPEN" (driver =? OPEN);
      node_block ← write (node_block net) 0 i;
      node_block_pin ← write (node_block_pin net) 0 j;
      ext_nets ← write ext_nets netnum
        {| name := name net; num_sinks := num_sinks net;
           node_block := node_block; node_block_pin := node_block_pin;
           is_global := is_global net |};
      Ok (ext_nets, count).

Definition load_terminals (block_list : list s_block)
    (st : list s_net * list Z) : result (list s_net * list Z) :=
  for_each (imap (λ i blk, (Z.of_nat i, blk)) block_list)
    (λ st '(i, blk),
       for_each (Z.of_nat <$> seq 0 (Z.to_nat (num_pins (type blk))))
         (load_terminal blk i) st) st.

(** *** The check of global and non-global signals *)

(** [is_global_pin] of terminal [j] of a net. *)
Definition terminal_is_global (block_list : list s_block) (net : s_net) (j : Z)
    : result bool :=
  iblk ← read (node_block net) j;
  pin ← read (node_block_pin net) j;
  blk ← read block_list iblk;
  read (is_global_pin (type blk)) pin.

Definition mixed_message (net_name : string) : string :=
  "Netlist attempts to connect net " +:+ net_name +:+
  " to both global and non-global pins.".

(** The body of the last loop for one net. *)
Definition check_net (block_list : list s_block) (circuit_clocks : list string)
    (net : s_net) : result unit :=
  _ ← for_each (Z.of_nat <$> seq 1 (Z.to_nat (num_sinks net)))
        (λ _ j,
           let is_global_net := is_global net in
           pin_is_global ← terminal_is_global block_list net j;
           if negb (Bool.eqb pin_is_global is_global_net)
           then Err (VprThrow (mixed_message (default "" (name net))))
           else Ok tt) tt;
  for_each circuit_clocks
    (λ _ clock,
       if bool_decide (Some clock = name net)
       then VTR_ASSERT "(*ext_nets)[i].is_global == true" (is_global net)
       else Ok tt) tt.

(** [load_external_nets_and_cb] up to the check: the clusters with their
    [nets] filled in, [*ext_ncount] and [*ext_nets].  [nl] is [g_atom_nl]. *)
Definition load_nets_and_terminals (nl : Atom.AtomNetlist)
    (block_list : list s_block) : result (list s_block * Z * list s_net) :=
  '(ext_nhash, ext_ncount, block_list) ←
    for_each block_list (load_block_nets nl) (∅, 0, []);
  ext_nets ← alloc_and_init_netlist_from_hash ext_ncount ext_nhash;
  let count := replicate (Z.to_nat ext_ncount) 0 in
  '(ext_nets, _) ← load_terminals block_list (ext_nets, count);
  Ok (block_list, ext_ncount, ext_nets).

(** [load_external_nets_and_cb]. *)
Definition load_external_nets_and_cb (nl : Atom.AtomNetlist)
    (block_list : list s_block) (circuit_clocks : list string)
    : result (list s_block * Z * list s_net) :=
  '(block_list, ext_ncount, ext_nets) ← load_nets_and_terminals nl block_list;
  _ ← for_each ext_nets (λ _ net, check_net block_list circuit_clocks net) tt;
  Ok (block_list, ext_ncount, ext_nets).

(** *** Scenarios *)

(** An I/O pad with pins [outpad] (a receiver), [inpad] (a driver) and
    [clock] (a global receiver), and a logic block with pins [I], [O] and a
    global [clk]. *)
Definition io_type : t_type_descriptor :=
  {| num_pins := 3; capacity := 1; pin_class := [0; 1; 2];
     class_inf := [RECEIVER; DRIVER; RECEIVER];
     is_global_pin := [false; false; true];
     num_input_pins := 1; num_output_pins := 1; num_clock_pins := 1 |}.

Definition clb_type : t_type_descriptor := io_type.

(** A cluster whose three pins carry the given atom nets. *)
Definition cluster (ty : t_type_descriptor) (i o c : option nat) : s_block :=
  {| type := ty; input_pins := [[0]]; output_pins := [[1]]; clock_pins := [[2]];
     pb_route := [route i OPEN; route o OPEN; route c OPEN];
     nets := [OPEN; OPEN; OPEN] |}.

(** Atom nets [clk] (0), [a] (1) and [y] (2). *)
Definition three_nets : Atom.AtomNetlist :=
  {| Atom.nl_blocks := []; Atom.nl_ports := []; Atom.nl_pins := [];
     Atom.nl_nets := [Atom.a_net "clk" None []; Atom.a_net "a" None [];
                      Atom.a_net "y" None []] |}.

(** Pads drive [clk] and [a]; a logic block reads [a], is clocked by [clk] and
    drives [y] into a pad. *)
Definition clocked_design : list s_block :=
  [cluster io_type None (Some 0%nat) None;
   cluster io_type None (Some 1%nat) None;
   cluster clb_type (Some 1%nat) (Some 2%nat) (Some 0%nat);
   cluster io_type (Some 2%nat) None None].

(** As above, and a second logic block reads [clk] on its input [I]. *)
Definition mixed_design : list s_block :=
  clocked_design ++ [cluster clb_type (Some 0%nat) None None].

(** *** What the check establishes *)

(** The flags of the sink terminals [1 .. num_sinks] of a net are the flag
    of the net. *)
Definition sinks_agree (block_list : list s_block) (net : s_net) : Prop :=
  ∀ j, 1 ≤ j ≤ num_sinks net →
    terminal_is_global block_list net j = Ok (is_global net).

(** A net that bears the name of a circuit clock is global. *)
Definition clocks_are_global (circuit_clocks : list string) (net : s_net) : Prop :=
  ∀ clock, clock ∈ circuit_clocks → name net = Some clock → is_global net = true.

Lemma sink_indices (n : Z) (j : Z) :
  j ∈ Z.of_nat <$> seq 1 (Z.to_nat n) ↔ 1 ≤ j ≤ n.
Proof.
  rewrite list_elem_of_fmap. setoid_rewrite elem_of_seq. split.
  - intros (k & -> & Hk). lia.
  - intros Hj. exists (Z.to_nat j). lia.
Qed.

Lemma check_sink_ok block_list net j :
  (pin_is_global ← terminal_is_global block_list net j;
   if negb (Bool.eqb pin_is_global (is_global net))
   then Err (VprThrow (mixed_message (default "" (name net))))
   else Ok tt) = Ok tt
  ↔ terminal_is_global block_list net j = Ok (is_global net).
Proof.
  destruct (terminal_is_global block_list net j) as [b|e]; simpl; [|done].
  destruct b, (is_global net); simpl; split; done.
Qed.

Lemma check_net_ok block_list circuit_clocks net :
  check_net block_list circuit_clocks net = Ok tt
  ↔ sinks_agree block_list net ∧ clocks_are_global circuit_clocks net.
Proof.
  unfold check_net, sinks_agree, clocks_are_global.
  destruct (for_each (Z.of_nat <$> seq 1 (Z.to_nat (num_sinks net))) _ tt)
    as [[]|e] eqn:E; simpl.
  - rewrite for_each_unit in E. rewrite for_each_unit. split.
    + intros Hclk. split.
      * intros j Hj. apply check_sink_ok, E, sink_indices, Hj.
      * intros clock Hin Hname. specialize (Hclk clock Hin).
        rewrite bool_decide_eq_true_2 in Hclk by done.
        by destruct (is_global net).
    + intros [_ Hclk] clock Hin.
      destruct (bool_decide_reflect (Some clock = name net)) as [Hname|]; [|done].
      by rewrite (Hclk clock).
  - split; [done|]. intros [Hagree _].
    match type of E with ?t = _ => assert (t = Ok tt) as Hok end; [|congruence].
    apply for_each_unit. intros j Hj. apply check_sink_ok, Hagree, sink_indices, Hj.
Qed.

(** The first sink whose flag differs from the flag of the net is reported
    with the name of the net. *)
Lemma check_net_mixed block_list circuit_clocks net (k : nat) :
  (1 ≤ k)%nat → Z.of_nat k ≤ num_sinks net →
  (∀ j, 1 ≤ j < Z.of_nat k →
     terminal_is_global block_list net j = Ok (is_global net)) →
  terminal_is_global block_list net (Z.of_nat k) = Ok (negb (is_global net)) →
  check_net block_list circuit_clocks net
    = Err (VprThrow (mixed_message (default "" (name net)))).
Proof.
  intros Hk1 Hkn Hbefore Hk. unfold check_net.
  replace (Z.to_nat (num_sinks net))
    with ((k - 1) + S (Z.to_nat (num_sinks net) - k))%nat by lia.
  rewrite seq_app, fmap_app, for_each_app.
  replace (1 + (k - 1))%nat with k by lia. cbn [seq fmap list_fmap for_each].
  match goal with
  | |- context [for_each (Z.of_nat <$> seq 1 (k - 1)) ?body tt] =>
      assert (for_each (Z.of_nat <$> seq 1 (k - 1)) body tt = Ok tt) as ->
  end.
  { apply for_each_unit. intros j Hj. apply check_sink_ok, Hbefore.
    apply list_elem_of_fmap in Hj as (i & -> & Hi). apply elem_of_seq in Hi. lia. }
  cbn [mbind result_bind]. rewrite Hk. cbn [mbind result_bind].
  by destruct (is_global net).
Qed.

(** C2 (amended).  Once the nets and their terminals are loaded, the call
    returns exactly when, for every external net, the [is_global_pin] flags
    of all its sink terminals equal the global flag of the net and the net is
    global if its name is listed in [circuit_clocks]; and the first net of the
    list with a sink whose flag differs from the flag of the net makes the
    call throw the error that names this net.  (The flag of the driver
    terminal is not compared, and a listed clock that names no external net
    is not looked for.) *)
Theorem global_signals_are_checked (nl : Atom.AtomNetlist) (block_list0 : list s_block)
    (circuit_clocks : list string)
    (block_list : list s_block) (ext_ncount : Z) (ext_nets : list s_net) :
  load_nets_and_terminals nl block_list0 = Ok (block_list, ext_ncount, ext_nets) →
  (load_external_nets_and_cb nl block_list0 circuit_clocks
     = Ok (block_list, ext_ncount, ext_nets)
   ↔ ∀ net, net ∈ ext_nets →
       sinks_agree block_list net ∧ clocks_are_global circuit_clocks net)
  ∧ (∀ before net after (k : nat),
       ext_nets = before ++ net :: after →
       (∀ net', net' ∈ before →
          sinks_agree block_list net' ∧ clocks_are_global circuit_clocks net') →
       (1 ≤ k)%nat → Z.of_nat k ≤ num_sinks net →
       (∀ j, 1 ≤ j < Z.of_nat k →
          terminal_is_global block_list net j = Ok (is_global net)) →
       terminal_is_global block_list net (Z.of_nat k) = Ok (negb (is_global net)) →
       load_external_nets_and_cb nl block_list0 circuit_clocks
         = Err (VprThrow (mixed_message (default "" (name net))))).
Proof.
  intros Hload. unfold load_external_nets_and_cb. rewrite Hload.
  cbn [mbind result_bind]. split.
  - destruct (for_each ext_nets _ tt) as [[]|e] eqn:E; simpl.
    + split; [|done]. intros _ net Hin. apply check_net_ok.
      rewrite for_each_unit in E. by apply E.
    + split; [done|]. intros Hall.
      match type of E with ?t = _ => assert (t = Ok tt) as Hok end; [|congruence].
      apply for_each_unit. intros net Hin. apply check_net_ok. by apply Hall.
  - intros before net after k -> Hbefore Hk1 Hkn Hj Hk.
    rewrite for_each_app.
    assert (for_each before
              (λ _ net, check_net block_list circuit_clocks net) tt = Ok tt) as ->.
    { apply for_each_unit. intros net' Hin. apply check_net_ok. by apply Hbefore. }
    cbn [mbind result_bind for_each].
    by rewrite (check_net_mixed _ _ _ k).
Qed.

(** The theorem on [clocked_design] with the clocks [clk] and [gclk]. *)
Lemma global_signals_are_checked_witness :
  ∃ block_list ext_ncount ext_nets,
    load_nets_and_terminals three_nets clocked_design
      = Ok (block_list, ext_ncount, ext_nets)
    ∧ (load_external_nets_and_cb three_nets clocked_design ["clk"; "gclk"]
         = Ok (block_list, ext_ncount, ext_nets)
       ↔ ∀ net, net ∈ ext_nets →
           sinks_agree block_list net ∧ clocks_are_global ["clk"; "gclk"] net).
Proof.
  eexists. eexists. eexists. split.
  - vm_compute. reflexivity.
  - apply (global_signals_are_checked three_nets clocked_design ["clk"; "gclk"]).
    vm_compute. reflexivity.
Defined.

(** C2 as stated fails on [clocked_design]: the call returns, the net [clk]
    is global and so is its sink, the clock pin of the logic block, but its
    driver terminal, the [inpad] pin of a pad, is not a global pin; and the
    listed clock [gclk] names no external net. *)
Lemma driver_flag_is_not_compared :
  ∃ block_list ext_ncount ext_nets net,
    load_external_nets_and_cb three_nets clocked_design ["clk"; "gclk"]
      = Ok (block_list, ext_ncount, ext_nets)
    ∧ ext_nets !! 0%nat = Some net
    ∧ name net = Some "clk"
    ∧ is_global net = true
    ∧ terminal_is_global block_list net 1 = Ok true
    ∧ terminal_is_global block_list net 0 = Ok false
    ∧ ¬ (∃ net', net' ∈ ext_nets ∧ name net' = Some "gclk").
Proof.
  do 4 eexists. split; [vm_compute; reflexivity|].
  repeat split; try reflexivity.
  intros (net' & Hin & Hname).
  repeat (apply elem_of_cons in Hin as [->|Hin]; [discriminate Hname|]).
  by apply not_elem_of_nil in Hin.
Qed.

(** Scenario 2: [clk] on a clock pin and on a logic input. *)
Example mixed_global_rejected :
  load_external_nets_and_cb three_nets mixed_design ["clk"]
  = Err (VprThrow "Netlist attempts to connect net clk to both global and non-global pins.").
Proof. vm_compute. reflexivity. Qed.

(** *** The array of nets made from the hash table *)

(** The net [alloc_and_init_netlist_from_hash] makes of an entry of the
    table. *)
Definition fresh_net (nm : string) (h : s_hash) : s_net :=
  {| name := Some nm;
     num_sinks := h_count h - 1;
     node_block := replicate (Z.to_nat (h_count h)) OPEN;
     node_block_pin := replicate (Z.to_nat (h_count h)) OPEN;
     is_global := false |}.

Lemma read_lookup {A} (l : list A) (i : Z) x :
  0 ≤ i → l !! Z.to_nat i = Some x → read l i = Ok x.
Proof.
  intros Hi Hx. unfold read. destruct (Z.ltb_spec i 0); [lia|]. by rewrite Hx.
Qed.

Lemma write_insert {A} (l : list A) (i : Z) x :
  0 ≤ i < Z.of_nat (length l) → write l i x = Ok (<[Z.to_nat i := x]> l).
Proof.
  intros Hi. unfold write.
  destruct (Z.ltb_spec i 0); [lia|]. destruct (Z.leb_spec (Z.of_nat (length l)) i); [lia|].
  done.
Qed.

(** The loop over the entries of the table, for entries with different
    indices inside the array. *)
Lemma init_nets_loop (n : nat) : ∀ (entries : list (string * s_hash)) (nlist : list s_net),
  length nlist = n →
  NoDup entries →
  (∀ e, e ∈ entries → 0 ≤ h_index e.2 < Z.of_nat n) →
  (∀ e1 e2, e1 ∈ entries → e2 ∈ entries → h_index e1.2 = h_index e2.2 → e1 = e2) →
  (∀ e old, e ∈ entries → nlist !! Z.to_nat (h_index e.2) = Some old → name old = None) →
  ∃ nlist',
    for_each entries
      (λ nlist '(curr_name, curr_net),
         old ← read nlist (h_index curr_net);
         _ ← VTR_ASSERT "nlist[curr_net->index].name == NULL"
                        (bool_decide (name old = None));
         write nlist (h_index curr_net)
           {| name := Some curr_name;
              num_sinks := h_count curr_net - 1;
              node_block := replicate (Z.to_nat (h_count curr_net)) OPEN;
              node_block_pin := replicate (Z.to_nat (h_count curr_net)) OPEN;
              is_global := false |}) nlist
    = Ok nlist'
    ∧ length nlist' = n
    ∧ (∀ e, e ∈ entries → nlist' !! Z.to_nat (h_index e.2) = Some (fresh_net e.1 e.2))
    ∧ (∀ j, (∀ e, e ∈ entries → Z.to_nat (h_index e.2) ≠ j) → nlist' !! j = nlist !! j).
Proof.
  induction entries as [|[nm h] entries IH]; intros nlist Hlen Hnd Hrange Hinj Hnull.
  - exists nlist. split; [done|]. split; [done|].
    split; [intros e He; by apply not_elem_of_nil in He|done].
  - apply NoDup_cons in Hnd as [Hfirst Hnd]. cbn [for_each].
    pose proof (Hrange (nm, h) ltac:(left)) as Hidx. cbn [snd] in Hidx.
    destruct (lookup_lt_is_Some_2 nlist (Z.to_nat (h_index h))) as [old Hold]; [lia|].
    rewrite (read_lookup _ _ _ (proj1 Hidx) Hold). cbn [mbind result_bind].
    rewrite bool_decide_eq_true_2
      by (apply (Hnull (nm, h) old); [left|done]).
    cbn [VTR_ASSERT mbind result_bind].
    rewrite write_insert by lia. cbn [mbind result_bind].
    assert (∀ e, e ∈ entries → Z.to_nat (h_index e.2) ≠ Z.to_nat (h_index h)) as Hother.
    { intros e He Heq.
      assert (e = (nm, h)) as ->; [|done].
      apply Hinj; [by right|left|].
      pose proof (Hrange e ltac:(by right)). cbn [snd]. lia. }
    destruct (IH (<[Z.to_nat (h_index h) := fresh_net nm h]> nlist))
      as (nlist' & E & Hlen' & Hset & Hkeep).
    + by rewrite length_insert.
    + done.
    + intros e He. apply Hrange. by right.
    + intros e1 e2 H1 H2. apply Hinj; by right.
    + intros e old' He. rewrite list_lookup_insert_ne by (symmetry; by apply Hother).
      apply Hnull. by right.
    + exists nlist'. split; [exact E|]. split; [done|]. split.
      * intros e [->|He]%elem_of_cons; [|by apply Hset]. cbn [fst snd].
        rewrite Hkeep by done. apply list_lookup_insert_eq. lia.
      * intros j Hj. rewrite Hkeep by (intros e He; apply Hj; by right).
        apply list_lookup_insert_ne. apply (Hj (nm, h)). left.
Qed.

(** X18.  When the names of the table have different indices below
    [ncount], [alloc_and_init_netlist_from_hash] returns an array of [ncount]
    nets that holds, at the index of every name, a net with that name, one
    sink fewer than the name was seen, terminals that are all [OPEN] and the
    global flag cleared; a slot no name points to is left zeroed. *)
Theorem alloc_and_init_netlist_from_hash_places (ncount : Z)
    (nhash : gmap string s_hash) :
  (∀ nm h, nhash !! nm = Some h → 0 ≤ h_index h < ncount) →
  (∀ nm1 nm2 h1 h2, nhash !! nm1 = Some h1 → nhash !! nm2 = Some h2 →
     h_index h1 = h_index h2 → nm1 = nm2) →
  ∃ nlist,
    alloc_and_init_netlist_from_hash ncount nhash = Ok nlist
    ∧ length nlist = Z.to_nat ncount
    ∧ (∀ nm h, nhash !! nm = Some h →
         nlist !! Z.to_nat (h_index h) = Some (fresh_net nm h))
    ∧ (∀ j, (j < Z.to_nat ncount)%nat →
         (∀ nm h, nhash !! nm = Some h → Z.to_nat (h_index h) ≠ j) →
         nlist !! j = Some null_net).
Proof.
  intros Hrange Hinj. unfold alloc_and_init_netlist_from_hash.
  destruct (init_nets_loop (Z.to_nat ncount) (map_to_list nhash)
              (replicate (Z.to_nat ncount) null_net))
    as (nlist & E & Hlen & Hset & Hkeep).
  - apply length_replicate.
  - apply NoDup_map_to_list.
  - intros [nm h] He%elem_of_map_to_list. cbn [snd].
    specialize (Hrange nm h He). lia.
  - intros [nm1 h1] [nm2 h2] H1%elem_of_map_to_list H2%elem_of_map_to_list Heq.
    cbn [snd] in Heq. pose proof (Hinj _ _ _ _ H1 H2 Heq) as ->.
    f_equal. congruence.
  - intros e old _ Hold. by apply lookup_replicate in Hold as [-> _].
  - exists nlist. split; [exact E|]. split; [done|]. split.
    + intros nm h Hh. apply (Hset (nm, h)). by apply elem_of_map_to_list.
    + intros j Hj Hfree. rewrite Hkeep.
      * by apply lookup_replicate_2.
      * intros [nm h] He%elem_of_map_to_list. by apply (Hfree nm h).
Qed.

Lemma alloc_and_init_netlist_from_hash_places_witness :
  ∃ nlist,
    alloc_and_init_netlist_from_hash 3
      {[ "clk" := {| h_index := 1; h_count := 3 |};
         "a" := {| h_index := 0; h_count := 2 |} ]} = Ok nlist
    ∧ length nlist = 3%nat
    ∧ (∀ nm h,
         ({[ "clk" := {| h_index := 1; h_count := 3 |};
             "a" := {| h_index := 0; h_count := 2 |} ]} : gmap string s_hash) !! nm
         = Some h →
         nlist !! Z.to_nat (h_index h) = Some (fresh_net nm h))
    ∧ (∀ j, (j < 3)%nat →
         (∀ nm h,
            ({[ "clk" := {| h_index := 1; h_count := 3 |};
                "a" := {| h_index := 0; h_count := 2 |} ]} : gmap string s_hash) !! nm
            = Some h → Z.to_nat (h_index h) ≠ j) →
         nlist !! j = Some null_net).
Proof.
  apply (alloc_and_init_netlist_from_hash_places 3
           {[ "clk" := {| h_index := 1; h_count := 3 |};
              "a" := {| h_index := 0; h_count := 2 |} ]}).
  - intros nm h Hh. apply lookup_insert_Some in Hh as [[_ <-]|[_ Hh]]; [simpl; lia|].
    apply lookup_singleton_Some in Hh as [_ <-]. simpl. lia.
  - intros nm1 nm2 h1 h2 H1 H2.
    apply lookup_insert_Some in H1 as [[<- <-]|[? H1]];
      apply lookup_insert_Some in H2 as [[<- <-]|[? H2]]; try done;
      try (apply lookup_singleton_Some in H1 as [<- <-]);
      try (apply lookup_singleton_Some in H2 as [<- <-]); simpl; try done; lia.
Defined.

End ExtNets.

(** ** Absorbing buffer LUTs *)

Module Absorb.

Import TruthTable Atom.

(** *** The invariants of the atom netlist (section 3) *)

(** A net and its pins: the driver is a live [DRIVER] pin bound to the net,
    every sink is a live [SINK] pin bound to the net, no sink is listed
    twice. *)
Definition net_ok (nl : AtomNetlist) (n : nat) (net : Net) : bool :=
  match nt_driver net with
  | Some d => bool_decide (pin_type nl d = Some DRIVER ∧ pin_net nl d = Some n)
  | None => true
  end
  && forallb (λ s, bool_decide (pin_type nl s = Some SINK ∧ pin_net nl s = Some n))
             (nt_sinks net)
  && bool_decide (NoDup (nt_sinks net)).

(** A pin and its net: the net is live and lists the pin, as a sink or as the
    driver according to its type; the type follows the direction of the
    port. *)
Definition pin_ok (nl : AtomNetlist) (p : nat) (pin : Pin) : bool :=
  match pn_net pin with
  | Some n =>
      match entry (nl_nets nl) n with
      | Some net =>
          match pn_type pin with
          | SINK => bool_decide (p ∈ nt_sinks net)
          | DRIVER => bool_decide (nt_driver net = Some p)
          end
      | None => false
      end
  | None => true
  end
  && match port_type nl (pn_port pin) with
     | Some OUTPUT => bool_decide (pn_type pin = DRIVER)
     | Some _ => bool_decide (pn_type pin = SINK)
     | None => false
     end.

(** A combinational block has no clock pin; a "names" block has one output
    pin and truth-table rows of one value per input pin and the output
    value. *)
Definition block_ok (nl : AtomNetlist) (b : nat) (blk : Block) : bool :=
  if decide (blk_type blk = COMBINATIONAL) then
    bool_decide (block_clock_pins nl b = [])
    && (if decide (blk_model blk = "names") then
          (length (block_output_pins nl b) =? 1)%nat
          && forallb (λ row, (length row =? S (length (block_input_pins nl b)))%nat)
                     (blk_truth_table blk)
        else true)
  else true.

Definition all_entries {A} (table : list (option A)) (ok : nat → A → bool) : bool :=
  forallb (λ id, match entry table id with Some x => ok id x | None => true end)
          (seq 0 (length table)).

(** Live nets have different names. *)
Definition names_ok (nl : AtomNetlist) : bool :=
  forallb (λ n1, forallb (λ n2,
             bool_decide (net_name nl n1 = None ∨ net_name nl n1 ≠ net_name nl n2
                          ∨ n1 = n2))
             (seq 0 (length (nl_nets nl))))
          (seq 0 (length (nl_nets nl))).

Definition netlist_ok (nl : AtomNetlist) : bool :=
  all_entries (nl_nets nl) (net_ok nl)
  && all_entries (nl_pins nl) (pin_ok nl)
  && all_entries (nl_blocks nl) (block_ok nl)
  && names_ok nl.

Record well_formed (nl : AtomNetlist) : Prop := {
  wf_driver : ∀ n net d,
    entry (nl_nets nl) n = Some net → nt_driver net = Some d →
    pin_type nl d = Some DRIVER ∧ pin_net nl d = Some n;
  wf_sinks : ∀ n net s,
    entry (nl_nets nl) n = Some net → s ∈ nt_sinks net →
    pin_type nl s = Some SINK ∧ pin_net nl s = Some n;
  wf_sinks_nodup : ∀ n net,
    entry (nl_nets nl) n = Some net → NoDup (nt_sinks net);
  wf_pin_net : ∀ p pin n,
    entry (nl_pins nl) p = Some pin → pn_net pin = Some n →
    ∃ net, entry (nl_nets nl) n = Some net
           ∧ (pn_type pin = SINK → p ∈ nt_sinks net)
           ∧ (pn_type pin = DRIVER → nt_driver net = Some p);
  wf_pin_type : ∀ p pin,
    entry (nl_pins nl) p = Some pin →
    ∃ dir, port_type nl (pn_port pin) = Some dir
           ∧ pn_type pin = (if decide (dir = OUTPUT) then DRIVER else SINK);
  wf_names : ∀ n1 n2 name,
    net_name nl n1 = Some name → net_name nl n2 = Some name → n1 = n2;
  wf_comb : ∀ b blk,
    entry (nl_blocks nl) b = Some blk → blk_type blk = COMBINATIONAL →
    block_clock_pins nl b = []
    ∧ (blk_model blk = "names" →
       length (block_output_pins nl b) = 1%nat
       ∧ Forall (λ row, length row = S (length (block_input_pins nl b)))
                (blk_truth_table blk));
}.

Lemma all_entries_spec {A} (table : list (option A)) ok id x :
  all_entries table ok = true → entry table id = Some x → ok id x = true.
Proof.
  unfold all_entries. rewrite forallb_forall. intros H Hx.
  specialize (H id). rewrite Hx in H. apply H, in_seq.
  apply entry_Some, lookup_lt_Some in Hx. lia.
Qed.

Lemma netlist_ok_spec nl : netlist_ok nl = true → well_formed nl.
Proof.
  unfold netlist_ok. rewrite !andb_true_iff. intros [[[Hnets Hpins] Hblocks] Hnames].
  split.
  - intros n net d Hnet Hd. pose proof (all_entries_spec _ _ _ _ Hnets Hnet) as H.
    unfold net_ok in H. rewrite !andb_true_iff, Hd in H.
    destruct H as [[H _] _]. by apply bool_decide_eq_true in H.
  - intros n net s Hnet Hs. pose proof (all_entries_spec _ _ _ _ Hnets Hnet) as H.
    unfold net_ok in H. rewrite !andb_true_iff in H. destruct H as [[_ H] _].
    rewrite forallb_forall in H. specialize (H s).
    rewrite <- list_elem_of_In in H. specialize (H Hs).
    by apply bool_decide_eq_true in H.
  - intros n net Hnet. pose proof (all_entries_spec _ _ _ _ Hnets Hnet) as H.
    unfold net_ok in H. rewrite !andb_true_iff in H. destruct H as [_ H].
    by apply bool_decide_eq_true in H.
  - intros p pin n Hpin Hn. pose proof (all_entries_spec _ _ _ _ Hpins Hpin) as H.
    unfold pin_ok in H. rewrite andb_true_iff, Hn in H. destruct H as [H _].
    destruct (entry (nl_nets nl) n) as [net|]; [|done].
    exists net. split; [done|].
    destruct (pn_type pin); apply bool_decide_eq_true in H; split; done.
  - intros p pin Hpin. pose proof (all_entries_spec _ _ _ _ Hpins Hpin) as H.
    unfold pin_ok in H. rewrite andb_true_iff in H. destruct H as [_ H].
    destruct (port_type nl (pn_port pin)) as [dir|]; [|done].
    exists dir. split; [done|].
    destruct dir; apply bool_decide_eq_true in H; done.
  - intros n1 n2 name H1 H2. unfold names_ok in Hnames.
    rewrite forallb_forall in Hnames.
    assert (∀ n, net_name nl n = Some name → In n (seq 0 (length (nl_nets nl)))) as Hin.
    { intros n Hn. apply in_seq. unfold net_name in Hn.
      destruct (entry (nl_nets nl) n) as [net|] eqn:E; [|done].
      apply entry_Some, lookup_lt_Some in E. lia. }
    specialize (Hnames n1 (Hin _ H1)). rewrite forallb_forall in Hnames.
    specialize (Hnames n2 (Hin _ H2)). apply bool_decide_eq_true in Hnames.
    destruct Hnames as [?|[?|?]]; congruence.
  - intros b blk Hblk Hty. pose proof (all_entries_spec _ _ _ _ Hblocks Hblk) as H.
    unfold block_ok in H. rewrite decide_True in H by done.
    apply andb_true_iff in H as [Hclk H]. apply bool_decide_eq_true in Hclk.
    split; [done|]. intros Hmodel. rewrite decide_True in H by done.
    apply andb_true_iff in H as [Hout Hrows]. apply Nat.eqb_eq in Hout.
    split; [done|]. apply Forall_forall. intros row Hrow.
    rewrite forallb_forall in Hrows. apply Nat.eqb_eq, Hrows.
    by apply list_elem_of_In.
Qed.

Example pad_buffer_pad_ok : netlist_ok pad_buffer_pad = true.
Proof. vm_compute. reflexivity. Qed.

Example pad_fanout_buffer_ok : netlist_ok pad_fanout_buffer = true.
Proof. vm_compute. reflexivity. Qed.

Example lut_buffer_lut_ok : netlist_ok lut_buffer_lut = true.
Proof. vm_compute. reflexivity. Qed.

(** *** The shape of a buffer LUT in a well-formed netlist *)

Lemma buffer_lut_inv nl blk :
  is_buffer_lut nl blk = Ok true →
  ∃ b row,
    entry (nl_blocks nl) blk = Some b
    ∧ blk_type b = COMBINATIONAL ∧ blk_model b = "names"
    ∧ connected_pins nl (block_input_pins nl blk) = 1%nat
    ∧ connected_pins nl (block_output_pins nl blk) = 1%nat
    ∧ blk_truth_table b = [row] ∧ length row = 2%nat.
Proof.
  unfold is_buffer_lut, block_type, block_model, block_truth_table.
  destruct (entry (nl_blocks nl) blk) as [b|]; simpl; [|intros [=]].
  destruct (decide (Some (blk_type b) = Some COMBINATIONAL)) as [[= Hty]|];
    [|intros [=]].
  destruct (decide (Some (blk_model b) = Some "names")) as [[= Hmodel]|];
    [|intros [=]].
  destruct ((length (block_input_ports nl blk) =? 1)%nat
            && (length (block_output_ports nl blk) =? 1)%nat); [|intros [=]].
  destruct (Nat.eqb_spec (connected_pins nl (block_input_pins nl blk)) 1) as [Hci|];
    [|simpl; intros [=]].
  destruct (Nat.eqb_spec (connected_pins nl (block_output_pins nl blk)) 1) as [Hco|];
    [|simpl; intros [=]].
  simpl. destruct (blk_truth_table b) as [|row [|row' rows]] eqn:Htable; simpl;
    try (intros H; discriminate H).
  destruct (Nat.eqb_spec (length row) 2) as [Hrow|]; simpl; [|intros [=]].
  intros _. exists b, row. done.
Qed.

Lemma elem_of_block_pins_of nl blk dir pin :
  pin ∈ block_pins_of nl blk dir ↔
  pin_block nl pin = Some blk ∧ pin_port nl pin ≫= port_type nl = Some dir.
Proof.
  unfold block_pins_of. rewrite list_elem_of_filter, elem_of_seq.
  split; [tauto|]. intros [Hb Hd]. split; [done|].
  unfold pin_block, pin_port in Hb.
  destruct (entry (nl_pins nl) pin) as [p|] eqn:E; [|done].
  apply entry_Some, lookup_lt_Some in E. lia.
Qed.

Lemma singleton_of_length {A} (l : list A) : length l = 1%nat → ∃ x, l = [x].
Proof. destruct l as [|x [|y l]]; try done. by exists x. Qed.

Lemma pin_net_entry nl p n :
  pin_net nl p = Some n → ∃ pin, entry (nl_pins nl) p = Some pin ∧ pn_net pin = Some n.
Proof.
  unfold pin_net. destruct (entry (nl_pins nl) p) as [pin|]; [|done].
  simpl. intros H. by exists pin.
Qed.

(** The block, its two pins and its two nets. *)
Record buffer (nl : AtomNetlist) (blk P_in P_out n_in n_out : nat)
    (net_in net_out : Net) : Prop := {
  buf_input_pins : block_input_pins nl blk = [P_in];
  buf_output_pins : block_output_pins nl blk = [P_out];
  buf_clock_pins : block_clock_pins nl blk = [];
  buf_block : is_Some (entry (nl_blocks nl) blk);
  buf_in_net : pin_net nl P_in = Some n_in;
  buf_out_net : pin_net nl P_out = Some n_out;
  buf_in_type : pin_type nl P_in = Some SINK;
  buf_out_type : pin_type nl P_out = Some DRIVER;
  buf_net_in : entry (nl_nets nl) n_in = Some net_in;
  buf_net_out : entry (nl_nets nl) n_out = Some net_out;
  buf_in_sink : P_in ∈ nt_sinks net_in;
  buf_out_driver : nt_driver net_out = Some P_out;
}.

Lemma pin_on_port nl blk dir P :
  well_formed nl → P ∈ block_pins_of nl blk dir →
  pin_type nl P = Some (if decide (dir = OUTPUT) then DRIVER else SINK).
Proof.
  intros Hwf [_ Hdir]%elem_of_block_pins_of. unfold pin_port, pin_type in *.
  destruct (entry (nl_pins nl) P) as [pin|] eqn:E; [|done]. simpl in *.
  destruct (wf_pin_type _ Hwf _ _ E) as (dir' & Hd' & Hty).
  rewrite Hd' in Hdir. injection Hdir as ->. by rewrite Hty.
Qed.

Lemma connected_single nl P :
  connected_pins nl [P] = 1%nat → ∃ n, pin_net nl P = Some n.
Proof.
  unfold connected_pins. destruct (pin_net nl P) as [n|] eqn:E; [by eauto|].
  rewrite filter_cons_False; [done|]. rewrite E. by intros [? ?].
Qed.

Lemma buffer_lut_shape nl blk :
  well_formed nl → is_buffer_lut nl blk = Ok true →
  ∃ P_in P_out n_in n_out net_in net_out,
    buffer nl blk P_in P_out n_in n_out net_in net_out.
Proof.
  intros Hwf (b & row & Hb & Hty & Hmodel & Hci & Hco & Htable & Hrow)%buffer_lut_inv.
  destruct (wf_comb _ Hwf _ _ Hb Hty) as [Hclk Hnames].
  destruct (Hnames Hmodel) as [Hout Hrows].
  rewrite Htable in Hrows. apply Forall_cons in Hrows as [Hwidth _].
  destruct (singleton_of_length (block_input_pins nl blk)) as [P_in HPin]; [lia|].
  destruct (singleton_of_length (block_output_pins nl blk)) as [P_out HPout]; [done|].
  rewrite HPin in Hci. rewrite HPout in Hco.
  destruct (connected_single _ _ Hci) as [n_in Hnin].
  destruct (connected_single _ _ Hco) as [n_out Hnout].
  assert (pin_type nl P_in = Some SINK) as Htin.
  { apply (pin_on_port nl blk INPUT); [done|].
    unfold block_input_pins in HPin. rewrite HPin. left. }
  assert (pin_type nl P_out = Some DRIVER) as Htout.
  { apply (pin_on_port nl blk OUTPUT); [done|].
    unfold block_output_pins in HPout. rewrite HPout. left. }
  destruct (pin_net_entry _ _ _ Hnin) as (pin_in & Epin_in & Hpn_in).
  destruct (pin_net_entry _ _ _ Hnout) as (pin_out & Epin_out & Hpn_out).
  destruct (wf_pin_net _ Hwf _ _ _ Epin_in Hpn_in) as (net_in & Enet_in & Hsink & _).
  destruct (wf_pin_net _ Hwf _ _ _ Epin_out Hpn_out) as (net_out & Enet_out & _ & Hdrv).
  unfold pin_type in Htin, Htout. rewrite Epin_in in Htin. rewrite Epin_out in Htout.
  simpl in Htin, Htout. injection Htin as Htin. injection Htout as Htout.
  exists P_in, P_out, n_in, n_out, net_in, net_out.
  split; try done; eauto.
  - unfold pin_type. by rewrite Epin_in, <- Htin.
  - unfold pin_type. by rewrite Epin_out, <- Htout.
Qed.

(** *** [remove_buffer_lut] on a buffer *)

(** The sinks of the merged net: those of the input net but the input pin of
    the buffer, then those of the output net. *)
Definition merged_sinks (P_in : nat) (net_in net_out : Net) : list nat :=
  filter (λ id, id ≠ P_in) (nt_sinks net_in) ++ nt_sinks net_out.

(** The second half of [remove_buffer_lut], past the choice of the name. *)
Definition absorb (nl : AtomNetlist) (blk input_net output_net : nat)
    (new_driver : option nat) (new_net_name : string) (new_sinks : list nat)
    : result AtomNetlist :=
  let initial_input_net_pins := length (net_pins nl input_net) in
  let nl := remove_block nl blk in
  _ ← VTR_ASSERT "netlist.net_pins(input_net).size() == initial_input_net_pins - 1"
        (Z.of_nat (length (net_pins nl input_net))
         =? size_minus_one initial_input_net_pins);
  _ ← VTR_ASSERT "netlist.net_driver(output_net) == AtomPinId::INVALID()"
        (bool_decide (net_driver nl output_net = None));
  let nl := remove_net nl input_net in
  let nl := remove_net nl output_net in
  '(nl, _) ← add_net nl new_net_name new_driver new_sinks;
  Ok nl.

Lemma any_of_sinks nl (l : list nat) :
  (∀ pin, pin ∈ l → pin_type nl pin = Some SINK) →
  any_of l
    (λ pin_id,
       _ ← VTR_ASSERT "netlist.pin_type(pin_id) == AtomPinType::SINK"
                      (bool_decide (pin_type nl pin_id = Some SINK));
       Ok (pin_is_on nl OUTPAD pin_id))
  = Ok (existsb (pin_is_on nl OUTPAD) l).
Proof.
  induction l as [|pin l IH]; intros Hall; [done|]. simpl.
  rewrite bool_decide_eq_true_2 by (apply Hall; left). simpl.
  destruct (pin_is_on nl OUTPAD pin); [done|]. simpl.
  apply IH. intros pin' Hin. apply Hall. by right.
Qed.

Lemma length_filter_ne (x : nat) (l : list nat) :
  NoDup l → x ∈ l → S (length (filter (λ y, y ≠ x) l)) = length l.
Proof.
  induction l as [|y l IH]; intros Hnd Hin; [by apply not_elem_of_nil in Hin|].
  apply NoDup_cons in Hnd as [Hy Hnd].
  destruct (decide (y = x)) as [->|Hne].
  - rewrite filter_cons_False by (intros H; by apply H). simpl. f_equal.
    clear IH Hin. induction l as [|z l IH]; [done|].
    apply not_elem_of_cons in Hy as [Hz Hy]. apply NoDup_cons in Hnd as [_ Hnd].
    rewrite filter_cons_True by done. simpl. f_equal. by apply IH.
  - rewrite filter_cons_True by done. simpl. f_equal. apply IH; [done|].
    apply elem_of_cons in Hin as [->|Hin]; [done|done].
Qed.

Section Buffer.

Context (nl : AtomNetlist) (blk P_in P_out n_in n_out : nat) (net_in net_out : Net).
Context (d : nat).
Hypothesis Hwf : well_formed nl.
Hypothesis Hbuf : buffer nl blk P_in P_out n_in n_out net_in net_out.
Hypothesis Hdriver : nt_driver net_in = Some d.

Lemma net_in_driver : net_driver nl n_in = Some d.
Proof. unfold net_driver. by rewrite (buf_net_in _ _ _ _ _ _ _ _ Hbuf). Qed.

Lemma net_in_sinks : net_sinks nl n_in = nt_sinks net_in.
Proof. unfold net_sinks. by rewrite (buf_net_in _ _ _ _ _ _ _ _ Hbuf). Qed.

Lemma net_out_sinks : net_sinks nl n_out = nt_sinks net_out.
Proof. unfold net_sinks. by rewrite (buf_net_out _ _ _ _ _ _ _ _ Hbuf). Qed.

Lemma merged_sinks_are_sinks pin :
  pin ∈ merged_sinks P_in net_in net_out →
  pin_type nl pin = Some SINK
  ∧ (pin_net nl pin = Some n_in ∧ pin ≠ P_in ∨ pin_net nl pin = Some n_out).
Proof.
  unfold merged_sinks. rewrite elem_of_app, list_elem_of_filter.
  intros [[Hne Hin]|Hin].
  - destruct (wf_sinks _ Hwf _ _ _ (buf_net_in _ _ _ _ _ _ _ _ Hbuf) Hin) as [Hty Hnet].
    split; [done|]. by left.
  - destruct (wf_sinks _ Hwf _ _ _ (buf_net_out _ _ _ _ _ _ _ _ Hbuf) Hin) as [Hty Hnet].
    split; [done|]. by right.
Qed.

Lemma merged_sinks_length :
  S (length (merged_sinks P_in net_in net_out))
  = (length (nt_sinks net_in) + length (nt_sinks net_out))%nat.
Proof.
  unfold merged_sinks. rewrite length_app.
  pose proof (length_filter_ne P_in (nt_sinks net_in)
                (wf_sinks_nodup _ Hwf _ _ (buf_net_in _ _ _ _ _ _ _ _ Hbuf))
                (buf_in_sink _ _ _ _ _ _ _ _ Hbuf)).
  lia.
Qed.

(** [remove_buffer_lut] up to the choice between leaving the buffer and
    absorbing it. *)
Lemma remove_buffer_lut_unfold :
  remove_buffer_lut nl blk =
  let new_sinks := merged_sinks P_in net_in net_out in
  let driver_is_pi := pin_is_on nl INPAD d in
  let po_in_sinks := existsb (pin_is_on nl OUTPAD) new_sinks in
  if driver_is_pi && po_in_sinks then Ok nl
  else absorb nl blk n_in n_out (Some d)
         (if driver_is_pi then nt_name net_in else nt_name net_out) new_sinks.
Proof.
  unfold remove_buffer_lut.
  rewrite (buf_input_pins _ _ _ _ _ _ _ _ Hbuf), (buf_output_pins _ _ _ _ _ _ _ _ Hbuf).
  cbn [length Nat.eqb VTR_ASSERT mbind result_bind head require].
  rewrite (buf_in_net _ _ _ _ _ _ _ _ Hbuf), (buf_out_net _ _ _ _ _ _ _ _ Hbuf).
  cbn [mbind option_bind from_option]. rewrite net_in_driver.
  cbn [mbind option_bind from_option].
  destruct (wf_driver _ Hwf _ _ _ (buf_net_in _ _ _ _ _ _ _ _ Hbuf) Hdriver) as [Hdty _].
  rewrite bool_decide_eq_true_2 by done. cbn [VTR_ASSERT mbind result_bind].
  rewrite net_in_sinks, net_out_sinks.
  fold (merged_sinks P_in net_in net_out).
  pose proof merged_sinks_length as Hlen.
  assert ((Z.of_nat (length (merged_sinks P_in net_in net_out))
           =? size_minus_one (length (nt_sinks net_in) + length (nt_sinks net_out)))
          = true) as ->.
  { unfold size_minus_one. rewrite decide_False by lia. apply Z.eqb_eq. lia. }
  cbn [VTR_ASSERT mbind result_bind].
  rewrite any_of_sinks by (intros pin Hin; by apply merged_sinks_are_sinks).
  cbn [mbind result_bind].
  destruct (pin_is_on nl INPAD d), (existsb _ _); cbn [andb negb]; try done;
    unfold net_name;
    rewrite ?(buf_net_in _ _ _ _ _ _ _ _ Hbuf), ?(buf_net_out _ _ _ _ _ _ _ _ Hbuf);
    done.
Qed.

End Buffer.

(** The nets of the two pins of a block with one input pin and one output
    pin. *)
Definition input_net_of (nl : AtomNetlist) (blk : nat) : option nat :=
  head (block_input_pins nl blk) ≫= pin_net nl.
Definition output_net_of (nl : AtomNetlist) (blk : nat) : option nat :=
  head (block_output_pins nl blk) ≫= pin_net nl.

Lemma buffer_nets nl blk P_in P_out n_in n_out net_in net_out :
  buffer nl blk P_in P_out n_in n_out net_in net_out →
  input_net_of nl blk = Some n_in ∧ output_net_of nl blk = Some n_out.
Proof.
  intros Hbuf. unfold input_net_of, output_net_of.
  rewrite (buf_input_pins _ _ _ _ _ _ _ _ Hbuf), (buf_output_pins _ _ _ _ _ _ _ _ Hbuf).
  simpl. by rewrite (buf_in_net _ _ _ _ _ _ _ _ Hbuf), (buf_out_net _ _ _ _ _ _ _ _ Hbuf).
Qed.

(** C4.  In a well-formed netlist, a buffer LUT whose input net is driven
    from an input pad and whose output net has a sink on an output pad is left
    alone: [remove_buffer_lut] returns the netlist it was given. *)
Theorem remove_buffer_lut_keeps_pad_to_pad (nl : AtomNetlist) (blk n_in d n_out : nat) :
  netlist_ok nl = true →
  is_buffer_lut nl blk = Ok true →
  input_net_of nl blk = Some n_in →
  net_driver nl n_in = Some d →
  pin_is_on nl INPAD d = true →
  output_net_of nl blk = Some n_out →
  existsb (pin_is_on nl OUTPAD) (net_sinks nl n_out) = true →
  remove_buffer_lut nl blk = Ok nl.
Proof.
  intros Hwf%netlist_ok_spec Hlut Hin Hd Hpi Hout Hpo.
  destruct (buffer_lut_shape nl blk Hwf Hlut)
    as (P_in & P_out & n_in' & n_out' & net_in & net_out & Hbuf).
  destruct (buffer_nets _ _ _ _ _ _ _ _ Hbuf) as [Hin' Hout'].
  assert (n_in' = n_in) as -> by congruence.
  assert (n_out' = n_out) as -> by congruence.
  assert (nt_driver net_in = Some d) as Hdriver.
  { unfold net_driver in Hd. by rewrite (buf_net_in _ _ _ _ _ _ _ _ Hbuf) in Hd. }
  rewrite (remove_buffer_lut_unfold nl blk P_in P_out n_in n_out net_in net_out d
             Hwf Hbuf Hdriver).
  cbn zeta. rewrite Hpi.
  assert (existsb (pin_is_on nl OUTPAD) (merged_sinks P_in net_in net_out) = true) as ->.
  { unfold merged_sinks. rewrite existsb_app.
    rewrite (net_out_sinks nl blk P_in P_out n_in n_out net_in net_out Hbuf) in Hpo.
    rewrite Hpo. apply orb_true_r. }
  done.
Qed.

(** The theorem at the buffer of [pad_buffer_pad] (scenario 5). *)
Lemma remove_buffer_lut_keeps_pad_to_pad_witness :
  remove_buffer_lut pad_buffer_pad 1 = Ok pad_buffer_pad.
Proof.
  apply (remove_buffer_lut_keeps_pad_to_pad pad_buffer_pad 1 0 0 1);
    vm_compute; reflexivity.
Defined.

(** *** Tables under the mutators *)

Lemma entry_alter {A} (f : A → A) (table : list (option A)) i j :
  entry (alter (λ o : option A, f <$> o) i table) j
  = if decide (i = j) then f <$> entry table j else entry table j.
Proof.
  unfold entry. destruct (decide (i = j)) as [->|Hne].
  - rewrite list_lookup_alter_eq. by destruct (table !! j) as [[x|]|].
  - by rewrite list_lookup_alter_ne.
Qed.

Lemma entry_tombstone {A} (table : list (option A)) i j :
  entry (<[i := None]> table) j = if decide (i = j) then None else entry table j.
Proof.
  destruct (decide (i = j)) as [->|Hne];
    [apply entry_tombstone_eq|by apply entry_tombstone_ne].
Qed.

Lemma entry_fmap {A} (f : A → A) (table : list (option A)) j :
  entry ((λ o : option A, f <$> o) <$> table) j = f <$> entry table j.
Proof.
  unfold entry. rewrite list_lookup_fmap. by destruct (table !! j) as [[x|]|].
Qed.

Lemma entry_app_l {A} (table : list (option A)) (x : option A) j :
  (j < length table)%nat → entry (table ++ [x]) j = entry table j.
Proof. intros Hj. unfold entry. by rewrite lookup_app_l. Qed.

Lemma entry_app_new {A} (table : list (option A)) (x : option A) :
  entry (table ++ [x]) (length table) = x.
Proof.
  unfold entry. rewrite lookup_app_r by lia. rewrite Nat.sub_diag. simpl.
  by destruct x.
Qed.

Lemma entry_bind_pins net (l : list nat) : ∀ (pins : list (option Pin)) p,
  entry (foldl (λ pins pin, alter (λ o : option Pin, bind_net net <$> o) pin pins)
               pins l) p
  = if decide (p ∈ l) then bind_net net <$> entry pins p else entry pins p.
Proof.
  induction l as [|q l IH]; intros pins p.
  - cbn [foldl]. destruct (decide (p ∈ [])) as [H|]; [|done].
    by apply not_elem_of_nil in H.
  - cbn [foldl]. rewrite IH, entry_alter.
    destruct (decide (p ∈ l)) as [Hin|Hnotin];
      destruct (decide (q = p)) as [Heq|Hne];
      destruct (decide (p ∈ q :: l)) as [Hin'|Hnotin']; try done;
      try (exfalso; apply Hnotin'; apply elem_of_cons; auto; fail).
    + by destruct (entry pins p) as [[]|].
    + apply elem_of_cons in Hin' as [Heq|?]; [by subst|done].
Qed.

Lemma remove_ports_pins ports : ∀ nl,
  nl_pins (foldl remove_port nl ports) = nl_pins nl.
Proof. induction ports as [|p ports IH]; intros nl; simpl; [done|]. by rewrite IH. Qed.

Lemma two_elements (l : list nat) (a b : nat) :
  NoDup l → (∀ x, x ∈ l ↔ x = a ∨ x = b) → a ≠ b → l = [a; b] ∨ l = [b; a].
Proof.
  intros Hnd Hel Hne.
  assert (a ∈ l) as Ha by (apply Hel; by left).
  assert (b ∈ l) as Hb by (apply Hel; by right).
  destruct l as [|x [|y [|z l]]].
  - by apply not_elem_of_nil in Ha.
  - apply list_elem_of_singleton in Ha, Hb. congruence.
  - apply NoDup_cons in Hnd as [Hxy _]. apply not_elem_of_cons in Hxy as [Hxy _].
    assert (x = a ∨ x = b) as Hx by (apply Hel; left).
    assert (y = a ∨ y = b) as Hy by (apply Hel; right; left).
    destruct Hx as [->| ->], Hy as [->| ->]; try done; auto.
  - exfalso.
    apply NoDup_cons in Hnd as [Hx Hnd]. apply NoDup_cons in Hnd as [Hy _].
    apply not_elem_of_cons in Hx as [Hxy Hx]. apply not_elem_of_cons in Hx as [Hxz _].
    apply not_elem_of_cons in Hy as [Hyz _].
    assert (x = a ∨ x = b) as Hx' by (apply Hel; left).
    assert (y = a ∨ y = b) as Hy' by (apply Hel; right; left).
    assert (z = a ∨ z = b) as Hz' by (apply Hel; right; right; left).
    destruct Hx' as [->| ->], Hy' as [->| ->], Hz' as [->| ->]; done.
Qed.

Lemma remove_pin_pins nl p q :
  entry (nl_pins (remove_pin nl p)) q
  = if decide (p = q) then None else entry (nl_pins nl) q.
Proof. apply entry_tombstone. Qed.

Lemma remove_pin_nets nl p n m :
  pin_net nl p = Some n →
  entry (nl_nets (remove_pin nl p)) m
  = if decide (n = m) then detach_pin p <$> entry (nl_nets nl) m
    else entry (nl_nets nl) m.
Proof. intros Hn. unfold remove_pin. simpl. rewrite Hn. apply entry_alter. Qed.

Lemma remove_pin_nets_length nl p :
  length (nl_nets (remove_pin nl p)) = length (nl_nets nl).
Proof.
  unfold remove_pin. simpl. destruct (pin_net nl p); [apply length_alter|done].
Qed.

Lemma remove_net_pins nl n q :
  entry (nl_pins (remove_net nl n)) q = unbind_net n <$> entry (nl_pins nl) q.
Proof. apply entry_fmap. Qed.

Lemma remove_net_nets nl n m :
  entry (nl_nets (remove_net nl n)) m
  = if decide (n = m) then None else entry (nl_nets nl) m.
Proof. apply entry_tombstone. Qed.

(** The nets after two pins [a] and [b], bound to different nets [na] and
    [nb], were removed. *)
Definition detached (nl : AtomNetlist) (a b na nb : nat) (m : nat) : option Net :=
  if decide (m = na) then detach_pin a <$> entry (nl_nets nl) m
  else if decide (m = nb) then detach_pin b <$> entry (nl_nets nl) m
  else entry (nl_nets nl) m.

Lemma detached_sym nl a b na nb m :
  na ≠ nb → detached nl a b na nb m = detached nl b a nb na m.
Proof.
  intros Hne. unfold detached.
  destruct (decide (m = na)), (decide (m = nb)); congruence.
Qed.

Lemma remove_two_pins nl a b na nb :
  a ≠ b → pin_net nl a = Some na → pin_net nl b = Some nb →
  let nl' := remove_pin (remove_pin nl a) b in
  length (nl_nets nl') = length (nl_nets nl)
  ∧ (∀ q, entry (nl_pins nl') q
          = if decide (q = a ∨ q = b) then None else entry (nl_pins nl) q)
  ∧ (na ≠ nb → ∀ m, entry (nl_nets nl') m = detached nl a b na nb m).
Proof.
  intros Hab Ha Hb nl'. subst nl'.
  assert (pin_net (remove_pin nl a) b = Some nb) as Hb'.
  { unfold pin_net. rewrite remove_pin_pins. by rewrite decide_False. }
  split; [by rewrite !remove_pin_nets_length|]. split.
  - intros q. rewrite !remove_pin_pins.
    destruct (decide (b = q)), (decide (a = q)), (decide (q = a ∨ q = b)) as [[?|?]|Hno];
      try done; exfalso; apply Hno; auto.
  - intros Hne m. rewrite (remove_pin_nets _ _ _ _ Hb'), (remove_pin_nets _ _ _ _ Ha).
    unfold detached.
    destruct (decide (nb = m)), (decide (na = m)), (decide (m = na)), (decide (m = nb));
      congruence.
Qed.

Lemma find_net_fresh nl name :
  (∀ m, net_name nl m ≠ Some name) → find_net nl name = None.
Proof.
  intros Hfresh. unfold find_net. apply head_None.
  destruct (filter _ _) as [|m l] eqn:E; [done|].
  assert (m ∈ m :: l) as Hin by left. rewrite <- E in Hin.
  apply list_elem_of_filter in Hin as [Hm _]. by apply Hfresh in Hm.
Qed.

Lemma unbind_other n pin : pn_net pin ≠ Some n → unbind_net n pin = pin.
Proof.
  intros Hne. destruct pin as [port bit type net const]. unfold unbind_net. simpl in *.
  by rewrite decide_False.
Qed.

(** *** Absorbing a buffer between two different nets *)

(** What absorbing the buffer [blk] (pins [P_in] and [P_out], nets [n_in] and
    [n_out]) into one net makes of the netlist [nl]: the block, its two pins
    and the two nets are gone, one net with the next id is new, its driver and
    sinks are bound to it, and every other net and pin is as it was. *)
Record absorbed (nl nl' : AtomNetlist) (blk P_in P_out n_in n_out d : nat)
    (name : string) (sinks : list nat) : Prop := {
  abs_blocks : nl_blocks nl' = <[blk := None]> (nl_blocks nl);
  abs_pin_in : entry (nl_pins nl') P_in = None;
  abs_pin_out : entry (nl_pins nl') P_out = None;
  abs_net_in : entry (nl_nets nl') n_in = None;
  abs_net_out : entry (nl_nets nl') n_out = None;
  abs_one_new : length (nl_nets nl') = S (length (nl_nets nl));
  abs_new_net :
    entry (nl_nets nl') (length (nl_nets nl))
    = Some {| nt_name := name; nt_driver := Some d; nt_sinks := sinks;
              nt_is_constant := false; nt_is_global := false |};
  abs_other_nets : ∀ m,
    m ≠ n_in → m ≠ n_out → (m < length (nl_nets nl))%nat →
    entry (nl_nets nl') m = entry (nl_nets nl) m;
  abs_driver_bound : pin_net nl' d = Some (length (nl_nets nl));
  abs_sinks_bound : ∀ s, s ∈ sinks → pin_net nl' s = Some (length (nl_nets nl));
  abs_other_pins : ∀ q,
    q ≠ P_in → q ≠ P_out → q ≠ d → q ∉ sinks →
    entry (nl_pins nl') q = entry (nl_pins nl) q;
}.

Section Absorbed.

Context (nl : AtomNetlist) (blk P_in P_out n_in n_out : nat) (net_in net_out : Net).
Context (d : nat).
Hypothesis Hwf : well_formed nl.
Hypothesis Hbuf : buffer nl blk P_in P_out n_in n_out net_in net_out.
Hypothesis Hdriver : nt_driver net_in = Some d.
Hypothesis Hdistinct : n_in ≠ n_out.

Let Hnet_in := buf_net_in _ _ _ _ _ _ _ _ Hbuf.
Let Hnet_out := buf_net_out _ _ _ _ _ _ _ _ Hbuf.

Lemma buffer_pins_differ : P_in ≠ P_out.
Proof.
  intros ->. pose proof (buf_in_type _ _ _ _ _ _ _ _ Hbuf) as H1.
  pose proof (buf_out_type _ _ _ _ _ _ _ _ Hbuf) as H2. congruence.
Qed.

Lemma driver_is_not_buffer_pin : d ≠ P_in ∧ d ≠ P_out.
Proof.
  destruct (wf_driver _ Hwf _ _ _ Hnet_in Hdriver) as [Hty Hnet]. split; intros ->.
  - pose proof (buf_in_type _ _ _ _ _ _ _ _ Hbuf). congruence.
  - pose proof (buf_out_net _ _ _ _ _ _ _ _ Hbuf). congruence.
Qed.

Lemma merged_sink_is_not_buffer_pin s :
  s ∈ merged_sinks P_in net_in net_out → s ≠ P_in ∧ s ≠ P_out ∧ s ≠ d.
Proof.
  intros Hs.
  destruct (merged_sinks_are_sinks nl blk P_in P_out n_in n_out net_in net_out
              Hwf Hbuf s Hs) as [Hty Hnet].
  destruct (wf_driver _ Hwf _ _ _ Hnet_in Hdriver) as [Hdty _].
  split; [|split]; intros ->.
  - destruct Hnet as [[_ ?]|Hnet]; [done|].
    pose proof (buf_in_net _ _ _ _ _ _ _ _ Hbuf). congruence.
  - pose proof (buf_out_type _ _ _ _ _ _ _ _ Hbuf). congruence.
  - congruence.
Qed.

Lemma buffer_block_pins :
  block_pins nl blk = [P_in; P_out] ∨ block_pins nl blk = [P_out; P_in].
Proof.
  assert (P_in ∈ block_pins_of nl blk INPUT) as Hin.
  { fold (block_input_pins nl blk). rewrite (buf_input_pins _ _ _ _ _ _ _ _ Hbuf). left. }
  assert (P_out ∈ block_pins_of nl blk OUTPUT) as Hout.
  { fold (block_output_pins nl blk). rewrite (buf_output_pins _ _ _ _ _ _ _ _ Hbuf). left. }
  apply two_elements; [apply NoDup_filter, NoDup_seq| |apply buffer_pins_differ].
  intros p. unfold block_pins. rewrite list_elem_of_filter. split.
  - intros [Hb _]. unfold pin_block, pin_port in Hb.
    destruct (entry (nl_pins nl) p) as [pin|] eqn:E; [|done]. simpl in Hb.
    destruct (wf_pin_type _ Hwf _ _ E) as (dir & Hdir & _).
    assert (p ∈ block_pins_of nl blk dir) as Hp.
    { apply elem_of_block_pins_of. unfold pin_block, pin_port. by rewrite E. }
    destruct dir.
    + fold (block_input_pins nl blk) in Hp.
      rewrite (buf_input_pins _ _ _ _ _ _ _ _ Hbuf) in Hp.
      apply list_elem_of_singleton in Hp. by left.
    + fold (block_output_pins nl blk) in Hp.
      rewrite (buf_output_pins _ _ _ _ _ _ _ _ Hbuf) in Hp.
      apply list_elem_of_singleton in Hp. by right.
    + fold (block_clock_pins nl blk) in Hp.
      rewrite (buf_clock_pins _ _ _ _ _ _ _ _ Hbuf) in Hp.
      by apply not_elem_of_nil in Hp.
  - unfold block_pins_of in Hin, Hout.
    apply list_elem_of_filter in Hin as [[Hin _] Hin'].
    apply list_elem_of_filter in Hout as [[Hout _] Hout'].
    intros [->| ->]; done.
Qed.

(** The tables after the block is removed: its two pins are gone and each
    has left its net. *)
Lemma remove_block_buffer :
  nl_blocks (remove_block nl blk) = <[blk := None]> (nl_blocks nl)
  ∧ length (nl_nets (remove_block nl blk)) = length (nl_nets nl)
  ∧ (∀ q, entry (nl_pins (remove_block nl blk)) q
          = if decide (q = P_in ∨ q = P_out) then None else entry (nl_pins nl) q)
  ∧ (∀ m, entry (nl_nets (remove_block nl blk)) m
          = detached nl P_in P_out n_in n_out m).
Proof.
  split; [apply remove_block_blocks|].
  unfold remove_block. cbn [nl_pins nl_nets].
  rewrite remove_ports_pins, remove_ports_nets.
  pose proof buffer_pins_differ as Hpins.
  pose proof (buf_in_net _ _ _ _ _ _ _ _ Hbuf) as Hin.
  pose proof (buf_out_net _ _ _ _ _ _ _ _ Hbuf) as Hout.
  destruct buffer_block_pins as [-> | ->]; cbn [foldl].
  - destruct (remove_two_pins nl P_in P_out n_in n_out Hpins Hin Hout)
      as (Hlen & Hp & Hn).
    split; [done|]. split; [done|]. by apply Hn.
  - destruct (remove_two_pins nl P_out P_in n_out n_in (not_eq_sym Hpins) Hout Hin)
      as (Hlen & Hp & Hn).
    split; [done|]. split.
    + intros q. rewrite Hp.
      destruct (decide (q = P_out ∨ q = P_in)) as [Hq|Hq],
               (decide (q = P_in ∨ q = P_out)) as [Hq'|Hq']; try done; tauto.
    + intros m. rewrite Hn by done. by apply detached_sym.
Qed.

(** A pin outside the merged net is bound to neither of the two nets. *)
Lemma other_pin_other_net q pin :
  q ≠ P_in → q ≠ P_out → q ≠ d → q ∉ merged_sinks P_in net_in net_out →
  entry (nl_pins nl) q = Some pin →
  pn_net pin ≠ Some n_in ∧ pn_net pin ≠ Some n_out.
Proof.
  intros Hq1 Hq2 Hq3 Hq4 Hpin. unfold merged_sinks in Hq4.
  rewrite elem_of_app, list_elem_of_filter in Hq4.
  split; intros Hn; destruct (wf_pin_net _ Hwf _ _ _ Hpin Hn) as (net & Hnet & Hs & Hd);
    destruct (pn_type pin).
  - specialize (Hd eq_refl). congruence.
  - specialize (Hs eq_refl). apply Hq4. left. split; [done|]. congruence.
  - specialize (Hd eq_refl). pose proof (buf_out_driver _ _ _ _ _ _ _ _ Hbuf). congruence.
  - specialize (Hs eq_refl). apply Hq4. right. congruence.
Qed.

Lemma live_pin_of_type p ty : pin_type nl p = Some ty → is_Some (entry (nl_pins nl) p).
Proof. unfold pin_type. destruct (entry (nl_pins nl) p); [by eauto|done]. Qed.

(** The tables after the block and the two nets are removed. *)
Lemma nets_removed :
  let nl3 := remove_net (remove_net (remove_block nl blk) n_in) n_out in
  nl_blocks nl3 = <[blk := None]> (nl_blocks nl)
  ∧ length (nl_nets nl3) = length (nl_nets nl)
  ∧ (∀ m, entry (nl_nets nl3) m
          = if decide (m = n_in ∨ m = n_out) then None else entry (nl_nets nl) m)
  ∧ (∀ q, entry (nl_pins nl3) q
          = if decide (q = P_in ∨ q = P_out) then None
            else unbind_net n_out <$> (unbind_net n_in <$> entry (nl_pins nl) q)).
Proof.
  destruct remove_block_buffer as (Hblocks & Hlen & Hpins & Hnets).
  intros nl3. subst nl3. split; [done|]. split; [|split].
  - unfold remove_net. cbn [nl_nets]. by rewrite !length_insert.
  - intros m. rewrite !remove_net_nets, Hnets. unfold detached.
    destruct (decide (n_out = m)), (decide (n_in = m)), (decide (m = n_in)),
      (decide (m = n_out)), (decide (m = n_in ∨ m = n_out)) as [[?|?]|?];
      try done; try congruence; tauto.
  - intros q. rewrite !remove_net_pins, Hpins. by destruct (decide (q = P_in ∨ q = P_out)).
Qed.

Lemma absorb_asserts :
  (Z.of_nat (length (net_pins (remove_block nl blk) n_in))
   =? size_minus_one (length (net_pins nl n_in))) = true
  ∧ net_driver (remove_block nl blk) n_out = None.
Proof.
  destruct remove_block_buffer as (_ & _ & _ & Hnets). split.
  - unfold net_pins, net_sinks. cbn [length]. rewrite !length_fmap, Hnets.
    unfold detached. rewrite decide_True by done. rewrite Hnet_in.
    cbn [fmap option_fmap option_map default].
    unfold size_minus_one. rewrite decide_False by done. apply Z.eqb_eq.
    pose proof (length_filter_ne P_in (nt_sinks net_in)
                  (wf_sinks_nodup _ Hwf _ _ Hnet_in) (buf_in_sink _ _ _ _ _ _ _ _ Hbuf)).
    cbn [detach_pin nt_sinks id]. lia.
  - unfold net_driver. rewrite Hnets. unfold detached.
    rewrite decide_False by done. rewrite decide_True by done. rewrite Hnet_out.
    cbn [fmap option_fmap option_map mbind option_bind detach_pin nt_driver].
    by rewrite decide_True by apply (buf_out_driver _ _ _ _ _ _ _ _ Hbuf).
Qed.

Lemma merged_name_is_fresh name :
  name = nt_name net_in ∨ name = nt_name net_out →
  ∀ m, net_name (remove_net (remove_net (remove_block nl blk) n_in) n_out) m ≠ Some name.
Proof.
  destruct nets_removed as (_ & _ & Hnets & _).
  intros Hname m. unfold net_name. rewrite Hnets.
  destruct (decide (m = n_in ∨ m = n_out)) as [|Hm]; [done|].
  intros Hm'. apply Hm.
  assert (net_name nl n_in = Some (nt_name net_in)) as Hin
    by (unfold net_name; by rewrite Hnet_in).
  assert (net_name nl n_out = Some (nt_name net_out)) as Hout
    by (unfold net_name; by rewrite Hnet_out).
  destruct Hname as [-> | ->]; [left|right]; by eapply (wf_names _ Hwf).
Qed.

(** Past the choice of the name, the buffer is absorbed. *)
Lemma absorb_merges name :
  name = nt_name net_in ∨ name = nt_name net_out →
  ∃ nl',
    absorb nl blk n_in n_out (Some d) name (merged_sinks P_in net_in net_out) = Ok nl'
    ∧ absorbed nl nl' blk P_in P_out n_in n_out d name
               (merged_sinks P_in net_in net_out).
Proof.
  intros Hname.
  destruct absorb_asserts as [Hsize Hnodriver].
  pose proof (merged_name_is_fresh name Hname) as Hfresh.
  destruct nets_removed as (Hblocks & Hlen & Hnets & Hpins).
  destruct driver_is_not_buffer_pin as [HdPin HdPout].
  pose proof merged_sink_is_not_buffer_pin as Hsinks.
  assert (n_in < length (nl_nets nl))%nat as Hin_lt
    by (eapply lookup_lt_Some, entry_Some, Hnet_in).
  assert (n_out < length (nl_nets nl))%nat as Hout_lt
    by (eapply lookup_lt_Some, entry_Some, Hnet_out).
  unfold absorb. cbn zeta. rewrite Hsize. cbn [VTR_ASSERT mbind result_bind].
  rewrite bool_decide_eq_true_2 by done. cbn [VTR_ASSERT mbind result_bind].
  unfold add_net. rewrite (find_net_fresh _ _ Hfresh). cbn [mbind result_bind].
  eexists. split; [reflexivity|].
  remember (remove_net (remove_net (remove_block nl blk) n_in) n_out) as nl3 eqn:E.
  clear E Hsize Hnodriver Hfresh.
  split; cbn [nl_blocks nl_pins nl_nets from_option app].
  - done.
  - rewrite entry_bind_pins, Hpins.
    destruct (decide (P_in = P_in ∨ P_in = P_out)) as [_|Hno];
      [by destruct (decide _)|].
    exfalso. apply Hno. by left.
  - rewrite entry_bind_pins, Hpins.
    destruct (decide (P_out = P_in ∨ P_out = P_out)) as [_|Hno];
      [by destruct (decide _)|].
    exfalso. apply Hno. by right.
  - rewrite entry_app_l by (by rewrite Hlen). rewrite Hnets. by rewrite decide_True by auto.
  - rewrite entry_app_l by (by rewrite Hlen). rewrite Hnets. by rewrite decide_True by auto.
  - rewrite length_app, Hlen. simpl. lia.
  - rewrite <- Hlen. apply entry_app_new.
  - intros m Hm1 Hm2 Hm3. rewrite entry_app_l by (by rewrite Hlen).
    rewrite Hnets. by rewrite decide_False by tauto.
  - unfold pin_net. cbn [nl_pins]. rewrite entry_bind_pins.
    rewrite decide_True by left. rewrite Hpins. rewrite decide_False by tauto.
    destruct (wf_driver _ Hwf _ _ _ Hnet_in Hdriver) as [Hty _].
    destruct (live_pin_of_type d DRIVER Hty) as [pin ->]. simpl. by rewrite Hlen.
  - intros s Hs. destruct (Hsinks s Hs) as (Hs1 & Hs2 & _).
    unfold pin_net. cbn [nl_pins]. rewrite entry_bind_pins.
    rewrite decide_True by (by right). rewrite Hpins. rewrite decide_False by tauto.
    destruct (merged_sinks_are_sinks nl blk P_in P_out n_in n_out net_in net_out
                Hwf Hbuf s Hs) as [Hty _].
    destruct (live_pin_of_type s SINK Hty) as [pin ->]. simpl. by rewrite Hlen.
  - intros q Hq1 Hq2 Hq3 Hq4. rewrite entry_bind_pins.
    rewrite decide_False by (apply not_elem_of_cons; by split).
    rewrite Hpins. rewrite decide_False by tauto.
    destruct (entry (nl_pins nl) q) as [pin|] eqn:Hpin; [|done]. simpl.
    destruct (other_pin_other_net q pin Hq1 Hq2 Hq3 Hq4 Hpin) as [Hn1 Hn2].
    rewrite (unbind_other n_in) by done. by rewrite unbind_other by done.
Qed.

End Absorbed.


(** C3 (amended).  In a well-formed netlist, take a buffer LUT with input pin
    [P_in] on the net [n_in], driven by the pin [d], and output pin [P_out]
    on another net [n_out].  Unless [d] is on an input pad and some sink of
    the merged net (a sink of [n_in] other than [P_in], or a sink of [n_out])
    is on an output pad, [remove_buffer_lut] returns a netlist in which the
    block, its two pins and both nets are gone and one net is new: its driver
    is [d], its sinks are those of [n_in] without [P_in] followed by those of
    [n_out], its name is that of [n_in] if [d] is on an input pad and that of
    [n_out] otherwise, its pins are bound to it, and all other nets and pins
    are as before. *)
Theorem remove_buffer_lut_merges (nl : AtomNetlist)
    (blk P_in P_out n_in n_out d : nat) :
  netlist_ok nl = true →
  is_buffer_lut nl blk = Ok true →
  head (block_input_pins nl blk) = Some P_in →
  head (block_output_pins nl blk) = Some P_out →
  pin_net nl P_in = Some n_in →
  pin_net nl P_out = Some n_out →
  n_in ≠ n_out →
  net_driver nl n_in = Some d →
  pin_is_on nl INPAD d
  && existsb (pin_is_on nl OUTPAD)
       (filter (λ s, s ≠ P_in) (net_sinks nl n_in) ++ net_sinks nl n_out) = false →
  ∃ nl' name,
    remove_buffer_lut nl blk = Ok nl'
    ∧ (if pin_is_on nl INPAD d then net_name nl n_in else net_name nl n_out)
      = Some name
    ∧ absorbed nl nl' blk P_in P_out n_in n_out d name
        (filter (λ s, s ≠ P_in) (net_sinks nl n_in) ++ net_sinks nl n_out).
Proof.
  intros Hwf%netlist_ok_spec Hlut HPin HPout Hin Hout Hne Hd Hskip.
  destruct (buffer_lut_shape nl blk Hwf Hlut)
    as (P_in' & P_out' & n_in' & n_out' & net_in & net_out & Hbuf).
  assert (P_in' = P_in) as ->.
  { rewrite (buf_input_pins _ _ _ _ _ _ _ _ Hbuf) in HPin. simpl in HPin. congruence. }
  assert (P_out' = P_out) as ->.
  { rewrite (buf_output_pins _ _ _ _ _ _ _ _ Hbuf) in HPout. simpl in HPout. congruence. }
  assert (n_in' = n_in) as ->
    by (pose proof (buf_in_net _ _ _ _ _ _ _ _ Hbuf); congruence).
  assert (n_out' = n_out) as ->
    by (pose proof (buf_out_net _ _ _ _ _ _ _ _ Hbuf); congruence).
  assert (nt_driver net_in = Some d) as Hdriver.
  { unfold net_driver in Hd. by rewrite (buf_net_in _ _ _ _ _ _ _ _ Hbuf) in Hd. }
  rewrite (net_in_sinks nl blk P_in P_out n_in n_out net_in net_out Hbuf),
          (net_out_sinks nl blk P_in P_out n_in n_out net_in net_out Hbuf) in *.
  change (filter _ (nt_sinks net_in) ++ nt_sinks net_out)
    with (merged_sinks P_in net_in net_out) in *.
  rewrite (remove_buffer_lut_unfold nl blk P_in P_out n_in n_out net_in net_out d
             Hwf Hbuf Hdriver).
  cbn zeta. rewrite Hskip.
  set (name := if pin_is_on nl INPAD d then nt_name net_in else nt_name net_out).
  assert (name = nt_name net_in ∨ name = nt_name net_out) as Hname.
  { subst name. destruct (pin_is_on nl INPAD d); auto. }
  destruct (absorb_merges nl blk P_in P_out n_in n_out net_in net_out d
              Hwf Hbuf Hdriver Hne name Hname) as (nl' & Hok & Habs).
  exists nl', name. split; [done|]. split; [|done].
  subst name. unfold net_name.
  rewrite (buf_net_in _ _ _ _ _ _ _ _ Hbuf), (buf_net_out _ _ _ _ _ _ _ _ Hbuf).
  by destruct (pin_is_on nl INPAD d).
Qed.

(** The theorem at the buffer of [lut_buffer_lut] (scenario 4): the nets
    [u] and [v] become one net [v], driven by [f] and read by [g]. *)
Lemma remove_buffer_lut_merges_witness :
  ∃ nl' name,
    remove_buffer_lut lut_buffer_lut 2 = Ok nl'
    ∧ (if pin_is_on lut_buffer_lut INPAD 2
       then net_name lut_buffer_lut 1 else net_name lut_buffer_lut 2) = Some name
    ∧ absorbed lut_buffer_lut nl' 2 3 4 1 2 2 name
        (filter (λ s, s ≠ 3%nat) (net_sinks lut_buffer_lut 1)
         ++ net_sinks lut_buffer_lut 2).
Proof.
  apply (remove_buffer_lut_merges lut_buffer_lut 2 3 4 1 2 2);
    try (vm_compute; reflexivity).
  intros H. discriminate H.
Defined.

(** C3 as stated fails on [pad_fanout_buffer]: the input pad [x] drives the
    buffer [b] and the output pad [out:x], and no sink of the output net [w]
    of the buffer is on an output pad; the buffer is not in the skip case of
    the claim, yet the netlist is returned as it was, the buffer still in it,
    because the sink of [x] on [out:x] is a sink of the merged net. *)
Lemma remove_buffer_lut_keeps_fanout_to_pad :
  netlist_ok pad_fanout_buffer = true
  ∧ is_buffer_lut pad_fanout_buffer 1 = Ok true
  ∧ input_net_of pad_fanout_buffer 1 = Some 0%nat
  ∧ output_net_of pad_fanout_buffer 1 = Some 1%nat
  ∧ net_driver pad_fanout_buffer 0 = Some 0%nat
  ∧ pin_is_on pad_fanout_buffer INPAD 0 = true
  ∧ existsb (pin_is_on pad_fanout_buffer OUTPAD) (net_sinks pad_fanout_buffer 1) = false
  ∧ remove_buffer_lut pad_fanout_buffer 1 = Ok pad_fanout_buffer
  ∧ block_type pad_fanout_buffer 1 = Some COMBINATIONAL
  ∧ net_name pad_fanout_buffer 0 = Some "x"
  ∧ net_name pad_fanout_buffer 1 = Some "w".
Proof. vm_compute. repeat split; reflexivity. Qed.

End Absorb.

(** ** What the sweeps remove *)

Module Sweep.

Import TruthTable Atom Absorb.

(** *** Tables after a run of removals *)

Lemma entry_tombstones {A} (l : list nat) : ∀ (table : list (option A)) j,
  entry (foldl (λ t i, <[i := None]> t) table l) j
  = if decide (j ∈ l) then None else entry table j.
Proof.
  induction l as [|i l IH]; intros table j; cbn [foldl].
  - destruct (decide (j ∈ [])) as [H|]; [by apply not_elem_of_nil in H|done].
  - rewrite IH, entry_tombstone.
    destruct (decide (j ∈ l)) as [Hin|Hnotin],
             (decide (i = j)) as [Heq|Hne],
             (decide (j ∈ i :: l)) as [Hin'|Hno];
      try done; try (exfalso; apply Hno; apply elem_of_cons; auto; fail).
    apply elem_of_cons in Hin' as [Heq|?]; [by subst|done].
Qed.

Lemma remove_blocks_blocks l : ∀ nl,
  nl_blocks (foldl remove_block nl l)
  = foldl (λ t i, <[i := None]> t) (nl_blocks nl) l.
Proof.
  induction l as [|blk l IH]; intros nl; cbn [foldl]; [done|].
  by rewrite IH, remove_block_blocks.
Qed.

Lemma remove_nets_nets l : ∀ nl,
  nl_nets (foldl remove_net nl l) = foldl (λ t i, <[i := None]> t) (nl_nets nl) l.
Proof. induction l as [|net l IH]; intros nl; cbn [foldl]; [done|]. by rewrite IH. Qed.

Lemma remove_nets_frame l : ∀ nl,
  nl_blocks (foldl remove_net nl l) = nl_blocks nl
  ∧ nl_ports (foldl remove_net nl l) = nl_ports nl.
Proof.
  induction l as [|net l IH]; intros nl; cbn [foldl]; [done|].
  destruct (IH (remove_net nl net)) as [-> ->]. done.
Qed.

(** The net of a pin after the nets of [l] were removed. *)
Lemma remove_nets_pin_net l : ∀ nl pin,
  pin_net (foldl remove_net nl l) pin
  = match pin_net nl pin with
    | Some net => if decide (net ∈ l) then None else Some net
    | None => None
    end.
Proof.
  induction l as [|n l IH]; intros nl pin; cbn [foldl].
  - destruct (pin_net nl pin) as [net|]; [|done].
    destruct (decide (net ∈ [])) as [H|]; [by apply not_elem_of_nil in H|done].
  - rewrite IH. unfold pin_net at 1. rewrite remove_net_pins.
    unfold pin_net. destruct (entry (nl_pins nl) pin) as [p|]; [|done].
    cbn [fmap option_fmap option_map mbind option_bind unbind_net pn_net].
    destruct (decide (pn_net p = Some n)) as [->|Hne].
    + rewrite decide_True; [done|left].
    + destruct (pn_net p) as [net|]; [|done].
      destruct (decide (net ∈ l)), (decide (net ∈ n :: l)) as [Hin|Hno]; try done.
      * exfalso. apply Hno. by right.
      * apply elem_of_cons in Hin as [->|?]; done.
Qed.

Lemma filter_none {A} (P : A → Prop) `{!∀ x, Decision (P x)} (l : list A) :
  (∀ x, x ∈ l → ¬ P x) → filter P l = [].
Proof.
  induction l as [|x l IH]; intros Hall; [done|].
  rewrite filter_cons_False by (apply Hall; left).
  apply IH. intros y Hy. apply Hall. by right.
Qed.

Lemma elem_of_live_ids {A} (table : list (option A)) id :
  id ∈ live_ids table ↔ is_Some (entry table id).
Proof.
  unfold live_ids. rewrite list_elem_of_filter, elem_of_seq. split; [tauto|].
  intros [x Hx]. split; [by eauto|].
  apply entry_Some, lookup_lt_Some in Hx. lia.
Qed.

(** *** [sweep_nets] *)

(** A net that [sweep_nets] selects: it has no driver, or no sink. *)
Definition dangling (nl : AtomNetlist) (net_id : nat) : Prop :=
  net_driver nl net_id = None ∨ length (net_sinks nl net_id) = 0%nat.

#[global] Instance dangling_dec nl net_id : Decision (dangling nl net_id).
Proof. unfold dangling. apply _. Defined.

Lemma sweep_nets_nets nl net_id :
  entry (nl_nets (sweep_nets nl).1) net_id
  = if decide (dangling nl net_id) then None else entry (nl_nets nl) net_id.
Proof.
  unfold sweep_nets. cbn [fst]. rewrite remove_nets_nets, entry_tombstones.
  fold (dangling nl). 
  destruct (decide (net_id ∈ filter (dangling nl) (live_ids (nl_nets nl))))
    as [[Hd Hlive]%list_elem_of_filter|Hno].
  - by rewrite decide_True.
  - destruct (decide (dangling nl net_id)) as [Hd|]; [|done].
    destruct (entry (nl_nets nl) net_id) as [x|] eqn:Hx; [|done].
    exfalso. apply Hno, list_elem_of_filter. split; [done|].
    apply elem_of_live_ids. by eauto.
Qed.

Lemma sweep_nets_nothing nl :
  (∀ net_id, is_Some (entry (nl_nets nl) net_id) → ¬ dangling nl net_id) →
  sweep_nets nl = (nl, 0%nat).
Proof.
  intros Hnone. unfold sweep_nets.
  change (filter _ (live_ids (nl_nets nl)))
    with (filter (dangling nl) (live_ids (nl_nets nl))).
  rewrite filter_none; [done|].
  intros net_id Hlive%elem_of_live_ids. by apply Hnone.
Qed.

(** X13.  [sweep_nets] removes exactly the live nets without a driver or
    without a sink and returns their number: every other net is left as it
    was, the pins of a removed net are unbound and no other pin changes its
    net, blocks and ports are untouched, and a second run finds nothing to
    remove. *)
Theorem sweep_nets_removes_dangling_nets (nl : AtomNetlist) :
  let nl' := (sweep_nets nl).1 in
  (∀ net_id, entry (nl_nets nl') net_id
             = if decide (dangling nl net_id) then None else entry (nl_nets nl) net_id)
  ∧ (∀ pin, pin_net nl' pin
            = match pin_net nl pin with
              | Some net_id =>
                  if decide (is_Some (entry (nl_nets nl) net_id) ∧ dangling nl net_id)
                  then None else Some net_id
              | None => None
              end)
  ∧ nl_blocks nl' = nl_blocks nl ∧ nl_ports nl' = nl_ports nl
  ∧ ((sweep_nets nl).2 + num_live (nl_nets nl') = num_live (nl_nets nl))%nat
  ∧ sweep_nets nl' = (nl', 0%nat).
Proof.
  intros nl'. split; [apply sweep_nets_nets|]. split; [|split; [|split; [|split]]].
  - intros pin. subst nl'. unfold sweep_nets. cbn [fst].
    rewrite remove_nets_pin_net. destruct (pin_net nl pin) as [net_id|]; [|done].
    fold (dangling nl).
    destruct (decide (net_id ∈ filter (dangling nl) (live_ids (nl_nets nl))))
      as [[Hd Hlive%elem_of_live_ids]%list_elem_of_filter|Hno].
    + by rewrite decide_True.
    + rewrite decide_False; [done|]. intros [Hlive Hd]. apply Hno.
      apply list_elem_of_filter. split; [done|]. by apply elem_of_live_ids.
  - apply remove_nets_frame.
  - apply remove_nets_frame.
  - destruct (sweep_nets_sweeps nl) as (Htotal & _).
    unfold live_total in Htotal.
    assert (nl_blocks (sweep_nets nl).1 = nl_blocks nl) as Hb by apply remove_nets_frame.
    rewrite Hb in Htotal. subst nl'. lia.
  - apply sweep_nets_nothing. intros net_id [x Hx] Hd.
    subst nl'. rewrite sweep_nets_nets in Hx.
    destruct (decide (dangling nl net_id)) as [|Hnd]; [done|]. apply Hnd.
    unfold dangling, net_driver, net_sinks in *.
    rewrite sweep_nets_nets, decide_False in Hd by done. exact Hd.
Qed.

(** *** What [sweep_iterative] leaves behind *)

Lemma filter_length_zero {A} (P : A → Prop) `{!∀ x, Decision (P x)} (l : list A) x :
  length (filter P l) = 0%nat → x ∈ l → ¬ P x.
Proof.
  intros Hlen%nil_length_inv Hin HP.
  by apply (filter_nil_not_elem_of P l x Hlen HP).
Qed.

(** A pass that removed nothing: each sweep that was switched on found
    nothing to remove in the netlist. *)
Lemma sweep_pass_found_nothing nl (ios nets blocks cpo : bool) nl' pass :
  sweep_pass nl ios nets blocks cpo = Ok (nl', pass) →
  pass_swept_something pass = false →
  (ios = true → (sweep_inputs nl).2 = 0%nat ∧ (sweep_outputs nl).2 = 0%nat)
  ∧ (blocks = true → (sweep_blocks nl).2 = 0%nat)
  ∧ (nets = true → (sweep_nets nl).2 = 0%nat).
Proof.
  unfold sweep_pass. intros Hpass Hnone.
  assert (sweeps nl (if ios then sweep_inputs nl else (nl, 0%nat))) as H1
    by (destruct ios; [apply sweep_inputs_sweeps|apply sweeps_nothing]).
  destruct (if ios then sweep_inputs nl else (nl, 0%nat)) as [nl1 n1] eqn:E1.
  assert (sweeps nl1 (if ios then sweep_outputs nl1 else (nl1, 0%nat))) as H2
    by (destruct ios; [apply sweep_outputs_sweeps|apply sweeps_nothing]).
  destruct (if ios then sweep_outputs nl1 else (nl1, 0%nat)) as [nl2 n2] eqn:E2.
  assert (sweeps nl2 (if blocks then sweep_blocks nl2 else (nl2, 0%nat))) as H3
    by (destruct blocks; [apply sweep_blocks_sweeps|apply sweeps_nothing]).
  destruct (if blocks then sweep_blocks nl2 else (nl2, 0%nat)) as [nl3 n3] eqn:E3.
  destruct (if nets then sweep_nets nl3 else (nl3, 0%nat)) as [nl4 n4] eqn:E4.
  destruct (if cpo then sweep_constant_primary_outputs nl4 else Ok (nl4, 0%nat))
    as [[nl5 n5]|]; [|discriminate].
  cbn [mbind result_bind] in Hpass. injection Hpass as _ <-.
  apply pass_swept_nothing in Hnone. cbn in Hnone.
  destruct Hnone as (-> & -> & -> & -> & _).
  destruct H1 as (_ & Z1 & _), H2 as (_ & Z2 & _), H3 as (_ & Z3 & _).
  cbn [fst snd] in *.
  rewrite (Z1 eq_refl) in *. rewrite (Z2 eq_refl) in *. rewrite (Z3 eq_refl) in *.
  split; [|split].
  - intros ->. by rewrite E1, E2.
  - intros ->. by rewrite E3.
  - intros ->. by rewrite E4.
Qed.

(** X14.  The netlist [sweep_iterative] returns has nothing left for the
    sweeps that were switched on: with [should_sweep_nets], every live net has
    a driver and a sink; with [should_sweep_blocks], every live block that is
    not a pad has an output pin on a net; with [should_sweep_ios], every input
    pad has an output pin on a net and every output pad an input pin on a
    net.  Its blocks and ports are blocks and ports of the netlist it was
    given, as they were, and its pins are pins of it on the same port. *)
Theorem sweep_iterative_leaves_nothing_dangling (nl nl' : AtomNetlist)
    (ios nets blocks cpo : bool) (n : nat) :
  sweep_iterative nl ios nets blocks cpo = Ok (nl', n) →
  (nets = true →
   ∀ net_id, is_Some (entry (nl_nets nl') net_id) →
     is_Some (net_driver nl' net_id) ∧ net_sinks nl' net_id ≠ [])
  ∧ (blocks = true →
     ∀ blk b, entry (nl_blocks nl') blk = Some b →
       blk_type b ≠ INPAD → blk_type b ≠ OUTPAD →
       ∃ pin, pin ∈ block_output_pins nl' blk ∧ is_Some (pin_net nl' pin))
  ∧ (ios = true →
     ∀ blk b, entry (nl_blocks nl') blk = Some b →
       (blk_type b = INPAD →
        ∃ pin, pin ∈ block_output_pins nl' blk ∧ is_Some (pin_net nl' pin))
       ∧ (blk_type b = OUTPAD →
          ∃ pin, pin ∈ block_input_pins nl' blk ∧ is_Some (pin_net nl' pin)))
  ∧ shrinks nl nl'.
Proof.
  unfold sweep_iterative. intros E.
  pose proof (sweep_loop_outcome ios nets blocks cpo
                (S (num_live (nl_blocks nl) + num_live (nl_nets nl))) nl nothing_swept)
    as Hloop.
  destruct (sweep_loop _ nl ios nets blocks cpo nothing_swept) as [[nl1 total]|e];
    [|discriminate].
  cbn [mbind result_bind] in E. injection E as -> _.
  destruct Hloop as (Hshrinks & pass & Hpass & Hnone); [unfold live_total; lia|].
  cbn [fst] in *.
  destruct (sweep_pass_found_nothing _ _ _ _ _ _ _ Hpass Hnone) as (Hios & Hblocks & Hnets).
  assert (∀ pins,
            forallb (λ pin_id, negb (bool_decide (is_Some (pin_net nl' pin_id)))) pins
            ≠ true →
            ∃ pin, pin ∈ pins ∧ is_Some (pin_net nl' pin)) as Hpin.
  { intros pins Hno. induction pins as [|pin pins IH]; [done|].
    cbn [forallb] in Hno. destruct (decide (is_Some (pin_net nl' pin))) as [Hs|Hs].
    - exists pin. split; [left|done].
    - rewrite bool_decide_eq_false_2 in Hno by done. cbn [negb andb] in Hno.
      destruct (IH Hno) as (pin' & Hin & Hs'). exists pin'. split; [by right|done]. }
  split; [|split; [|split]]; [| | |done].
  - intros -> net_id Hlive. specialize (Hnets eq_refl).
    unfold sweep_nets in Hnets. cbn [snd] in Hnets.
    pose proof (filter_length_zero _ _ net_id Hnets
                  (proj2 (elem_of_live_ids _ _) Hlive)) as Hd.
    split.
    + destruct (net_driver nl' net_id) eqn:Hdrv; [by eauto|]. exfalso. apply Hd. by left.
    + intros Hnil. apply Hd. right. by rewrite Hnil.
  - intros -> blk b Hb Hin Hout. specialize (Hblocks eq_refl).
    unfold sweep_blocks in Hblocks. cbn [snd] in Hblocks.
    pose proof (filter_length_zero _ _ blk Hblocks
                  (proj2 (elem_of_live_ids _ _) (ex_intro _ b Hb))) as Hd.
    apply Hpin. intros Hrem. apply Hd.
    rewrite (block_type_entry _ _ _ Hb). split; [congruence|]. split; [congruence|done].
  - intros -> blk b Hb. destruct (Hios eq_refl) as [Hi Ho].
    unfold sweep_inputs in Hi. unfold sweep_outputs in Ho. cbn [snd] in Hi, Ho.
    pose proof (filter_length_zero _ _ blk Hi
                  (proj2 (elem_of_live_ids _ _) (ex_intro _ b Hb))) as Hdi.
    pose proof (filter_length_zero _ _ blk Ho
                  (proj2 (elem_of_live_ids _ _) (ex_intro _ b Hb))) as Hdo.
    unfold is_removable_input in Hdi. unfold is_removable_output in Hdo.
    rewrite (block_type_entry _ _ _ Hb) in Hdi, Hdo. split.
    + intros Hty. rewrite Hty, decide_True in Hdi by done. by apply Hpin.
    + intros Hty. rewrite Hty, decide_True in Hdo by done. by apply Hpin.
Qed.

Lemma sweep_iterative_leaves_nothing_dangling_witness :
  ∃ nl' n,
    sweep_iterative lut_buffer_lut true true true true = Ok (nl', n)
    ∧ (true = true →
       ∀ net_id, is_Some (entry (nl_nets nl') net_id) →
         is_Some (net_driver nl' net_id) ∧ net_sinks nl' net_id ≠ [])
    ∧ (true = true →
       ∀ blk b, entry (nl_blocks nl') blk = Some b →
         blk_type b ≠ INPAD → blk_type b ≠ OUTPAD →
         ∃ pin, pin ∈ block_output_pins nl' blk ∧ is_Some (pin_net nl' pin))
    ∧ (true = true →
       ∀ blk b, entry (nl_blocks nl') blk = Some b →
         (blk_type b = INPAD →
          ∃ pin, pin ∈ block_output_pins nl' blk ∧ is_Some (pin_net nl' pin))
         ∧ (blk_type b = OUTPAD →
            ∃ pin, pin ∈ block_input_pins nl' blk ∧ is_Some (pin_net nl' pin)))
    ∧ shrinks lut_buffer_lut nl'.
Proof.
  eexists. eexists. split; [vm_compute; reflexivity|].
  eapply (sweep_iterative_leaves_nothing_dangling lut_buffer_lut _ true true true true).
  vm_compute. reflexivity.
Defined.

(** *** The block sweeps *)

(** The owner recorded for a port or a pin is one of the blocks of [l]. *)
Definition owned_by (owner : option nat) (l : list nat) : Prop :=
  ∃ blk, owner = Some blk ∧ blk ∈ l.

#[global] Instance owned_by_dec owner l : Decision (owned_by owner l).
Proof.
  destruct owner as [blk|].
  - destruct (decide (blk ∈ l)) as [Hin|Hno].
    + left. by exists blk.
    + right. intros (b & [= <-] & Hb). done.
  - right. intros (b & Hb & _). done.
Defined.

Lemma owned_by_nil owner : ¬ owned_by owner [].
Proof. intros (b & _ & Hb). by apply not_elem_of_nil in Hb. Qed.

Lemma owned_by_cons owner blk l :
  owned_by owner (blk :: l) ↔ owner = Some blk ∨ owned_by owner l.
Proof.
  unfold owned_by. split.
  - intros (b & -> & [->|Hb]%elem_of_cons); [by left|right; by exists b].
  - intros [->|(b & -> & Hb)]; [exists blk|exists b]; (split; [done|]);
      [left|by right].
Qed.

Lemma remove_pins_pins pins : ∀ nl,
  nl_pins (foldl remove_pin nl pins) = foldl (λ t i, <[i := None]> t) (nl_pins nl) pins.
Proof. induction pins as [|p pins IH]; intros nl; cbn [foldl]; [done|]. by rewrite IH. Qed.

Lemma remove_pins_ports pins : ∀ nl,
  nl_ports (foldl remove_pin nl pins) = nl_ports nl.
Proof. induction pins as [|p pins IH]; intros nl; cbn [foldl]; [done|]. by rewrite IH. Qed.

Lemma remove_ports_ports ports : ∀ nl,
  nl_ports (foldl remove_port nl ports)
  = foldl (λ t i, <[i := None]> t) (nl_ports nl) ports.
Proof. induction ports as [|p ports IH]; intros nl; cbn [foldl]; [done|]. by rewrite IH. Qed.

Lemma remove_block_ports nl blk port :
  entry (nl_ports (remove_block nl blk)) port
  = if decide (port_block nl port = Some blk) then None else entry (nl_ports nl) port.
Proof.
  unfold remove_block. cbn [nl_ports].
  rewrite remove_ports_ports, remove_pins_ports, entry_tombstones.
  unfold block_ports.
  destruct (decide (port ∈ filter _ (seq 0 (length (nl_ports nl)))))
    as [[Hb _]%list_elem_of_filter|Hno].
  - by rewrite decide_True.
  - destruct (decide (port_block nl port = Some blk)) as [Hb|]; [|done].
    exfalso. apply Hno, list_elem_of_filter. split; [done|].
    apply elem_of_seq. unfold port_block in Hb.
    destruct (entry (nl_ports nl) port) as [q|] eqn:Hq; [|done].
    apply entry_Some, lookup_lt_Some in Hq. lia.
Qed.

Lemma remove_block_pins nl blk pin :
  entry (nl_pins (remove_block nl blk)) pin
  = if decide (pin_block nl pin = Some blk) then None else entry (nl_pins nl) pin.
Proof.
  unfold remove_block. cbn [nl_pins].
  rewrite remove_ports_pins, remove_pins_pins, entry_tombstones.
  unfold block_pins.
  destruct (decide (pin ∈ filter _ (seq 0 (length (nl_pins nl)))))
    as [[Hb _]%list_elem_of_filter|Hno].
  - by rewrite decide_True.
  - destruct (decide (pin_block nl pin = Some blk)) as [Hb|]; [|done].
    exfalso. apply Hno, list_elem_of_filter. split; [done|].
    apply elem_of_seq. unfold pin_block, pin_port in Hb.
    destruct (entry (nl_pins nl) pin) as [q|] eqn:Hq; [|done].
    apply entry_Some, lookup_lt_Some in Hq. lia.
Qed.

Lemma remove_block_lengths nl blk :
  length (nl_ports (remove_block nl blk)) = length (nl_ports nl)
  ∧ length (nl_pins (remove_block nl blk)) = length (nl_pins nl).
Proof.
  unfold remove_block. cbn [nl_ports nl_pins].
  rewrite remove_ports_ports, remove_pins_ports, remove_ports_pins, remove_pins_pins.
  assert (∀ {A} (l : list nat) (t : list (option A)),
            length (foldl (λ t i, <[i := None]> t) t l) = length t) as Hlen.
  { intros A l. induction l as [|i l IH]; intros t; cbn [foldl]; [done|].
    by rewrite IH, length_insert. }
  by rewrite !Hlen.
Qed.

Lemma remove_block_port_block nl blk port :
  port_block (remove_block nl blk) port
  = if decide (port_block nl port = Some blk) then None else port_block nl port.
Proof.
  unfold port_block at 1. rewrite remove_block_ports.
  by destruct (decide (port_block nl port = Some blk)).
Qed.

Lemma remove_block_pin_block nl blk pin :
  pin_block (remove_block nl blk) pin
  = if decide (pin_block nl pin = Some blk) then None else pin_block nl pin.
Proof.
  unfold pin_block at 1, pin_port. rewrite remove_block_pins.
  destruct (decide (pin_block nl pin = Some blk)) as [|Hne]; [done|].
  unfold pin_block, pin_port in *.
  destruct (entry (nl_pins nl) pin) as [p|]; [|done].
  cbn [fmap option_fmap option_map mbind option_bind] in *.
  rewrite remove_block_port_block. by rewrite decide_False.
Qed.

(** The tables of ports and pins after the blocks of [l] were removed. *)
Lemma remove_blocks_tables l : ∀ nl,
  (∀ port, entry (nl_ports (foldl remove_block nl l)) port
           = if decide (owned_by (port_block nl port) l) then None
             else entry (nl_ports nl) port)
  ∧ (∀ pin, entry (nl_pins (foldl remove_block nl l)) pin
            = if decide (owned_by (pin_block nl pin) l) then None
              else entry (nl_pins nl) pin)
  ∧ length (nl_ports (foldl remove_block nl l)) = length (nl_ports nl)
  ∧ length (nl_pins (foldl remove_block nl l)) = length (nl_pins nl).
Proof.
  induction l as [|blk l IH]; intros nl; cbn [foldl].
  - split; [|split; [|done]].
    + intros port. rewrite decide_False; [done|apply owned_by_nil].
    + intros pin. rewrite decide_False; [done|apply owned_by_nil].
  - destruct (IH (remove_block nl blk)) as (Hports & Hpins & Hlp & Hln).
    destruct (remove_block_lengths nl blk) as [Hlp1 Hln1].
    split; [|split; [|split; congruence]].
    + intros port. rewrite Hports, remove_block_port_block, remove_block_ports.
      destruct (decide (port_block nl port = Some blk)) as [Hb|Hb].
      * rewrite (decide_True (P := owned_by _ (blk :: l)))
          by (apply owned_by_cons; by left).
        by destruct (decide _).
      * destruct (decide (owned_by (port_block nl port) l)) as [Ho|Ho],
                 (decide (owned_by (port_block nl port) (blk :: l))) as [Ho'|Ho'];
          try done.
        -- exfalso. apply Ho', owned_by_cons. by right.
        -- apply owned_by_cons in Ho' as [?|?]; done.
    + intros pin. rewrite Hpins, remove_block_pin_block, remove_block_pins.
      destruct (decide (pin_block nl pin = Some blk)) as [Hb|Hb].
      * rewrite (decide_True (P := owned_by _ (blk :: l)))
          by (apply owned_by_cons; by left).
        by destruct (decide _).
      * destruct (decide (owned_by (pin_block nl pin) l)) as [Ho|Ho],
                 (decide (owned_by (pin_block nl pin) (blk :: l))) as [Ho'|Ho'];
          try done.
        -- exfalso. apply Ho', owned_by_cons. by right.
        -- apply owned_by_cons in Ho' as [?|?]; done.
Qed.

(** What the pins say after the blocks of [l] were removed. *)
Lemma remove_blocks_pin_queries l nl pin :
  let nl' := foldl remove_block nl l in
  pin_block nl' pin
  = (if decide (owned_by (pin_block nl pin) l) then None else pin_block nl pin)
  ∧ pin_port nl' pin ≫= port_type nl'
    = (if decide (owned_by (pin_block nl pin) l) then None
       else pin_port nl pin ≫= port_type nl)
  ∧ pin_net nl' pin
    = (if decide (owned_by (pin_block nl pin) l) then None else pin_net nl pin).
Proof.
  intros nl'. destruct (remove_blocks_tables l nl) as (Hports & Hpins & _).
  fold nl' in Hports, Hpins. specialize (Hpins pin).
  destruct (decide (owned_by (pin_block nl pin) l)) as [Ho|Ho].
  - unfold pin_block, pin_port, pin_net. by rewrite Hpins.
  - unfold pin_block, pin_port, pin_net, port_block, port_type in *.
    rewrite Hpins. destruct (entry (nl_pins nl) pin) as [p|]; [|done].
    cbn [fmap option_fmap option_map mbind option_bind] in *.
    rewrite Hports, decide_False by done. done.
Qed.

Lemma filter_ext_in {A} (P Q : A → Prop) `{!∀ x, Decision (P x)}
    `{!∀ x, Decision (Q x)} (l : list A) :
  (∀ x, x ∈ l → P x ↔ Q x) → filter P l = filter Q l.
Proof.
  induction l as [|x l IH]; intros Hext; [done|].
  assert (filter P l = filter Q l) as Hl
    by (apply IH; intros y Hy; apply Hext; by right).
  destruct (decide (P x)) as [HP|HP].
  - rewrite !filter_cons_True; [by rewrite Hl| |done]. apply Hext; [left|done].
  - rewrite !filter_cons_False; [done| |done]. intros HQ. apply HP, Hext; [left|done].
Qed.

Lemma forallb_ext_in {A} (f g : A → bool) (l : list A) :
  (∀ x, x ∈ l → f x = g x) → forallb f l = forallb g l.
Proof.
  induction l as [|x l IH]; intros Hext; [done|]. cbn [forallb].
  rewrite (Hext x) by left. f_equal. apply IH. intros y Hy. apply Hext. by right.
Qed.

(** A block that is not removed keeps its type, its pins and their nets. *)
Lemma survivor nl l blk :
  blk ∉ l →
  let nl' := foldl remove_block nl l in
  entry (nl_blocks nl') blk = entry (nl_blocks nl) blk
  ∧ (∀ dir, block_pins_of nl' blk dir = block_pins_of nl blk dir)
  ∧ (∀ dir pin, pin ∈ block_pins_of nl blk dir → pin_net nl' pin = pin_net nl pin).
Proof.
  intros Hblk. cbn zeta.
  assert (∀ pin, pin_block nl pin = Some blk → ¬ owned_by (pin_block nl pin) l) as Hown.
  { intros pin Hb (b & Hb' & Hin). congruence. }
  split; [|split].
  - rewrite remove_blocks_blocks, entry_tombstones. by rewrite decide_False.
  - intros dir. unfold block_pins_of.
    destruct (remove_blocks_tables l nl) as (_ & _ & _ & ->).
    apply filter_ext_in. intros pin _.
    destruct (remove_blocks_pin_queries l nl pin) as (-> & -> & _).
    destruct (decide (owned_by (pin_block nl pin) l)) as [Ho|Ho]; [|done].
    split; intros [Hb _]; [done|]. by apply Hown in Hb.
  - intros dir pin [Hb _]%elem_of_block_pins_of.
    destruct (remove_blocks_pin_queries l nl pin) as (_ & _ & ->).
    rewrite decide_False; [done|by apply Hown].
Qed.

Lemma survivor_is_removable nl l blk :
  blk ∉ l →
  let nl' := foldl remove_block nl l in
  block_type nl' blk = block_type nl blk
  ∧ is_removable_block nl' blk = is_removable_block nl blk
  ∧ is_removable_input nl' blk = is_removable_input nl blk
  ∧ is_removable_output nl' blk = is_removable_output nl blk.
Proof.
  intros Hblk nl'. destruct (survivor nl l blk Hblk) as (Hb & Hpins & Hnets).
  fold nl' in Hb, Hpins, Hnets. clearbody nl'.
  assert (block_type nl' blk = block_type nl blk) as Hty
    by (unfold block_type; by rewrite Hb).
  assert (∀ dir,
            forallb (λ pin_id, negb (bool_decide (is_Some (pin_net nl' pin_id))))
                    (block_pins_of nl' blk dir)
            = forallb (λ pin_id, negb (bool_decide (is_Some (pin_net nl pin_id))))
                      (block_pins_of nl blk dir)) as Hall.
  { intros dir. rewrite Hpins. apply forallb_ext_in.
    intros pin Hin. by rewrite (Hnets dir pin Hin). }
  split; [done|].
  unfold is_removable_input, is_removable_output, is_removable_block,
    block_output_pins, block_input_pins.
  rewrite Hty, !Hall. done.
Qed.

(** The blocks that are live after the selected blocks were removed were not
    selected. *)
Lemma survivors_not_selected (P : nat → Prop) `{!∀ blk, Decision (P blk)} nl blk :
  is_Some (entry (nl_blocks (foldl remove_block nl
                               (filter P (live_ids (nl_blocks nl))))) blk) →
  (blk ∉ filter P (live_ids (nl_blocks nl))) ∧ ¬ P blk.
Proof.
  rewrite remove_blocks_blocks, entry_tombstones.
  destruct (decide (blk ∈ filter P (live_ids (nl_blocks nl)))) as [|Hno];
    [by intros [? ?]|].
  intros Hlive. split; [done|]. intros HP. apply Hno, list_elem_of_filter.
  split; [done|]. by apply elem_of_live_ids.
Qed.

(** X15.  A block sweep does not cascade: the blocks [sweep_blocks],
    [sweep_inputs] and [sweep_outputs] select are selected on the netlist as it
    is when the sweep starts, and removing them makes no other block
    removable, so the same sweep run again returns the netlist unchanged and
    the number zero. *)
Theorem block_sweeps_do_not_cascade (nl : AtomNetlist) :
  sweep_blocks (sweep_blocks nl).1 = ((sweep_blocks nl).1, 0%nat)
  ∧ sweep_inputs (sweep_inputs nl).1 = ((sweep_inputs nl).1, 0%nat)
  ∧ sweep_outputs (sweep_outputs nl).1 = ((sweep_outputs nl).1, 0%nat).
Proof.
  split; [|split].
  - set (nl' := (sweep_blocks nl).1). unfold sweep_blocks at 1.
    rewrite filter_none; [done|].
    intros blk Hlive%elem_of_live_ids HP. subst nl'.
    unfold sweep_blocks in Hlive, HP. cbn [fst] in Hlive, HP.
    apply survivors_not_selected in Hlive as [Hno HnP]. apply HnP.
    destruct (survivor_is_removable nl _ blk Hno) as (Hty & Hrb & _).
    by rewrite Hty, Hrb in HP.
  - set (nl' := (sweep_inputs nl).1). unfold sweep_inputs at 1.
    rewrite filter_none; [done|].
    intros blk Hlive%elem_of_live_ids HP. subst nl'.
    unfold sweep_inputs in Hlive, HP. cbn [fst] in Hlive, HP.
    apply survivors_not_selected in Hlive as [Hno HnP]. apply HnP.
    destruct (survivor_is_removable nl _ blk Hno) as (_ & _ & Hri & _).
    by rewrite Hri in HP.
  - set (nl' := (sweep_outputs nl).1). unfold sweep_outputs at 1.
    rewrite filter_none; [done|].
    intros blk Hlive%elem_of_live_ids HP. subst nl'.
    unfold sweep_outputs in Hlive, HP. cbn [fst] in Hlive, HP.
    apply survivors_not_selected in Hlive as [Hno HnP]. apply HnP.
    destruct (survivor_is_removable nl _ blk Hno) as (_ & _ & _ & Hro).
    by rewrite Hro in HP.
Qed.

Lemma remove_selected (P : nat → Prop) `{!∀ blk, Decision (P blk)} nl :
  let l := filter P (live_ids (nl_blocks nl)) in
  let nl' := foldl remove_block nl l in
  (∀ blk b, entry (nl_blocks nl) blk = Some b →
     entry (nl_blocks nl') blk = if decide (P blk) then None else Some b)
  ∧ (length l + num_live (nl_blocks nl') = num_live (nl_blocks nl))%nat
  ∧ num_live (nl_nets nl') = num_live (nl_nets nl).
Proof.
  intros l nl'. split.
  - intros blk b Hb. subst nl'. rewrite remove_blocks_blocks, entry_tombstones.
    assert (blk ∈ l ↔ P blk) as Hin.
    { unfold l. rewrite list_elem_of_filter, elem_of_live_ids. split; [tauto|].
      intros HP. split; [done|by eauto]. }
    destruct (decide (blk ∈ l)), (decide (P blk)); tauto.
  - destruct (remove_blocks_live l nl) as [H1 H2].
    { apply NoDup_filter, live_ids_NoDup. }
    { intros blk [_ Hin]%list_elem_of_filter. by apply live_ids_live. }
    fold nl' in H1, H2. split; [lia|done].
Qed.

(** X16.  Each block sweep removes exactly the live blocks it selects on the
    netlist it is given, and returns their number: [sweep_blocks] the blocks
    that are not pads and have no output pin on a net, [sweep_inputs] the
    input pads without an output pin on a net, [sweep_outputs] the output pads
    without an input pin on a net.  Every other block stays as it was, and no
    net is removed. *)
Theorem block_sweeps_remove_selected (nl : AtomNetlist) :
  ((∀ blk b, entry (nl_blocks nl) blk = Some b →
      entry (nl_blocks (sweep_blocks nl).1) blk
      = if decide (blk_type b ≠ INPAD ∧ blk_type b ≠ OUTPAD
                   ∧ is_removable_block nl blk = true)
        then None else Some b)
   ∧ ((sweep_blocks nl).2 + num_live (nl_blocks (sweep_blocks nl).1)
      = num_live (nl_blocks nl))%nat
   ∧ num_live (nl_nets (sweep_blocks nl).1) = num_live (nl_nets nl))
  ∧ ((∀ blk b, entry (nl_blocks nl) blk = Some b →
        entry (nl_blocks (sweep_inputs nl).1) blk
        = if decide (blk_type b = INPAD ∧ is_removable_block nl blk = true)
          then None else Some b)
     ∧ ((sweep_inputs nl).2 + num_live (nl_blocks (sweep_inputs nl).1)
        = num_live (nl_blocks nl))%nat
     ∧ num_live (nl_nets (sweep_inputs nl).1) = num_live (nl_nets nl))
  ∧ ((∀ blk b, entry (nl_blocks nl) blk = Some b →
        entry (nl_blocks (sweep_outputs nl).1) blk
        = if decide (blk_type b = OUTPAD
                     ∧ connected_pins nl (block_input_pins nl blk) = 0%nat)
          then None else Some b)
     ∧ ((sweep_outputs nl).2 + num_live (nl_blocks (sweep_outputs nl).1)
        = num_live (nl_blocks nl))%nat
     ∧ num_live (nl_nets (sweep_outputs nl).1) = num_live (nl_nets nl)).
Proof.
  assert (∀ pins,
            forallb (λ pin_id, negb (bool_decide (is_Some (pin_net nl pin_id)))) pins
            = true ↔ connected_pins nl pins = 0%nat) as Hconn.
  { intros pins. unfold connected_pins.
    induction pins as [|pin pins IH]; [done|]. cbn [forallb].
    destruct (decide (is_Some (pin_net nl pin))) as [Hs|Hs].
    - rewrite bool_decide_eq_true_2, filter_cons_True by done. simpl. split; [done|lia].
    - rewrite bool_decide_eq_false_2, filter_cons_False by done. simpl. exact IH. }
  split; [|split].
  - unfold sweep_blocks. cbn [fst snd].
    destruct (remove_selected
                (λ blk_id, block_type nl blk_id ≠ Some INPAD
                           ∧ block_type nl blk_id ≠ Some OUTPAD
                           ∧ is_removable_block nl blk_id = true) nl)
      as (Hblocks & Hcount & Hnets).
    split; [|by split]. intros blk b Hb. rewrite (Hblocks blk b Hb).
    rewrite (block_type_entry _ _ _ Hb).
    destruct (decide _) as [Hd|Hd], (decide _) as [Hd'|Hd']; try done; exfalso.
    + apply Hd'. destruct Hd as (H1 & H2 & H3). repeat split; congruence.
    + apply Hd. destruct Hd' as (H1 & H2 & H3). repeat split; congruence.
  - unfold sweep_inputs. cbn [fst snd].
    destruct (remove_selected (λ blk_id, is_removable_input nl blk_id = true) nl)
      as (Hblocks & Hcount & Hnets).
    split; [|by split]. intros blk b Hb. rewrite (Hblocks blk b Hb).
    unfold is_removable_input. rewrite (block_type_entry _ _ _ Hb).
    destruct (decide (Some (blk_type b) = Some INPAD)) as [[= Hty]|Hty].
    + destruct (decide _) as [Hd|Hd], (decide _) as [Hd'|Hd']; try done; exfalso; tauto.
    + rewrite decide_False by done. rewrite decide_False; [done|].
      intros [Hty' _]. congruence.
  - unfold sweep_outputs. cbn [fst snd].
    destruct (remove_selected (λ blk_id, is_removable_output nl blk_id = true) nl)
      as (Hblocks & Hcount & Hnets).
    split; [|by split]. intros blk b Hb. rewrite (Hblocks blk b Hb).
    unfold is_removable_output. rewrite (block_type_entry _ _ _ Hb).
    destruct (decide (Some (blk_type b) = Some OUTPAD)) as [[= Hty]|Hty].
    + destruct (decide _) as [Hd|Hd], (decide _) as [Hd'|Hd']; try done; exfalso.
      * apply Hd'. split; [done|]. by apply Hconn.
      * apply Hd. apply Hconn. tauto.
    + rewrite decide_False by done. rewrite decide_False; [done|].
      intros [Hty' _]. congruence.
Qed.

End Sweep.

(** ** Absorbing all buffer LUTs *)

Module BufferLuts.

Import TruthTable Atom Absorb.

(** [identify_buffer_luts]: the loop over [netlist.blocks()] has no
    [if(!blk) continue]; the id of a removed block is the invalid id, on which
    the queries of [is_buffer_lut] find nothing. *)
Definition identify_buffer_luts (nl : AtomNetlist) : result (list nat) :=
  for_each (seq 0 (length (nl_blocks nl)))
    (λ buffer_luts blk,
       is_buffer ← is_buffer_lut nl blk;
       Ok (if is_buffer : bool then buffer_luts ++ [blk] else buffer_luts)) [].

(** [absorb_buffer_luts]; the netlist is passed and returned. *)
Definition absorb_buffer_luts (nl : AtomNetlist) : result AtomNetlist :=
  buffer_luts ← identify_buffer_luts nl;
  for_each buffer_luts (λ nl blk, remove_buffer_lut nl blk) nl.

Example absorb_lut_buffer_lut :
  ∃ nl', absorb_buffer_luts lut_buffer_lut = Ok nl'
         ∧ block_type nl' 2 = None ∧ net_name nl' 4 = Some "v"
         ∧ net_driver nl' 4 = Some 2%nat ∧ net_sinks nl' 4 = [5%nat].
Proof. eexists. split; [vm_compute; reflexivity|]. by vm_compute. Qed.

Example absorb_pad_buffer_pad : absorb_buffer_luts pad_buffer_pad = Ok pad_buffer_pad.
Proof. vm_compute. reflexivity. Qed.

Definition returns_true (r : result bool) : bool :=
  match r with
  | Ok true => true
  | _ => false
  end.

(** The blocks [identify_buffer_luts] lists are those on which
    [is_buffer_lut] returns [true], in the order of their ids. *)
Lemma identify_loop nl : ∀ ids acc l,
  for_each ids
    (λ buffer_luts blk,
       is_buffer ← is_buffer_lut nl blk;
       Ok (if is_buffer : bool then buffer_luts ++ [blk] else buffer_luts)) acc
  = Ok l →
  l = acc ++ filter (λ blk, returns_true (is_buffer_lut nl blk) = true) ids.
Proof.
  induction ids as [|blk ids IH]; intros acc l.
  - cbn [for_each]. intros [= <-]. by rewrite app_nil_r.
  - cbn [for_each].
    destruct (is_buffer_lut nl blk) as [[]|] eqn:E; [| |discriminate];
      cbn [mbind result_bind]; intros ->%IH.
    + rewrite filter_cons_True by (by rewrite E). by rewrite <- (assoc_L (++)).
    + rewrite filter_cons_False; [done|]. by rewrite E.
Qed.

(** [remove_buffer_lut] takes at most the block it is called on out of the
    table of blocks. *)
Lemma remove_buffer_lut_blocks nl blk nl' :
  remove_buffer_lut nl blk = Ok nl' →
  nl_blocks nl' = nl_blocks nl ∨ nl_blocks nl' = <[blk := None]> (nl_blocks nl).
Proof.
  unfold remove_buffer_lut. cbn zeta.
  repeat match goal with
         | |- mbind _ ?m = Ok _ → _ =>
             destruct m eqn:?; cbn [mbind result_bind]; [|discriminate]
         end.
  destruct (_ && _).
  - intros [= <-]. by left.
  - repeat match goal with
           | |- mbind _ ?m = Ok _ → _ =>
               destruct m as [?|?] eqn:?; cbn [mbind result_bind]; [|discriminate]
           end.
    match goal with
    | H : add_net _ _ _ _ = Ok ?r |- _ =>
        destruct r as [nl2 net]; unfold add_net in H;
        destruct (find_net _ _); [discriminate|]; injection H as <- _
    end.
    intros [= <-]. right. cbn [nl_blocks remove_net]. apply remove_block_blocks.
Qed.

Lemma remove_buffer_luts_blocks : ∀ l nl nl',
  for_each l (λ nl blk, remove_buffer_lut nl blk) nl = Ok nl' →
  ∀ blk, entry (nl_blocks nl') blk = entry (nl_blocks nl) blk
         ∨ (blk ∈ l ∧ entry (nl_blocks nl') blk = None).
Proof.
  induction l as [|b l IH]; intros nl nl'.
  - cbn [for_each]. intros [= <-] blk. by left.
  - cbn [for_each].
    destruct (remove_buffer_lut nl b) as [nl1|] eqn:E1; [|discriminate].
    cbn [mbind result_bind]. intros E blk.
    destruct (IH nl1 nl' E blk) as [Hsame|[Hin Hnone]].
    + rewrite Hsame.
      destruct (remove_buffer_lut_blocks _ _ _ E1) as [->| ->]; [by left|].
      rewrite entry_tombstone. destruct (decide (b = blk)) as [->|]; [|by left].
      right. split; [left|done].
    + right. split; [by right|done].
Qed.

(** X17.  [absorb_buffer_luts] takes no block out of the netlist but blocks
    on which [is_buffer_lut] returned [true] when it started: whenever it
    returns, every block of the netlist it returns is a block of the netlist
    it was given, with the name, type, model and truth table it had, and every
    block on which [is_buffer_lut] did not return [true] is still there. *)
Theorem absorb_buffer_luts_removes_only_buffers (nl nl' : AtomNetlist) :
  absorb_buffer_luts nl = Ok nl' →
  ∀ blk, entry (nl_blocks nl') blk = entry (nl_blocks nl) blk
         ∨ (is_buffer_lut nl blk = Ok true ∧ entry (nl_blocks nl') blk = None).
Proof.
  unfold absorb_buffer_luts, identify_buffer_luts.
  destruct (for_each (seq 0 (length (nl_blocks nl))) _ []) as [l|] eqn:El;
    [|discriminate].
  cbn [mbind result_bind]. intros E blk.
  apply identify_loop in El. cbn [app] in El. subst l.
  destruct (remove_buffer_luts_blocks _ _ _ E blk) as [?|[Hin ?]]; [by left|].
  right. split; [|done]. apply list_elem_of_filter in Hin as [Hin _].
  by destruct (is_buffer_lut nl blk) as [[]|].
Qed.

Lemma absorb_buffer_luts_removes_only_buffers_witness :
  ∃ nl',
    absorb_buffer_luts lut_buffer_lut = Ok nl'
    ∧ ∀ blk, entry (nl_blocks nl') blk = entry (nl_blocks lut_buffer_lut) blk
             ∨ (is_buffer_lut lut_buffer_lut blk = Ok true
                ∧ entry (nl_blocks nl') blk = None).
Proof.
  eexists. split; [vm_compute; reflexivity|].
  apply (absorb_buffer_luts_removes_only_buffers lut_buffer_lut).
  vm_compute. reflexivity.
Defined.

End BufferLuts.

(** ** The netlist invariants under [remove_buffer_lut] *)

Module Invariants.

Import TruthTable Atom Absorb Sweep.

Lemma bind_pins_length net (l : list nat) : ∀ pins : list (option Pin),
  length (foldl (λ pins pin, alter (λ o : option Pin, bind_net net <$> o) pin pins)
                pins l) = length pins.
Proof.
  induction l as [|q l IH]; intros pins; cbn [foldl]; [done|].
  by rewrite IH, length_alter.
Qed.

Section Merged.

Context (nl : AtomNetlist) (blk P_in P_out n_in n_out : nat) (net_in net_out : Net).
Context (d : nat) (new_name : string).
Hypothesis Hwf : well_formed nl.
Hypothesis Hbuf : buffer nl blk P_in P_out n_in n_out net_in net_out.
Hypothesis Hdriver : nt_driver net_in = Some d.
Hypothesis Hdistinct : n_in ≠ n_out.
Hypothesis Hname : new_name = nt_name net_in ∨ new_name = nt_name net_out.

Definition merged_net (new_name : string) (d : nat) (sinks : list nat) : Net :=
  {| nt_name := new_name; nt_driver := Some d; nt_sinks := sinks;
     nt_is_constant := false; nt_is_global := false |}.

(** The netlist [absorb] returns, table by table. *)
Lemma absorb_tables :
  ∃ nl',
    absorb nl blk n_in n_out (Some d) new_name (merged_sinks P_in net_in net_out) = Ok nl'
    ∧ nl_blocks nl' = <[blk := None]> (nl_blocks nl)
    ∧ (∀ port, entry (nl_ports nl') port
               = if decide (port_block nl port = Some blk) then None
                 else entry (nl_ports nl) port)
    ∧ length (nl_pins nl') = length (nl_pins nl)
    ∧ (∀ pin, entry (nl_pins nl') pin
              = if decide (pin = P_in ∨ pin = P_out) then None
                else if decide (pin ∈ d :: merged_sinks P_in net_in net_out)
                     then bind_net (length (nl_nets nl)) <$> entry (nl_pins nl) pin
                     else entry (nl_pins nl) pin)
    ∧ (∀ net, entry (nl_nets nl') net
              = if decide (net = length (nl_nets nl))
                then Some (merged_net new_name d (merged_sinks P_in net_in net_out))
                else if decide (net = n_in ∨ net = n_out) then None
                     else entry (nl_nets nl) net).
Proof.
  destruct (absorb_asserts nl blk P_in P_out n_in n_out net_in net_out Hwf Hbuf Hdistinct)
    as [Hsize Hnodriver].
  pose proof (merged_name_is_fresh nl blk P_in P_out n_in n_out net_in net_out
                Hwf Hbuf Hdistinct new_name Hname) as Hfresh.
  destruct (nets_removed nl blk P_in P_out n_in n_out net_in net_out Hwf Hbuf Hdistinct)
    as (Hblocks & Hlen & Hnets & Hpins).
  destruct (remove_block_lengths nl blk) as [_ Hpinlen].
  pose proof (remove_block_ports nl blk) as Hports.
  unfold absorb. cbn zeta. rewrite Hsize. cbn [VTR_ASSERT mbind result_bind].
  rewrite bool_decide_eq_true_2 by done. cbn [VTR_ASSERT mbind result_bind].
  unfold add_net. rewrite (find_net_fresh _ _ Hfresh). cbn [mbind result_bind].
  eexists. split; [reflexivity|].
  remember (remove_net (remove_net (remove_block nl blk) n_in) n_out) as nl3 eqn:E3.
  assert (nl_ports nl3 = nl_ports (remove_block nl blk)) as Eports by by subst nl3.
  assert (length (nl_pins nl3) = length (nl_pins nl)) as Epins.
  { subst nl3. cbn [nl_pins remove_net]. by rewrite !length_fmap. }
  clear E3 Hsize Hnodriver Hfresh.
  cbn [nl_blocks nl_ports nl_pins nl_nets from_option app].
  split; [done|]. split; [by rewrite Eports|]. split; [|split].
  - by rewrite bind_pins_length.
  - intros pin. rewrite entry_bind_pins, Hpins, Hlen.
    destruct (decide (pin = P_in ∨ pin = P_out)) as [|Hpin]; [by destruct (decide _)|].
    destruct (decide (pin ∈ d :: merged_sinks P_in net_in net_out)) as [Hin|Hout].
    + by destruct (entry (nl_pins nl) pin) as [p|].
    + destruct (entry (nl_pins nl) pin) as [p|] eqn:Hp; [|done]. cbn. f_equal.
      apply not_elem_of_cons in Hout as [Hd Hs].
      destruct (other_pin_other_net nl blk P_in P_out n_in n_out net_in net_out d
                  Hwf Hbuf Hdriver pin p) as [H1 H2]; try done; try tauto.
      rewrite (unbind_other n_in) by done. by rewrite unbind_other.
  - intros net. rewrite <- Hlen.
    destruct (decide (net = length (nl_nets nl3))) as [->|Hne].
    + by rewrite entry_app_new.
    + destruct (decide (net < length (nl_nets nl3))%nat) as [Hlt|Hge].
      * rewrite entry_app_l by done. apply Hnets.
      * unfold entry at 1. rewrite (proj2 (lookup_ge_None _ _))
          by (rewrite length_app; simpl; lia).
        destruct (decide _); [done|].
        unfold entry. rewrite (proj2 (lookup_ge_None (nl_nets nl) net)); [done|lia].
Qed.

Section After.

Context (nl' : AtomNetlist).
Hypothesis Hblocks : nl_blocks nl' = <[blk := None]> (nl_blocks nl).
Hypothesis Hports : ∀ port,
  entry (nl_ports nl') port
  = if decide (port_block nl port = Some blk) then None else entry (nl_ports nl) port.
Hypothesis Hpinlen : length (nl_pins nl') = length (nl_pins nl).
Hypothesis Hpins : ∀ pin,
  entry (nl_pins nl') pin
  = if decide (pin = P_in ∨ pin = P_out) then None
    else if decide (pin ∈ d :: merged_sinks P_in net_in net_out)
         then bind_net (length (nl_nets nl)) <$> entry (nl_pins nl) pin
         else entry (nl_pins nl) pin.
Hypothesis Hnets : ∀ net,
  entry (nl_nets nl') net
  = if decide (net = length (nl_nets nl))
    then Some (merged_net new_name d (merged_sinks P_in net_in net_out))
    else if decide (net = n_in ∨ net = n_out) then None
         else entry (nl_nets nl) net.

Let Hnet_in := buf_net_in _ _ _ _ _ _ _ _ Hbuf.
Let Hnet_out := buf_net_out _ _ _ _ _ _ _ _ Hbuf.

Lemma pin_after q pin :
  entry (nl_pins nl') q = Some pin →
  q ≠ P_in ∧ q ≠ P_out
  ∧ ∃ pin0, entry (nl_pins nl) q = Some pin0
            ∧ pn_port pin = pn_port pin0 ∧ pn_type pin = pn_type pin0
            ∧ pn_net pin = if decide (q ∈ d :: merged_sinks P_in net_in net_out)
                           then Some (length (nl_nets nl)) else pn_net pin0.
Proof.
  rewrite Hpins.
  destruct (decide (q = P_in ∨ q = P_out)) as [|Hq]; [done|].
  intros Hpin. split; [tauto|]. split; [tauto|].
  destruct (decide (q ∈ d :: merged_sinks P_in net_in net_out)).
  - destruct (entry (nl_pins nl) q) as [pin0|]; [|done].
    injection Hpin as <-. by exists pin0.
  - by exists pin.
Qed.

Lemma pin_of_block q : pin_block nl q = Some blk → q = P_in ∨ q = P_out.
Proof.
  intros Hb.
  assert (q ∈ block_pins nl blk) as Hin.
  { unfold block_pins. apply list_elem_of_filter. split; [done|].
    apply elem_of_seq. unfold pin_block, pin_port in Hb.
    destruct (entry (nl_pins nl) q) as [p|] eqn:Hp; [|done].
    apply entry_Some, lookup_lt_Some in Hp. lia. }
  destruct (buffer_block_pins nl blk P_in P_out n_in n_out net_in net_out Hwf Hbuf)
    as [E|E]; rewrite E in Hin;
    repeat (apply elem_of_cons in Hin as [->|Hin]; [tauto|]);
    by apply not_elem_of_nil in Hin.
Qed.

Lemma port_after q pin0 :
  entry (nl_pins nl) q = Some pin0 → q ≠ P_in → q ≠ P_out →
  entry (nl_ports nl') (pn_port pin0) = entry (nl_ports nl) (pn_port pin0).
Proof.
  intros Hpin H1 H2. rewrite Hports.
  destruct (decide (port_block nl (pn_port pin0) = Some blk)) as [Hb|]; [|done].
  destruct (pin_of_block q); [|done|done].
  unfold pin_block, pin_port. by rewrite Hpin.
Qed.

Lemma net_after n net :
  entry (nl_nets nl') n = Some net →
  (n = length (nl_nets nl)
   ∧ net = merged_net new_name d (merged_sinks P_in net_in net_out))
  ∨ (n ≠ length (nl_nets nl) ∧ n ≠ n_in ∧ n ≠ n_out
     ∧ entry (nl_nets nl) n = Some net).
Proof.
  rewrite Hnets. destruct (decide (n = length (nl_nets nl))) as [->|Hne].
  - intros [= <-]. by left.
  - destruct (decide (n = n_in ∨ n = n_out)) as [|Hn]; [done|].
    intros Hnet. right. repeat split; tauto.
Qed.

Lemma net_before n net :
  entry (nl_nets nl) n = Some net → n ≠ n_in → n ≠ n_out →
  entry (nl_nets nl') n = Some net.
Proof.
  intros Hnet H1 H2. rewrite Hnets.
  rewrite decide_False.
  - by rewrite decide_False by tauto.
  - apply entry_Some, lookup_lt_Some in Hnet. lia.
Qed.

(** A pin on a net other than the two nets of the buffer is as it was. *)
Lemma pin_on_other_net q n :
  pin_net nl q = Some n → n ≠ n_in → n ≠ n_out →
  entry (nl_pins nl') q = entry (nl_pins nl) q.
Proof.
  intros Hq H1 H2. rewrite Hpins.
  pose proof (buf_in_net _ _ _ _ _ _ _ _ Hbuf) as Hpin.
  pose proof (buf_out_net _ _ _ _ _ _ _ _ Hbuf) as Hpout.
  destruct (wf_driver _ Hwf _ _ _ Hnet_in Hdriver) as [_ Hd].
  rewrite decide_False by (intros [->| ->]; congruence).
  rewrite decide_False; [done|].
  intros [->|Hs]%elem_of_cons; [congruence|].
  destruct (merged_sinks_are_sinks nl blk P_in P_out n_in n_out net_in net_out
              Hwf Hbuf q Hs) as [_ [[? _]|?]]; congruence.
Qed.

Lemma merged_sinks_NoDup : NoDup (merged_sinks P_in net_in net_out).
Proof.
  unfold merged_sinks. apply NoDup_app. split; [|split].
  - apply NoDup_filter, (wf_sinks_nodup _ Hwf _ _ Hnet_in).
  - intros s [_ Hs]%list_elem_of_filter Hs'.
    destruct (wf_sinks _ Hwf _ _ _ Hnet_in Hs) as [_ H1].
    destruct (wf_sinks _ Hwf _ _ _ Hnet_out Hs') as [_ H2]. congruence.
  - apply (wf_sinks_nodup _ Hwf _ _ Hnet_out).
Qed.

Lemma bound_pin q :
  q ∈ d :: merged_sinks P_in net_in net_out →
  ∃ pin0, entry (nl_pins nl) q = Some pin0
          ∧ entry (nl_pins nl') q = Some (bind_net (length (nl_nets nl)) pin0)
          ∧ pn_type pin0 = (if decide (q = d) then DRIVER else SINK).
Proof.
  intros Hq. rewrite Hpins.
  destruct (driver_is_not_buffer_pin nl blk P_in P_out n_in n_out net_in net_out d
              Hwf Hbuf Hdriver Hdistinct) as [Hd1 Hd2].
  destruct (wf_driver _ Hwf _ _ _ Hnet_in Hdriver) as [Hdty _].
  assert (q ≠ P_in ∧ q ≠ P_out ∧ ∃ ty, pin_type nl q = Some ty
            ∧ ty = (if decide (q = d) then DRIVER else SINK)) as (H1 & H2 & ty & Hty & Ety).
  { apply elem_of_cons in Hq as [->|Hs].
    - split; [done|]. split; [done|]. exists DRIVER. by rewrite decide_True.
    - destruct (merged_sink_is_not_buffer_pin nl blk P_in P_out n_in n_out net_in net_out
                  d Hwf Hbuf Hdriver Hdistinct q Hs) as (? & ? & ?).
      destruct (merged_sinks_are_sinks nl blk P_in P_out n_in n_out net_in net_out
                  Hwf Hbuf q Hs) as [? _].
      split; [done|]. split; [done|]. exists SINK. by rewrite decide_False. }
  rewrite decide_False by tauto. rewrite decide_True by done.
  unfold pin_type in Hty. destruct (entry (nl_pins nl) q) as [pin0|]; [|done].
  exists pin0. split; [done|]. split; [done|]. simpl in Hty. congruence.
Qed.

Lemma after_wf_driver n net dd :
  entry (nl_nets nl') n = Some net → nt_driver net = Some dd →
  pin_type nl' dd = Some DRIVER ∧ pin_net nl' dd = Some n.
Proof.
  intros [[-> ->]|(Hn & H1 & H2 & Hnet)]%net_after Hdd.
  - injection Hdd as <-.
    destruct (bound_pin d ltac:(left)) as (pin0 & _ & Hpin & Hty).
    unfold pin_type, pin_net. rewrite Hpin. simpl. by rewrite Hty, decide_True.
  - destruct (wf_driver _ Hwf _ _ _ Hnet Hdd) as [Hty Hpn].
    unfold pin_type, pin_net in *. by rewrite (pin_on_other_net dd n).
Qed.

Lemma after_wf_sinks n net s :
  entry (nl_nets nl') n = Some net → s ∈ nt_sinks net →
  pin_type nl' s = Some SINK ∧ pin_net nl' s = Some n.
Proof.
  intros [[-> ->]|(Hn & H1 & H2 & Hnet)]%net_after Hs.
  - cbn [merged_net nt_sinks] in Hs.
    destruct (merged_sink_is_not_buffer_pin nl blk P_in P_out n_in n_out net_in net_out
                d Hwf Hbuf Hdriver Hdistinct s Hs) as (_ & _ & Hsd).
    destruct (bound_pin s ltac:(by right)) as (pin0 & _ & Hpin & Hty).
    unfold pin_type, pin_net. rewrite Hpin. simpl. by rewrite Hty, decide_False.
  - destruct (wf_sinks _ Hwf _ _ _ Hnet Hs) as [Hty Hpn].
    unfold pin_type, pin_net in *. by rewrite (pin_on_other_net s n).
Qed.

Lemma after_wf_sinks_nodup n net :
  entry (nl_nets nl') n = Some net → NoDup (nt_sinks net).
Proof.
  intros [[-> ->]|(Hn & H1 & H2 & Hnet)]%net_after.
  - apply merged_sinks_NoDup.
  - by apply (wf_sinks_nodup _ Hwf n).
Qed.

Lemma after_wf_pin_net p pin n :
  entry (nl_pins nl') p = Some pin → pn_net pin = Some n →
  ∃ net, entry (nl_nets nl') n = Some net
         ∧ (pn_type pin = SINK → p ∈ nt_sinks net)
         ∧ (pn_type pin = DRIVER → nt_driver net = Some p).
Proof.
  intros Hpin Hn.
  destruct (pin_after p pin Hpin) as (Hp1 & Hp2 & pin0 & Hpin0 & Hport & Hty & Hnet).
  destruct (decide (p ∈ d :: merged_sinks P_in net_in net_out)) as [Hin|Hout].
  - assert (n = length (nl_nets nl)) as -> by congruence.
    exists (merged_net new_name d (merged_sinks P_in net_in net_out)).
    split; [by rewrite Hnets, decide_True|].
    destruct (bound_pin p Hin) as (pin0' & Hpin0' & _ & Hty').
    assert (pin0' = pin0) as -> by congruence.
    rewrite Hty, Hty'. cbn [merged_net nt_sinks nt_driver].
    destruct (decide (p = d)) as [->|Hpd]; split; try done.
    intros _. apply elem_of_cons in Hin as [?|?]; done.
  - rewrite Hnet in Hn.
    apply not_elem_of_cons in Hout as [Hpd Hps].
    destruct (other_pin_other_net nl blk P_in P_out n_in n_out net_in net_out d
                Hwf Hbuf Hdriver p pin0 Hp1 Hp2 Hpd Hps Hpin0) as [Hn1 Hn2].
    destruct (wf_pin_net _ Hwf _ _ _ Hpin0 Hn) as (net & Hnet0 & Hs & Hd).
    exists net. split; [|by rewrite Hty].
    apply net_before; [done|congruence|congruence].
Qed.

Lemma after_wf_pin_type p pin :
  entry (nl_pins nl') p = Some pin →
  ∃ dir, port_type nl' (pn_port pin) = Some dir
         ∧ pn_type pin = (if decide (dir = OUTPUT) then DRIVER else SINK).
Proof.
  intros Hpin.
  destruct (pin_after p pin Hpin) as (Hp1 & Hp2 & pin0 & Hpin0 & Hport & Hty & _).
  destruct (wf_pin_type _ Hwf _ _ Hpin0) as (dir & Hdir & Hty0).
  exists dir. rewrite Hty, Hport. split; [|done].
  unfold port_type in *. by rewrite (port_after p pin0).
Qed.

Lemma after_wf_names n1 n2 nm :
  net_name nl' n1 = Some nm → net_name nl' n2 = Some nm → n1 = n2.
Proof.
  assert (∀ n, net_name nl' n = Some nm → n ≠ length (nl_nets nl) →
            net_name nl n = Some nm ∧ n ≠ n_in ∧ n ≠ n_out) as Hold.
  { intros n Hn Hne. unfold net_name in *.
    destruct (entry (nl_nets nl') n) as [net|] eqn:E; [|done].
    apply net_after in E as [[? ?]|(_ & ? & ? & ->)]; done. }
  assert (∀ n, net_name nl' n = Some nm → n ≠ length (nl_nets nl) →
            net_name nl' (length (nl_nets nl)) = Some nm → False) as Hnew.
  { intros n Hn Hne Hnm. destruct (Hold n Hn Hne) as (Hn0 & H1 & H2).
    unfold net_name in Hnm. rewrite Hnets, decide_True in Hnm by done.
    cbn in Hnm. injection Hnm as ->.
    assert (net_name nl n_in = Some (nt_name net_in)) as Hin
      by (unfold net_name; by rewrite Hnet_in).
    assert (net_name nl n_out = Some (nt_name net_out)) as Hout
      by (unfold net_name; by rewrite Hnet_out).
    destruct Hname as [E|E]; rewrite E in Hn0.
    - apply H1. by eapply (wf_names _ Hwf).
    - apply H2. by eapply (wf_names _ Hwf). }
  intros H1 H2.
  destruct (decide (n1 = length (nl_nets nl))) as [->|Hn1],
           (decide (n2 = length (nl_nets nl))) as [->|Hn2]; [done| | |].
  - exfalso. by eapply (Hnew n2).
  - exfalso. by eapply (Hnew n1).
  - destruct (Hold _ H1 Hn1) as (? & _), (Hold _ H2 Hn2) as (? & _).
    by eapply (wf_names _ Hwf).
Qed.

Lemma after_block_pins_of b dir :
  b ≠ blk → block_pins_of nl' b dir = block_pins_of nl b dir.
Proof.
  intros Hb. unfold block_pins_of. rewrite Hpinlen.
  apply filter_ext_in. intros q _.
  unfold pin_block, pin_port, port_block, port_type.
  rewrite Hpins.
  destruct (decide (q = P_in ∨ q = P_out)) as [Hq|Hq].
  - cbn. split; [intros [? _]; done|]. intros [Hqb _]. exfalso.
    assert (pin_block nl q = Some blk) as Hq'.
    { pose proof (buf_input_pins _ _ _ _ _ _ _ _ Hbuf) as Hi.
      pose proof (buf_output_pins _ _ _ _ _ _ _ _ Hbuf) as Ho.
      destruct Hq as [-> | ->].
      - assert (P_in ∈ block_pins_of nl blk INPUT) as Hin
          by (fold (block_input_pins nl blk); rewrite Hi; left).
        by apply elem_of_block_pins_of in Hin as [? _].
      - assert (P_out ∈ block_pins_of nl blk OUTPUT) as Hin
          by (fold (block_output_pins nl blk); rewrite Ho; left).
        by apply elem_of_block_pins_of in Hin as [? _]. }
    unfold pin_block, pin_port, port_block in Hq'. congruence.
  - assert ((pn_port <$> (if decide (q ∈ d :: merged_sinks P_in net_in net_out)
                          then bind_net (length (nl_nets nl)) <$> entry (nl_pins nl) q
                          else entry (nl_pins nl) q))
            = pn_port <$> entry (nl_pins nl) q) as ->.
    { destruct (decide _); [|done]. by destruct (entry (nl_pins nl) q). }
    destruct (entry (nl_pins nl) q) as [pin0|] eqn:Hpin0; [|done]. cbn.
    by rewrite (port_after q pin0) by tauto.
Qed.

Lemma after_wf_comb b blk0 :
  entry (nl_blocks nl') b = Some blk0 → blk_type blk0 = COMBINATIONAL →
  block_clock_pins nl' b = []
  ∧ (blk_model blk0 = "names" →
     length (block_output_pins nl' b) = 1%nat
     ∧ Forall (λ row, length row = S (length (block_input_pins nl' b)))
              (blk_truth_table blk0)).
Proof.
  rewrite Hblocks, entry_tombstone.
  destruct (decide (blk = b)) as [|Hb]; [done|]. intros Hblk0 Hty.
  unfold block_clock_pins, block_output_pins, block_input_pins.
  rewrite !after_block_pins_of by done.
  by apply (wf_comb _ Hwf).
Qed.

Lemma after_well_formed : well_formed nl'.
Proof.
  split.
  - apply after_wf_driver.
  - apply after_wf_sinks.
  - apply after_wf_sinks_nodup.
  - apply after_wf_pin_net.
  - apply after_wf_pin_type.
  - apply after_wf_names.
  - apply after_wf_comb.
Qed.

End After.

End Merged.

(** X19.  [remove_buffer_lut] keeps the netlist consistent: on a well-formed
    netlist and a buffer LUT whose input net is driven and is not its output
    net, it returns a netlist that is well-formed again (every net's driver
    and sinks are pins bound to it with the right type, no sink is listed
    twice, every pin's net lists it, pin types follow port directions, net
    names are unique, combinational blocks keep their shape), whether the
    buffer is absorbed or left in place. *)
Theorem remove_buffer_lut_keeps_well_formed (nl : AtomNetlist) (blk n_in n_out d : nat) :
  well_formed nl →
  is_buffer_lut nl blk = Ok true →
  input_net_of nl blk = Some n_in →
  output_net_of nl blk = Some n_out →
  n_in ≠ n_out →
  net_driver nl n_in = Some d →
  ∃ nl', remove_buffer_lut nl blk = Ok nl' ∧ well_formed nl'.
Proof.
  intros Hwf Hlut Hin Hout Hne Hd.
  destruct (buffer_lut_shape nl blk Hwf Hlut)
    as (P_in & P_out & n_in' & n_out' & net_in & net_out & Hbuf).
  destruct (buffer_nets _ _ _ _ _ _ _ _ Hbuf) as [Hin' Hout'].
  assert (n_in' = n_in) as -> by congruence.
  assert (n_out' = n_out) as -> by congruence.
  assert (nt_driver net_in = Some d) as Hdriver.
  { unfold net_driver in Hd. by rewrite (buf_net_in _ _ _ _ _ _ _ _ Hbuf) in Hd. }
  rewrite (remove_buffer_lut_unfold nl blk P_in P_out n_in n_out net_in net_out d
             Hwf Hbuf Hdriver).
  cbn zeta.
  destruct (pin_is_on nl INPAD d && existsb _ _); [by exists nl|].
  set (name := if pin_is_on nl INPAD d then nt_name net_in else nt_name net_out).
  assert (name = nt_name net_in ∨ name = nt_name net_out) as Hname.
  { subst name. destruct (pin_is_on nl INPAD d); auto. }
  destruct (absorb_tables nl blk P_in P_out n_in n_out net_in net_out d name
              Hwf Hbuf Hdriver Hne Hname)
    as (nl' & Hok & Hblocks & Hports & Hpinlen & Hpins & Hnets).
  exists nl'. split; [done|].
  by apply (after_well_formed nl blk P_in P_out n_in n_out net_in net_out d name
              Hwf Hbuf Hdriver Hne Hname).
Qed.

(** The theorem at the buffer of [lut_buffer_lut]. *)
Lemma remove_buffer_lut_keeps_well_formed_witness :
  ∃ nl', remove_buffer_lut lut_buffer_lut 2 = Ok nl' ∧ well_formed nl'.
Proof.
  apply (remove_buffer_lut_keeps_well_formed lut_buffer_lut 2 1 2 2).
  - apply netlist_ok_spec. vm_compute. reflexivity.
  - vm_compute. reflexivity.
  - vm_compute. reflexivity.
  - vm_compute. reflexivity.
  - lia.
  - vm_compute. reflexivity.
Defined.

End Invariants.
